(** * protondb-data: the ingestion pipeline, the catalog importer and the
    query facade, embedded from the Python sources.

    - [Py]         the fragment of Python's semantics the sources rely on:
                   truthiness, ordering against [None], exceptions.
    - [Sqlite]     the integers [sqlite3] binds and stores.
    - [Text]       characters, the file-name pattern of the archives.
    - [Datetime]   the dates of [datetime] and their timestamps.
    - [Extractor]  extract_protondb_data.py
    - [SteamDb]    create_steam_db.py
    - [Querier]    querries-db.py

    Modelling conventions.  A SQLite table with a primary key is a finite map
    from the key to the remaining columns.  A statement fails where the
    sources can make it fail: binding a Python [int] outside the signed
    64-bit range raises [OverflowError], and a [LIKE] whose pattern is longer
    than the engine's limit raises [sqlite3.OperationalError].  A failure of
    the engine itself (a locked or read-only file, a full disk) is an input
    of [populate_database], whose handler decides what the importer reports;
    everywhere else the engine is taken to be healthy.  A row is one SQLite
    holds: a [report_count] stays below 2^63 - 1, the one count whose
    increment SQLite turns into a float.  Timestamps carried by payload
    entries are JSON integers or [null].  Characters are code points below
    256, on which the regular expression class [\d] is exactly [0-9], and
    strings are shorter than the engine's limit on the length of a value
    (10^9 bytes).  The clock, the local time zone, the answer of the
    operator, the outcome of the request and the contents of the directory
    are inputs of the functions that read them. *)

From stdpp Require Import gmap strings list fin_maps sorting.
From Stdlib Require Import ZArith Ascii.

Local Open Scope Z_scope.
Set Warnings "-clear-no-such-hyp".

(** ** Python values and exceptions *)

Module Py.

(** The exceptions the sources meet; [Sqlite3Error] stands for
    [sqlite3.Error] and its subclasses. *)
Inductive exn : Type :=
| TypeError
| ValueError
| OSError
| JSONDecodeError
| TarError
| OverflowError
| Sqlite3Error.

Definition bind {A B : Type} (x : exn + A) (f : A → exn + B) : exn + B :=
  match x with
  | inl e => inl e
  | inr a => f a
  end.

(** [bool(x)] for [x] an [int] or [None]. *)
Definition truth (x : option Z) : bool :=
  match x with
  | Some z => negb (z =? 0)
  | None => false
  end.

(** [a < b] and [a > b]: ordering against [None], either way round, raises
    [TypeError]. *)
Definition lt (a b : option Z) : exn + bool :=
  match a, b with
  | Some x, Some y => inr (x <? y)
  | _, _ => inl TypeError
  end.

Definition gt (a b : option Z) : exn + bool :=
  match a, b with
  | Some x, Some y => inr (y <? x)
  | _, _ => inl TypeError
  end.

(** [a and b] in a condition: [b] is evaluated only when [a] is true. *)
Definition and_ (a : bool) (b : exn + bool) : exn + bool :=
  if a then b else inr false.

End Py.

Notation "'let?' x ':=' c 'in' k" := (Py.bind c (fun x => k))
  (at level 10, x name, c at level 100, k at level 200).

(** ** What [sqlite3] does with the values it is given *)

Module Sqlite.

(** The integers SQLite stores: signed, on 64 bits. *)
Definition fits (z : Z) : bool :=
  (-9223372036854775808 <=? z) && (z <=? 9223372036854775807).

(** A parameter that is an [int] or [None] can be bound. *)
Definition storable (x : option Z) : bool :=
  match x with
  | Some z => fits z
  | None => true
  end.

(** Binding the integer parameters of a statement before it runs: an [int]
    that does not fit raises [OverflowError], which is not a
    [sqlite3.Error]. *)
Definition bind (params : list (option Z)) : Py.exn + unit :=
  if forallb storable params then inr tt else inl Py.OverflowError.

End Sqlite.

(** ** Characters, the file-name pattern and [datetime] *)

Module Text.

Local Open Scope string_scope.
Local Open Scope Z_scope.

Definition code (c : ascii) : Z := Z.of_N (N_of_ascii c).

(** The class [[a-z]]. *)
Definition is_lower (c : ascii) : bool := (97 <=? code c) && (code c <=? 122).

(** The class [\d]. *)
Definition is_digit (c : ascii) : bool := (48 <=? code c) && (code c <=? 57).

Fixpoint all (p : ascii → bool) (s : string) : bool :=
  match s with
  | EmptyString => true
  | String c s' => p c && all p s'
  end.

(** The longest prefix of [s] made of characters in [p], and the rest. *)
Fixpoint span (p : ascii → bool) (s : string) : string * string :=
  match s with
  | EmptyString => (EmptyString, EmptyString)
  | String c s' =>
    if p c then let '(a, b) := span p s' in (String c a, b)
    else (EmptyString, s)
  end.

(** [s] without its prefix [p], when it starts with [p]. *)
Fixpoint strip_prefix (p s : string) : option string :=
  match p, s with
  | EmptyString, _ => Some s
  | String a p', String b s' =>
    if Ascii.eqb a b then strip_prefix p' s' else None
  | String _ _, EmptyString => None
  end.

(** The first [n] characters of [s] and the rest, when [s] has that many. *)
Fixpoint split_at (n : nat) (s : string) : option (string * string) :=
  match n, s with
  | O, _ => Some (EmptyString, s)
  | S n', String c s' =>
    match split_at n' s' with
    | Some (a, b) => Some (String c a, b)
    | None => None
    end
  | S _, EmptyString => None
  end.

(** [sub in s]. *)
Fixpoint contains (sub s : string) : bool :=
  match strip_prefix sub s with
  | Some _ => true
  | None =>
    match s with
    | EmptyString => false
    | String _ s' => contains sub s'
    end
  end.

(** [int(s)] for [s] a string of digits, the digits read so far being
    worth [acc]. *)
Fixpoint int_from (acc : Z) (s : string) : Z :=
  match s with
  | EmptyString => acc
  | String c s' => int_from (10 * acc + (code c - 48)) s'
  end.

Definition int (s : string) : Z := int_from 0 s.

(** [re.match(pattern, filename)] for the pattern made of the literal
    [reports_], group 1 [[a-z]+], group 2 [\d] any number of times, the
    literal [_], group 3 [\d{4}] and the literal [ext] ([.tar.gz] for
    archives, [.json] for loose files): the three groups of the match, if
    there is one.  The match is anchored at the start of the name only.  The
    classes [[a-z]] and [\d] and the literal [_] are pairwise disjoint, so the
    greedy groups are the maximal runs and backtracking finds no other
    match. *)
Definition re_match (ext filename : string)
    : option (string * string * string) :=
  match strip_prefix "reports_" filename with
  | None => None
  | Some s1 =>
    let '(g1, s2) := span is_lower s1 in
    if String.eqb g1 "" then None
    else
      let '(g2, s3) := span is_digit s2 in
      match strip_prefix "_" s3 with
      | None => None
      | Some s4 =>
        match split_at 4 s4 with
        | None => None
        | Some (g3, s5) =>
          if all is_digit g3 then
            match strip_prefix ext s5 with
            | Some _ => Some (g1, g2, g3)
            | None => None
            end
          else None
        end
      end
  end.

(** [month_map]. *)
Definition month_map : list (string * Z) :=
  [("jan", 1); ("feb", 2); ("mar", 3); ("apr", 4);
   ("may", 5); ("jun", 6); ("jul", 7); ("aug", 8);
   ("sep", 9); ("oct", 10); ("nov", 11); ("dec", 12)].

(** [month_map[month_name]] when [month_name in month_map]. *)
Fixpoint lookup_month (month_name : string) (m : list (string * Z))
    : option Z :=
  match m with
  | [] => None
  | (k, v) :: m' =>
    if String.eqb month_name k then Some v else lookup_month month_name m'
  end.

(** *** Notions the properties of the pattern are stated with *)

(** The first character of [s], if any, is outside the class. *)
Definition stops (f : ascii → bool) (s : string) : Prop :=
  match s with
  | EmptyString => True
  | String c _ => f c = false
  end.

(** The pattern, read as a grammar: [filename] starts with [reports_], a
    month part [mon] of one or more lowercase letters, a part [digits] of any
    number of digits, [_], a year [y] of four digits, and [ext]. *)
Definition matches (ext filename mon digits y : string) : Prop :=
  ∃ rest,
    filename = "reports_" +:+ mon +:+ digits +:+ "_" +:+ y +:+ ext +:+ rest ∧
    mon ≠ "" ∧ all is_lower mon = true ∧ all is_digit digits = true ∧
    all is_digit y = true ∧ String.length y = 4%nat.

End Text.

Module Datetime.

Definition is_leap (year : Z) : bool :=
  (year mod 4 =? 0) && (negb (year mod 100 =? 0) || (year mod 400 =? 0)).

Definition days_in_month (year month : Z) : Z :=
  if month =? 2 then (if is_leap year then 29 else 28)
  else if (month =? 4) || (month =? 6) || (month =? 9) || (month =? 11)
       then 30 else 31.

(** Days before January 1st of [year], counted from 0001-01-01. *)
Definition days_before_year (year : Z) : Z :=
  let y := year - 1 in y * 365 + y / 4 - y / 100 + y / 400.

(** Days of [year] before the first of [month]. *)
Definition days_before_month (year month : Z) : Z :=
  nth (Z.to_nat month)
      [0; 0; 31; 59; 90; 120; 151; 181; 212; 243; 273; 304; 334] 0
  + (if (2 <? month) && is_leap year then 1 else 0).

(** The proleptic Gregorian ordinal of a date; 0001-01-01 is day 1. *)
Definition ymd2ord (year month day : Z) : Z :=
  days_before_year year + days_before_month year month + day.

(** A naive [datetime.datetime] at midnight. *)
Record datetime : Type := mkDatetime { year : Z; month : Z; day : Z }.

(** The constructor [datetime.datetime(year, month, day)]: [ValueError]
    outside [MINYEAR..MAXYEAR], [1..12] and the days of the month. *)
Definition new (year month day : Z) : Py.exn + datetime :=
  if (1 <=? year) && (year <=? 9999) && (1 <=? month) && (month <=? 12)
     && (1 <=? day) && (day <=? days_in_month year month)
  then inr (mkDatetime year month day)
  else inl Py.ValueError.

(** Seconds from 1970-01-01T00:00:00 to midnight of [dt], both read on the
    same clock. *)
Definition naive_seconds (dt : datetime) : Z :=
  (ymd2ord (year dt) (month dt) (day dt) - 719163) * 86400.

(** [int(dt.timestamp())] for a naive [dt], which Python reads as local time:
    [utcoffset t] is the offset from UTC, in seconds, that the local time zone
    has at local time [t]. *)
Definition timestamp (utcoffset : Z → Z) (dt : datetime) : Z :=
  naive_seconds dt - utcoffset (naive_seconds dt).

End Datetime.

(** ** extract_protondb_data.py *)

Module Extractor.

(** One row of the [games] table, keyed by [app_id]. *)
Record GameRecord : Type := mkGame {
  title : string;
  first_seen : option Z;
  last_seen : option Z;
  report_count : Z
}.

(** One payload entry, a JSON object whose [app] and [app.steam] members are
    objects when it has them, as [process_json_entry] reads it:
    [entry_appId] is [entry_data.get('app', {}).get('steam', {}).get('appId')],
    [entry_title] is [entry_data.get('app', {}).get('title')], and
    [entry_timestamp] is [None] when the entry has no [timestamp] member and
    [Some v] when it has one with value [v] ([v = None] for [null]). *)
Record Entry : Type := mkEntry {
  entry_appId : option string;
  entry_title : option string;
  entry_timestamp : option (option Z)
}.

(** [self.stats], without the sizes and times. *)
Record Stats : Type := mkStats {
  total_archives : Z;
  total_json_files : Z;
  total_entries_processed : Z;
  total_games_added : Z;
  total_games_updated : Z;
  processed_archives : Z;
  processed_json_files : Z
}.

(** The mutable part of a [ProtonDBExtractor]: the [games] table behind
    [self.cursor], [self.processed_games] and [self.stats]. *)
Record State : Type := mkState {
  games : gmap string GameRecord;
  processed_games : gset string;
  stats : Stats
}.

(** Warnings and errors sent to [logger]. *)
Inductive LogRecord : Type :=
| ErrorProcessingEntry (e : Py.exn)
| UnknownMonthName (month_name : string)
| FilenameDoesNotMatch (filename : string)
| CouldNotExtractTimestamp (filename : string) (e : Py.exn)
| InvalidJSON (json_file : string)
| ErrorProcessingFile (json_file : string) (e : Py.exn)
| ErrorProcessingArchive (archive_path : string) (e : Py.exn)
| ErrorProcessingJSONFile (json_path : string) (e : Py.exn).

(** *** The reconciliation step *)

Definition execute_write (app_id : string) (row : GameRecord) (st : State)
    : State :=
  mkState (<[app_id := row]> (games st)) (processed_games st) (stats st).

Definition add_processed (app_id : string) (st : State) : State :=
  mkState (games st) ({[app_id]} ∪ processed_games st) (stats st).

(** The [try] block of [process_json_entry]: [inl] is an exception raised
    inside it, [inr] the state at its [return] with [(is_new, is_updated)].
    [not app_id or not title] holds for a missing member and for the empty
    string.  The [UPDATE] binds [(first_seen, last_seen, app_id)] and the
    [INSERT] binds [(app_id, title, entry_timestamp, entry_timestamp, 1)]; a
    statement whose parameters cannot be bound writes nothing. *)
Definition process_json_entry_try (st : State) (entry_data : Entry)
    (timestamp : option Z) : Py.exn + (State * (bool * bool)) :=
  match entry_appId entry_data, entry_title entry_data with
  | Some app_id, Some title =>
    if String.eqb app_id "" || String.eqb title ""
    then inr (st, (false, false))
    else
      let entry_timestamp :=
        default timestamp (entry_timestamp entry_data) in
      match games st !! app_id with
      | Some result =>
        let first_seen := first_seen result in
        let last_seen := last_seen result in
        let? older :=
          Py.and_ (Py.truth entry_timestamp)
                  (Py.lt entry_timestamp first_seen) in
        let first_seen := if older then entry_timestamp else first_seen in
        let? newer :=
          Py.and_ (Py.truth entry_timestamp)
                  (Py.gt entry_timestamp last_seen) in
        let last_seen := if newer then entry_timestamp else last_seen in
        let? _ := Sqlite.bind [first_seen; last_seen] in
        let row := mkGame (Extractor.title result) first_seen last_seen
                          (report_count result + 1) in
        inr (add_processed app_id (execute_write app_id row st),
             (false, true))
      | None =>
        let? _ := Sqlite.bind [entry_timestamp; entry_timestamp; Some 1] in
        let row := mkGame title entry_timestamp entry_timestamp 1 in
        inr (add_processed app_id (execute_write app_id row st),
             (true, false))
      end
  | _, _ => inr (st, (false, false))
  end.

(** A computation of the extractor: it reads and writes the state and sends
    records to the logger. *)
Definition M (A : Type) : Type := State → A * State * list LogRecord.

Definition ret {A : Type} (a : A) : M A := fun st => (a, st, []).

Definition bind {A B : Type} (c : M A) (k : A → M B) : M B :=
  fun st =>
    let '(a, st1, log1) := c st in
    let '(b, st2, log2) := k a st1 in
    (b, st2, log1 ++ log2).

Definition tell (r : LogRecord) : M unit := fun st => (tt, st, [r]).

(** A computation that only logs. *)
Definition logging {A : Type} (c : A * list LogRecord) : M A :=
  fun st => (c.1, st, c.2).

Definition update_stats (f : Stats → Stats) : M unit :=
  fun st => (tt, mkState (games st) (processed_games st) (f (stats st)), []).

#[global] Instance M_ret : MRet M := @ret.
#[global] Instance M_bind : MBind M := fun A B k c => bind c k.

(** [process_json_entry]: an exception is logged and turned into
    [(False, False)]; nothing was written before it was raised, since each
    branch of the [try] block runs one writing statement, its last. *)
Definition process_json_entry (entry_data : Entry) (timestamp : option Z)
    : M (bool * bool) :=
  fun st =>
    match process_json_entry_try st entry_data timestamp with
    | inr (st', r) => (r, st', [])
    | inl e => ((false, false), st, [ErrorProcessingEntry e])
    end.

(** *** Timestamp inference *)

(** The block of [process_archive] and of [process_json_file] that sets
    [archive_timestamp], respectively [file_timestamp], from the file name,
    with the warnings it logs; [ext] is the literal that ends the pattern,
    [now] is [int(time.time())] and [utcoffset] the local time zone. *)
Definition filename_timestamp (utcoffset : Z → Z) (ext : string) (now : Z)
    (filename : string) : option Z * list LogRecord :=
  match Text.re_match ext filename with
  | Some (month_name, _, year) =>
    match Text.lookup_month month_name Text.month_map with
    | Some month_num =>
      match Datetime.new (Text.int year) month_num 15 with
      | inr dt => (Some (Datetime.timestamp utcoffset dt), [])
      | inl e => (None, [CouldNotExtractTimestamp filename e])
      end
    | None => (None, [UnknownMonthName month_name])
    end
  | None =>
    if Text.contains "piiremoved" filename then (Some now, [])
    else (None, [FilenameDoesNotMatch filename])
  end.

Definition archive_timestamp (utcoffset : Z → Z) :=
  filename_timestamp utcoffset ".tar.gz".

Definition file_timestamp (utcoffset : Z → Z) :=
  filename_timestamp utcoffset ".json".

(** *** The walker *)

(** The value [json.load] returns: a list of entries or a single entry. *)
Inductive Json : Type :=
| JList (data : list Entry)
| JObject (data : Entry).

(** Opening and loading one payload file: [open] raises [OSError],
    [json.load] raises [JSONDecodeError], or the data comes back. *)
Inductive Loaded : Type :=
| Unreadable
| Malformed
| Data (data : Json).

(** A payload file found in the extracted tree of an archive. *)
Record Member : Type := mkMember {
  json_file : string;
  member_content : Loaded
}.

(** An archive of the directory: its name, the clock when it is processed
    and its members; [None] when [tarfile.open] or [extractall] raises. *)
Record Archive : Type := mkArchive {
  archive_name : string;
  archive_now : Z;
  archive_members : option (list Member)
}.

(** A loose JSON file of the directory. *)
Record JsonFile : Type := mkJsonFile {
  json_name : string;
  json_now : Z;
  json_content : Loaded
}.

(** The local counters [(entries_processed, games_added, games_updated)]. *)
Definition Counts : Type := Z * Z * Z.

(** The body of the loops over entries. *)
Definition count_entry (timestamp : option Z) (counts : Counts)
    (entry : Entry) : M Counts :=
  let '(entries_processed, games_added, games_updated) := counts in
  r ← process_json_entry entry timestamp;
  let '(is_new, is_updated) := (r : bool * bool) in
  mret (entries_processed + 1,
        if is_new then games_added + 1 else games_added,
        if is_new then games_updated
        else if is_updated then games_updated + 1 else games_updated).

Fixpoint for_entries (timestamp : option Z) (counts : Counts)
    (data : list Entry) : M Counts :=
  match data with
  | [] => mret counts
  | entry :: data' =>
    counts' ← count_entry timestamp counts entry;
    for_entries timestamp counts' data'
  end.

(** [isinstance(data, list)] and its two branches. *)
Definition process_data (timestamp : option Z) (counts : Counts)
    (data : Json) : M Counts :=
  match data with
  | JList data => for_entries timestamp counts data
  | JObject data => count_entry timestamp counts data
  end.

(** The body of the loop of [process_archive] over the JSON files. *)
Definition process_member (timestamp : option Z) (counts : Counts)
    (m : Member) : M Counts :=
  match member_content m with
  | Data data => process_data timestamp counts data
  | Malformed => tell (InvalidJSON (json_file m));; mret counts
  | Unreadable =>
    tell (ErrorProcessingFile (json_file m) Py.OSError);; mret counts
  end.

Fixpoint for_members (timestamp : option Z) (counts : Counts)
    (json_files : list Member) : M Counts :=
  match json_files with
  | [] => mret counts
  | m :: json_files' =>
    counts' ← process_member timestamp counts m;
    for_members timestamp counts' json_files'
  end.

Definition add_counts (counts : Counts) (s : Stats) : Stats :=
  let '(entries_processed, games_added, games_updated) := counts in
  mkStats (total_archives s) (total_json_files s)
          (total_entries_processed s + entries_processed)
          (total_games_added s + games_added)
          (total_games_updated s + games_updated)
          (processed_archives s) (processed_json_files s).

Definition archive_done (s : Stats) : Stats :=
  mkStats (total_archives s) (total_json_files s)
          (total_entries_processed s) (total_games_added s)
          (total_games_updated s)
          (processed_archives s + 1) (processed_json_files s).

Definition json_file_done (s : Stats) : Stats :=
  mkStats (total_archives s) (total_json_files s)
          (total_entries_processed s) (total_games_added s)
          (total_games_updated s)
          (processed_archives s) (processed_json_files s + 1).

Definition process_archive (utcoffset : Z → Z) (a : Archive) : M Counts :=
  archive_timestamp ←
    logging (archive_timestamp utcoffset (archive_now a) (archive_name a));
  match archive_members a with
  | Some json_files =>
    counts ← for_members archive_timestamp (0, 0, 0) json_files;
    update_stats (add_counts counts);;
    update_stats archive_done;;
    mret counts
  | None =>
    tell (ErrorProcessingArchive (archive_name a) Py.TarError);;
    mret (0, 0, 0)
  end.

Definition process_json_file (utcoffset : Z → Z) (f : JsonFile) : M Counts :=
  file_timestamp ←
    logging (file_timestamp utcoffset (json_now f) (json_name f));
  match json_content f with
  | Data data =>
    counts ← process_data file_timestamp (0, 0, 0) data;
    update_stats (add_counts counts);;
    update_stats json_file_done;;
    mret counts
  | Malformed =>
    tell (ErrorProcessingJSONFile (json_name f) Py.JSONDecodeError);;
    mret (0, 0, 0)
  | Unreadable =>
    tell (ErrorProcessingJSONFile (json_name f) Py.OSError);;
    mret (0, 0, 0)
  end.

Definition get_archive_files (archives : list Archive) : M unit :=
  update_stats (fun s =>
    mkStats (Z.of_nat (length archives)) (total_json_files s)
            (total_entries_processed s) (total_games_added s)
            (total_games_updated s) 0 (processed_json_files s)).

Definition get_json_files (json_files : list JsonFile) : M unit :=
  update_stats (fun s =>
    mkStats (total_archives s) (Z.of_nat (length json_files))
            (total_entries_processed s) (total_games_added s)
            (total_games_updated s) (processed_archives s) 0).

Fixpoint for_archives (utcoffset : Z → Z) (archives : list Archive)
    : M unit :=
  match archives with
  | [] => mret tt
  | a :: archives' =>
    process_archive utcoffset a;; for_archives utcoffset archives'
  end.

Fixpoint for_json_files (utcoffset : Z → Z) (json_files : list JsonFile)
    : M unit :=
  match json_files with
  | [] => mret tt
  | f :: json_files' =>
    process_json_file utcoffset f;; for_json_files utcoffset json_files'
  end.

(** [run], on the archives and the loose files of the directory in the
    order [sorted] gives them.  Creating the table when it is missing,
    printing the statistics and committing change nothing of the state. *)
Definition run (utcoffset : Z → Z) (archives : list Archive)
    (json_files : list JsonFile) : M unit :=
  get_archive_files archives;;
  get_json_files json_files;;
  for_archives utcoffset archives;;
  for_json_files utcoffset json_files.

(** The extractor of [__init__] on a database that holds the rows [db]. *)
Definition init (db : gmap string GameRecord) : State :=
  mkState db ∅ (mkStats 0 0 0 0 0 0 0).

(** *** Notions the properties of the reconciliation step are stated with *)

(** The entry [entry_data], read with the fallback [timestamp], passes the
    check on its essential data and carries [(app_id, title, ts)]. *)
Definition normalized (entry_data : Entry) (timestamp : option Z)
    (app_id title : string) (ts : option Z) : Prop :=
  entry_appId entry_data = Some app_id ∧ app_id ≠ EmptyString ∧
  entry_title entry_data = Some title ∧ title ≠ EmptyString ∧
  ts = default timestamp (entry_timestamp entry_data).

(** The bounds as the specification words them: [null] is no constraint. *)
Definition spec_min (bound ts : option Z) : option Z :=
  match bound, ts with
  | Some b, Some t => Some (Z.min b t)
  | None, Some t => Some t
  | _, None => bound
  end.

Definition spec_max (bound ts : option Z) : option Z :=
  match bound, ts with
  | Some b, Some t => Some (Z.max b t)
  | None, Some t => Some t
  | _, None => bound
  end.

(** The update of a present row as the specification words it. *)
Definition spec_update (row : GameRecord) (ts : option Z) : GameRecord :=
  mkGame (title row) (spec_min (first_seen row) ts)
         (spec_max (last_seen row) ts) (report_count row + 1).

(** The bounds an update leaves for the bounds [f] and [l]: a timestamp that
    is [null] or 0 moves neither. *)
Definition widen_lo (ts : option Z) (f : Z) : Z :=
  match ts with
  | Some t => if t =? 0 then f else Z.min f t
  | None => f
  end.

Definition widen_hi (ts : option Z) (l : Z) : Z :=
  match ts with
  | Some t => if t =? 0 then l else Z.max l t
  | None => l
  end.

(** The bounds of the row are ones SQLite holds. *)
Definition stored (row : GameRecord) : Prop :=
  Sqlite.storable (first_seen row) = true ∧
  Sqlite.storable (last_seen row) = true.

(** The invariant of a row and of the table. *)
Definition row_ok (row : GameRecord) : Prop :=
  (∀ f l, first_seen row = Some f → last_seen row = Some l → f ≤ l) ∧
  1 ≤ report_count row.

Definition store_ok (st : State) : Prop :=
  ∀ app_id row, games st !! app_id = Some row → row_ok row.

(** The state after one reconciliation step. *)
Definition step (st : State) (obs : Entry * option Z) : State :=
  (process_json_entry obs.1 obs.2 st).1.2.

(** *** Notions the properties of the walker are stated with *)

(** The state [st] with other totals of archives and of loose files. *)
Definition retotal (archives json_files : Z) (st : State) : State :=
  mkState (games st) (processed_games st)
          (mkStats archives json_files
                   (total_entries_processed (stats st))
                   (total_games_added (stats st))
                   (total_games_updated (stats st))
                   (processed_archives (stats st))
                   (processed_json_files (stats st))).

(** A computation that neither reads nor writes the two totals. *)
Definition respects {A : Type} (c : M A) : Prop :=
  ∀ ka kj st,
    c (retotal ka kj st) =
    let '(a, st', log) := c st in (a, retotal ka kj st', log).

(** The computation [c] keeps the property [P] of the table. *)
Definition keeps (P : gmap string GameRecord → Prop) {A : Type} (c : M A)
    : Prop :=
  ∀ st, P (games st) → P (games (c st).1.2).

(** The log [log] is the log [log'] with the records [extra] put in. *)
Definition inserted (extra log' log : list LogRecord) : Prop :=
  ∃ l1 l2, log' = l1 ++ l2 ∧ log = l1 ++ extra ++ l2.

(** The states the reconciliation steps reach from an empty table. *)
Inductive reachable : State → Prop :=
| reachable_init : reachable (init ∅)
| reachable_step st obs : reachable st → reachable (step st obs).

(** The observations a payload file holds, each with the fallback timestamp
    of its file: the entries of a list in their order, a single object, none
    when the file does not load. *)
Definition observations_of (timestamp : option Z) (content : Loaded)
    : list (Entry * option Z) :=
  match content with
  | Data (JList data) => (fun entry => (entry, timestamp)) <$> data
  | Data (JObject entry) => [(entry, timestamp)]
  | Malformed | Unreadable => []
  end.

(** The observations of the members of an archive that opens, in the order
    of the members, with the timestamp of the archive's name. *)
Definition archive_observations (utcoffset : Z → Z) (a : Archive)
    : list (Entry * option Z) :=
  match archive_members a with
  | Some json_files =>
    let timestamp :=
      (archive_timestamp utcoffset (archive_now a) (archive_name a)).1 in
    concat ((fun m => observations_of timestamp (member_content m))
              <$> json_files)
  | None => []
  end.

Definition file_observations (utcoffset : Z → Z) (f : JsonFile)
    : list (Entry * option Z) :=
  observations_of (file_timestamp utcoffset (json_now f) (json_name f)).1
                  (json_content f).

(** The observations of a directory: those of the archives, then those of
    the loose files. *)
Definition observations (utcoffset : Z → Z) (archives : list Archive)
    (json_files : list JsonFile) : list (Entry * option Z) :=
  concat (archive_observations utcoffset <$> archives) ++
  concat (file_observations utcoffset <$> json_files).

(** The two states hold the same table and the same set of processed
    games. *)
Definition same_table (st1 st2 : State) : Prop :=
  games st1 = games st2 ∧ processed_games st1 = processed_games st2.

(** The computation [c] does to the table what the reconciliation steps on
    the observations [obs] do, one after the other. *)
Definition plays {A : Type} (obs : list (Entry * option Z)) (c : M A) : Prop :=
  ∀ st, same_table (c st).1.2 (foldl step st obs).

End Extractor.

(** ** create_steam_db.py *)

Module SteamDb.

(** One item of the fetched catalog list. *)
Record App : Type := mkApp { appid : Z; name : string }.

#[global] Instance App_eq_dec : EqDecision App.
Proof. solve_decision. Defined.

(** One row of the [apps] table, keyed by [appid]; [last_updated] is filled
    by the column default with the clock of the write. *)
Record CatalogEntry : Type := mkRow { row_name : string; last_updated : Z }.

(** [collections.Counter(l)]. *)
Definition Counter `{Countable K} (l : list K) : gmap K Z :=
  foldl (fun c x => <[x := default 0 (c !! x) + 1]> c) ∅ l.

(** The loop that fills [app_id_to_names], a [defaultdict(set)]. *)
Definition app_id_to_names (apps : list App) : gmap Z (gset string) :=
  foldl (fun d app =>
           <[appid app := default ∅ (d !! appid app) ∪ {[name app]}]> d)
        ∅ apps.

Record Analysis : Type := mkAnalysis {
  duplicate_ids : gmap Z Z;
  exact_duplicates : gmap (Z * string) Z;
  different_names : gmap Z (gset string)
}.

Definition analyze_duplicates (apps : list App) : Analysis :=
  let app_id_counts := Counter (appid <$> apps) in
  let duplicate_ids := filter (fun kv => 1 < kv.2) app_id_counts in
  let app_id_name_pairs := (fun app => (appid app, name app)) <$> apps in
  let app_id_name_counts := Counter app_id_name_pairs in
  let exact_duplicates := filter (fun kv => 1 < kv.2) app_id_name_counts in
  let different_names :=
    filter (fun kv => 1 < Z.of_nat (size kv.2)) (app_id_to_names apps) in
  mkAnalysis duplicate_ids exact_duplicates different_names.

(** [check_database_state]: the [total_count]. *)
Definition check_database_state (db : gmap Z CatalogEntry) : Z :=
  Z.of_nat (size db).

(** The outcome of the GET request of [fetch_steam_apps]. *)
Inductive Response : Type :=
| RequestException
| AppList (apps : list App).

(** Lines printed by the importer; [Uncaught e] is the traceback of an
    exception that no handler catches and that ends [main]. *)
Inductive Output : Type :=
| RecordsBefore (total_count : Z)
| DatabaseReset
| ErrorFetching
| NoAppsFetched
| TotalFetched (n : Z)
| Duplicates (analysis : Analysis)
| DatabaseError
| InsertedUpdated (inserted_count : Z)
| TotalInDatabase (total_count : Z)
| ConnectionClosed
| Uncaught (e : Py.exn).

(** [cursor.executemany] with the [INSERT OR REPLACE]: the items are taken
    in the order of the list; for each, [appid] is bound and the statement
    runs.  [engine] is what the engine does with the batch: [None] when it
    runs every statement, [Some k] when it raises [sqlite3.Error] at the
    statement of index [k], the commit being the statement after the last
    item.  [inr] is the table as the open transaction has it after the last
    item. *)
Fixpoint executemany (now : Z) (engine : option nat)
    (db : gmap Z CatalogEntry) (app_data : list (Z * string))
    : Py.exn + gmap Z CatalogEntry :=
  match app_data with
  | [] => inr db
  | row :: app_data' =>
    let? _ := Sqlite.bind [Some row.1] in
    match engine with
    | Some O => inl Py.Sqlite3Error
    | _ =>
      executemany now (Nat.pred <$> engine) (<[row.1 := mkRow row.2 now]> db)
                  app_data'
    end
  end.

(** [populate_database]: the table, the returned count and what was printed.
    The handler catches [sqlite3.Error] only, from the batch or from the
    commit: it rolls the transaction back, which leaves the table as it was,
    prints the error and returns 0.  Any other exception leaves the function
    ([inl]) before the commit. *)
Definition populate_database (now : Z) (engine : option nat)
    (db : gmap Z CatalogEntry) (apps : list App)
    : Py.exn + (gmap Z CatalogEntry * Z * list Output) :=
  let app_data := (fun app => (appid app, name app)) <$> apps in
  match executemany now engine db app_data with
  | inr db' =>
    if decide (engine = Some (length app_data))
    then inr (db, 0, [DatabaseError])
    else inr (db', Z.of_nat (length app_data), [])
  | inl Py.Sqlite3Error => inr (db, 0, [DatabaseError])
  | inl e => inl e
  end.

(** [reset_database]: drop the table and create it again. *)
Definition reset_database (db : gmap Z CatalogEntry) : gmap Z CatalogEntry :=
  ∅.

Definition fetch_steam_apps (r : Response) : list App * list Output :=
  match r with
  | AppList apps => (apps, [])
  | RequestException => ([], [ErrorFetching])
  end.

(** [c.lower()] on code points below 256. *)
Definition lower_char (c : ascii) : ascii :=
  let n := Text.code c in
  if ((65 <=? n) && (n <=? 90))
     || ((192 <=? n) && (n <=? 222) && negb (n =? 215))
  then ascii_of_N (Z.to_N (n + 32)) else c.

Fixpoint lower (s : string) : string :=
  match s with
  | EmptyString => EmptyString
  | String c s' => String (lower_char c) (lower s')
  end.

(** [main]: [reset_choice] is the line [input] reads when it is called, [r]
    the outcome of the request and [engine] what the engine does with the
    batch; the result is the table when [main] ends and what it printed.  An
    exception that leaves [populate_database] leaves [main] too: the
    transaction of the batch is never committed, so the table is the one the
    batch started from. *)
Definition main (now : Z) (engine : option nat) (db : gmap Z CatalogEntry)
    (reset_choice : string) (r : Response)
    : gmap Z CatalogEntry * list Output :=
  let before_state := check_database_state db in
  let out0 := [RecordsBefore before_state] in
  let '(db, out1) :=
    if 0 <? before_state
    then if String.eqb (lower reset_choice) "y"
         then (reset_database db, [DatabaseReset])
         else (db, [])
    else (db, []) in
  let '(apps, out2) := fetch_steam_apps r in
  match apps with
  | [] => (db, out0 ++ out1 ++ out2 ++ [NoAppsFetched])
  | _ :: _ =>
    let duplicate_analysis := analyze_duplicates apps in
    let out3 := [TotalFetched (Z.of_nat (length apps));
                 Duplicates duplicate_analysis] in
    match populate_database now engine db apps with
    | inr (db', inserted_count, out4) =>
      let after_state := check_database_state db' in
      (db', out0 ++ out1 ++ out2 ++ out3 ++ out4 ++
            [InsertedUpdated inserted_count;
             TotalInDatabase after_state;
             ConnectionClosed])
    | inl e => (db, out0 ++ out1 ++ out2 ++ out3 ++ [Uncaught e])
    end
  end.

(** *** Notions the properties of the importer are stated with *)

(** How many times [x] occurs in [l]. *)
Fixpoint occurrences `{EqDecision K} (x : K) (l : list K) : Z :=
  match l with
  | [] => 0
  | y :: l' => (if decide (y = x) then 1 else 0) + occurrences x l'
  end.

(** The names the items of [apps] give to the id [i]. *)
Fixpoint names_of (i : Z) (apps : list App) : gset string :=
  match apps with
  | [] => ∅
  | app :: apps' =>
    (if decide (appid app = i) then {[name app]} else ∅) ∪ names_of i apps'
  end.

(** The table after the [INSERT OR REPLACE] of every item of [apps], in the
    order of the list, at the clock [now]. *)
Definition upserted (now : Z) (db : gmap Z CatalogEntry) (apps : list App)
    : gmap Z CatalogEntry :=
  foldl (fun db app => <[appid app := mkRow (name app) now]> db) db apps.

(** Every id of the list is one SQLite stores. *)
Definition ids_fit (apps : list App) : Prop :=
  Forall (fun app => Sqlite.fits (appid app) = true) apps.

(** The name of the last item of [apps] with the id [i]. *)
Fixpoint last_name (i : Z) (apps : list App) : option string :=
  match apps with
  | [] => None
  | app :: apps' =>
    match last_name i apps' with
    | Some nm => Some nm
    | None => if decide (appid app = i) then Some (name app) else None
    end
  end.

End SteamDb.

(** ** querries-db.py *)

Module Querier.

(** SQL aggregates over a column; [NULL]s are skipped and the aggregate of
    no value is [NULL]. *)
Definition sql_agg (op : Z → Z → Z) (col : list (option Z)) : option Z :=
  foldr (fun x acc =>
           match x, acc with
           | Some a, Some b => Some (op a b)
           | Some a, None => Some a
           | None, _ => acc
           end) None col.

Definition sql_max : list (option Z) → option Z := sql_agg Z.max.

Definition sql_min : list (option Z) → option Z := sql_agg Z.min.

Definition sql_sum (col : list (option Z)) : Z :=
  foldr (fun x acc => default 0 x + acc) 0 col.

Definition sql_count (col : list (option Z)) : Z :=
  Z.of_nat (length (filter (fun x => is_Some x) col)).

Section Float.

(** Python's floats: [fdiv s n] is the float SQLite's [AVG] gives for the sum
    [s] of [n] integers and [round2 x] is [round(x, 2)]. *)
Variable float : Type.
Variable fdiv : Z → Z → float.
Variable round2 : float → float.

Definition sql_avg (col : list (option Z)) : option float :=
  if sql_count col =? 0 then None
  else Some (fdiv (sql_sum col) (sql_count col)).

(** [round(x, 2)] for [x] a float or [None]. *)
Definition round (x : option float) : Py.exn + float :=
  match x with
  | Some x => inr (round2 x)
  | None => inl Py.TypeError
  end.

Record Stats : Type := mkStats {
  total_games : Z;
  max_reports : option Z;
  avg_reports : float;
  oldest_game_timestamp : option Z;
  newest_game_timestamp : option Z
}.

(** The rows of the [games] table. *)
Definition rows (db : gmap string Extractor.GameRecord)
    : list Extractor.GameRecord :=
  (map_to_list db).*2.

Definition get_database_stats (db : gmap string Extractor.GameRecord)
    : Py.exn + Stats :=
  let report_counts := (fun g => Some (Extractor.report_count g)) <$> rows db in
  let first_seens := Extractor.first_seen <$> rows db in
  let total_games := Z.of_nat (length (rows db)) in
  let max_reports := sql_max report_counts in
  let? avg_reports := round (sql_avg report_counts) in
  let min_max := (sql_min first_seens, sql_max first_seens) in
  inr (mkStats total_games max_reports avg_reports min_max.1 min_max.2).

End Float.

Arguments mkStats {float}.
Arguments total_games {float}.
Arguments max_reports {float}.
Arguments avg_reports {float}.
Arguments oldest_game_timestamp {float}.
Arguments newest_game_timestamp {float}.
Arguments get_database_stats {float}.

(** *** Notions the properties of the statistics are stated with *)

(** The sum of the report counts of a table. *)
Definition total_reports (db : gmap string Extractor.GameRecord) : Z :=
  map_fold (fun _ row acc => Extractor.report_count row + acc) 0 db.

(** [o] is the [first_seen] of the table that [R] prefers to all the others,
    [NULL]s apart, and [NULL] when every [first_seen] is [NULL]. *)
Definition extreme_first_seen (R : Z → Z → Prop)
    (db : gmap string Extractor.GameRecord) (o : option Z) : Prop :=
  match o with
  | Some v =>
    (∃ app_id row, db !! app_id = Some row ∧
                   Extractor.first_seen row = Some v) ∧
    ∀ app_id row w, db !! app_id = Some row →
                    Extractor.first_seen row = Some w → R v w
  | None =>
    ∀ app_id row, db !! app_id = Some row → Extractor.first_seen row = None
  end.

(** *** The other queries *)

(** [get_total_games_count]. *)
Definition get_total_games_count (db : gmap string Extractor.GameRecord) : Z :=
  Z.of_nat (size db).

(** [get_game_by_app_id]: the row, or [None]. *)
Definition get_game_by_app_id (db : gmap string Extractor.GameRecord)
    (app_id : string) : option Extractor.GameRecord :=
  db !! app_id.

(** SQLite's [LIKE] folds the case of the ASCII letters only. *)
Definition fold_case (c : ascii) : ascii :=
  let n := Text.code c in
  if (65 <=? n) && (n <=? 90) then ascii_of_N (Z.to_N (n + 32)) else c.

Fixpoint fold_cases (s : string) : string :=
  match s with
  | EmptyString => EmptyString
  | String c s' => String (fold_case c) (fold_cases s')
  end.

(** [text LIKE pattern], without [ESCAPE]: [%] stands for any run of
    characters, [_] for any one character, and every other character for
    itself, up to the case of ASCII letters. *)
Fixpoint like (pattern text : string) : bool :=
  match pattern with
  | EmptyString =>
    match text with
    | EmptyString => true
    | String _ _ => false
    end
  | String p pattern' =>
    if Ascii.eqb p "%" then
      (fix any (text : string) : bool :=
         like pattern' text ||
         match text with
         | EmptyString => false
         | String _ text' => any text'
         end) text
    else
      match text with
      | EmptyString => false
      | String c text' =>
        (Ascii.eqb p "_" || Ascii.eqb (fold_case p) (fold_case c))
        && like pattern' text'
      end
  end.

(** The engine's limit on the length of a [LIKE] pattern, in bytes. *)
Definition SQLITE_MAX_LIKE_PATTERN_LENGTH : Z := 50000.

(** The length in bytes of the UTF-8 encoding of a string of code points
    below 256. *)
Fixpoint utf8_length (s : string) : Z :=
  match s with
  | EmptyString => 0
  | String c s' => (if Text.code c <? 128 then 1 else 2) + utf8_length s'
  end.

(** The text the engine's [LIKE] reads from a value: it stops at the first
    NUL. *)
Fixpoint c_str (s : string) : string :=
  match s with
  | EmptyString => EmptyString
  | String c s' =>
    if Ascii.eqb c Ascii.zero then EmptyString else String c (c_str s')
  end.

(** [search_games_by_name]: the rows whose title is [LIKE] the pattern
    between two [%]; the order of the rows is not specified.  The engine
    evaluates [LIKE] on each row and refuses a pattern longer than its limit,
    so the query raises [sqlite3.OperationalError] when the pattern is too
    long and the table has a row. *)
Definition search_games_by_name (db : gmap string Extractor.GameRecord)
    (name_pattern : string) : Py.exn + gmap string Extractor.GameRecord :=
  let pattern := String "%" (name_pattern +:+ String "%" EmptyString) in
  if (SQLITE_MAX_LIKE_PATTERN_LENGTH <? utf8_length pattern)
     && negb (bool_decide (db = ∅))
  then inl Py.Sqlite3Error
  else inr (filter (fun kv =>
                      like (c_str pattern) (c_str (Extractor.title kv.2))
                      = true) db).

(** The order of SQL on a column: [NULL] comes before every value. *)
Definition sql_le (a b : option Z) : Prop :=
  match a, b with
  | None, _ => True
  | Some _, None => False
  | Some x, Some y => x ≤ y
  end.

#[global] Instance sql_le_dec a b : Decision (sql_le a b).
Proof. destruct a, b; simpl; apply _. Defined.

(** [ORDER BY key DESC]: a row comes before the rows whose key is not
    greater. *)
Definition desc (key : Extractor.GameRecord → option Z)
    (r1 r2 : string * Extractor.GameRecord) : Prop :=
  sql_le (key r2.2) (key r1.2).

#[global] Instance desc_dec key r1 r2 : Decision (desc key r1 r2).
Proof. unfold desc. apply _. Defined.

(** [SELECT * FROM games ORDER BY key DESC LIMIT ?] with [limit] bound; a
    negative limit is no limit.  The order among rows with equal keys is not
    specified by SQL; here it is the one a stable sort of the rows gives. *)
Definition top_by (key : Extractor.GameRecord → option Z) (limit : Z)
    (db : gmap string Extractor.GameRecord)
    : Py.exn + list (string * Extractor.GameRecord) :=
  let? _ := Sqlite.bind [Some limit] in
  let sorted := merge_sort (desc key) (map_to_list db) in
  inr (if limit <? 0 then sorted else take (Z.to_nat limit) sorted).

Definition get_most_reported_games (limit : Z) :=
  top_by (fun g => Some (Extractor.report_count g)) limit.

Definition get_recently_added_games (limit : Z) :=
  top_by Extractor.first_seen limit.

Definition get_recently_updated_games (limit : Z) :=
  top_by Extractor.last_seen limit.

(** *** Notions the properties of the queries are stated with *)

(** [sub] occurs in [text], up to the case of ASCII letters. *)
Definition contains_ci (sub text : string) : Prop :=
  ∃ pre mid post,
    text = pre +:+ mid +:+ post ∧ fold_cases mid = fold_cases sub.

(** No character of [s] is a wildcard of [LIKE] or NUL. *)
Fixpoint literal (s : string) : Prop :=
  match s with
  | EmptyString => True
  | String c s' =>
    c ≠ "%"%char ∧ c ≠ "_"%char ∧ c ≠ Ascii.zero ∧ literal s'
  end.

End Querier.

(** ** The accounts of a run *)

Module Accounting.

Import Extractor.

(** The sum of [f] over a list. *)
Definition sum_of {A : Type} (f : A → Z) (l : list A) : Z :=
  foldr (fun x n => f x + n) 0 l.

(** The entries a payload file holds: the length of a list, one for a
    single object, none when the file does not load. *)
Definition entries_of (content : Loaded) : Z :=
  match content with
  | Data (JList data) => Z.of_nat (length data)
  | Data (JObject _) => 1
  | Malformed | Unreadable => 0
  end.

(** The entries of the members of an archive that opens. *)
Definition archive_entries (a : Archive) : Z :=
  match archive_members a with
  | Some json_files => sum_of (fun m => entries_of (member_content m)) json_files
  | None => 0
  end.

(** 1 for an archive that opens, for a loose file that loads. *)
Definition opened (a : Archive) : Z :=
  match archive_members a with
  | Some _ => 1
  | None => 0
  end.

Definition loaded (f : JsonFile) : Z :=
  match json_content f with
  | Data _ => 1
  | Malformed | Unreadable => 0
  end.

(** What a loop over entries does, from the counters [c0] and the state
    [st] to its result [r]: it leaves the statistics, counts [n] entries,
    and its counts of games added and updated are the growth of the table
    and of the reports in it. *)
Definition tallies (n : Z) (c0 : Counts) (st : State)
    (r : Counts * State * list LogRecord) : Prop :=
  let '(c1, st1, _) := r in
  stats st1 = stats st ∧
  c1.1.1 = c0.1.1 + n ∧
  0 ≤ c1.1.2 - c0.1.2 ∧ 0 ≤ c1.2 - c0.2 ∧
  (c1.1.2 - c0.1.2) + (c1.2 - c0.2) ≤ n ∧
  Z.of_nat (size (games st1)) = Z.of_nat (size (games st)) + (c1.1.2 - c0.1.2) ∧
  Querier.total_reports (games st1) =
    Querier.total_reports (games st) + (c1.1.2 - c0.1.2) + (c1.2 - c0.2) ∧
  (processed_games st ⊆ dom (games st) →
   processed_games st1 ⊆ dom (games st1)).

(** The statistics of [st] account for a table that started as [db], after
    [na] archives opened, [nf] loose files loaded and [ne] entries read. *)
Definition accounted (db : gmap string GameRecord) (na nf ne : Z)
    (st : State) : Prop :=
  processed_archives (stats st) = na ∧
  processed_json_files (stats st) = nf ∧
  total_entries_processed (stats st) = ne ∧
  0 ≤ total_games_added (stats st) ∧ 0 ≤ total_games_updated (stats st) ∧
  total_games_added (stats st) + total_games_updated (stats st) ≤ ne ∧
  Z.of_nat (size (games st)) =
    Z.of_nat (size db) + total_games_added (stats st) ∧
  Querier.total_reports (games st) =
    Querier.total_reports db + total_games_added (stats st)
    + total_games_updated (stats st) ∧
  processed_games st ⊆ dom (games st).

End Accounting.

(** * Properties *)

(** ** The reconciliation step *)

Section Reconciliation.

Import Extractor.

Implicit Types (st : State) (entry_data : Entry) (row : GameRecord).
Implicit Types (timestamp ts : option Z) (app_id title : string).

Lemma eqb_false_of_ne (s : string) : s ≠ EmptyString → String.eqb s "" = false.
Proof. intros Hs. by apply String.eqb_neq. Qed.

(** What the [try] block does on an entry that passes the check, by cases on
    the lookup. *)
Lemma try_normalized st entry_data timestamp app_id title ts :
  normalized entry_data timestamp app_id title ts →
  process_json_entry_try st entry_data timestamp =
  match games st !! app_id with
  | Some result =>
    let? older := Py.and_ (Py.truth ts) (Py.lt ts (first_seen result)) in
    let? newer := Py.and_ (Py.truth ts) (Py.gt ts (last_seen result)) in
    let? _ := Sqlite.bind [if older then ts else first_seen result;
                           if newer then ts else last_seen result] in
    inr (add_processed app_id
           (execute_write app_id
              (mkGame (Extractor.title result)
                      (if older then ts else first_seen result)
                      (if newer then ts else last_seen result)
                      (report_count result + 1)) st),
         (false, true))
  | None =>
    let? _ := Sqlite.bind [ts; ts; Some 1] in
    inr (add_processed app_id
           (execute_write app_id (mkGame title ts ts 1) st),
         (true, false))
  end.
Proof.
  intros (Hid & Hid' & Ht & Ht' & ->).
  unfold process_json_entry_try. rewrite Hid, Ht.
  rewrite (eqb_false_of_ne _ Hid'), (eqb_false_of_ne _ Ht'). reflexivity.
Qed.

Lemma bind_insert ts :
  Sqlite.bind [ts; ts; Some 1] =
  if Sqlite.storable ts then inr tt else inl Py.OverflowError.
Proof. unfold Sqlite.bind; simpl. by destruct (Sqlite.storable ts). Qed.

(** The step on an [app_id] that has no row, with a timestamp SQLite
    stores. *)
Lemma process_absent st entry_data timestamp app_id title ts :
  normalized entry_data timestamp app_id title ts →
  games st !! app_id = None →
  Sqlite.storable ts = true →
  process_json_entry entry_data timestamp st =
  ((true, false),
   mkState (<[app_id := mkGame title ts ts 1]> (games st))
           ({[app_id]} ∪ processed_games st) (stats st),
   []).
Proof.
  intros Hn Hnone Hts. unfold process_json_entry.
  rewrite (try_normalized _ _ _ _ _ _ Hn), Hnone, bind_insert, Hts.
  reflexivity.
Qed.

(** The step on an [app_id] that has no row, with a timestamp SQLite does
    not store: the [INSERT] raises [OverflowError] when it binds it, the
    handler logs it, and the step leaves the state as it was and answers
    [(False, False)]. *)
Lemma process_absent_overflow st entry_data timestamp app_id title ts :
  normalized entry_data timestamp app_id title ts →
  games st !! app_id = None →
  Sqlite.storable ts = false →
  process_json_entry entry_data timestamp st =
  ((false, false), st, [ErrorProcessingEntry Py.OverflowError]).
Proof.
  intros Hn Hnone Hts. unfold process_json_entry.
  rewrite (try_normalized _ _ _ _ _ _ Hn), Hnone, bind_insert, Hts.
  reflexivity.
Qed.

(** C3, as the code has it.  An entry that passes the check and whose
    [app_id] has no row yet is inserted when its timestamp is [null] or an
    integer SQLite stores: the new row has the entry's title, [first_seen]
    and [last_seen] both equal to the entry's timestamp ([null] when it has
    none) and [report_count] 1; every other row is left as it was, and the
    step answers [(True, False)], that is, inserted.  When the timestamp is
    an integer outside the signed 64-bit range, the [INSERT] raises
    [OverflowError]: the error is logged, no row is written, and the step
    answers [(False, False)]. *)
Theorem insert_new_row st entry_data timestamp app_id title ts :
  normalized entry_data timestamp app_id title ts →
  games st !! app_id = None →
  (Sqlite.storable ts = true →
   process_json_entry entry_data timestamp st =
   ((true, false),
    mkState (<[app_id := mkGame title ts ts 1]> (games st))
            ({[app_id]} ∪ processed_games st) (stats st),
    [])) ∧
  (Sqlite.storable ts = false →
   process_json_entry entry_data timestamp st =
   ((false, false), st, [ErrorProcessingEntry Py.OverflowError])).
Proof.
  intros Hn Hnone. split.
  - by apply process_absent.
  - by apply (process_absent_overflow _ _ _ app_id title ts).
Qed.

Lemma insert_new_row_witness :
  normalized (mkEntry (Some "123") (Some "Foo") None) (Some 1581724800)
             "123" "Foo" (Some 1581724800) ∧
  games (init ∅) !! "123" = None ∧
  Sqlite.storable (Some 1581724800) = true ∧
  process_json_entry (mkEntry (Some "123") (Some "Foo") None)
                     (Some 1581724800) (init ∅) =
  ((true, false),
   mkState (<["123" := mkGame "Foo" (Some 1581724800) (Some 1581724800) 1]> ∅)
           ({["123"]} ∪ ∅) (mkStats 0 0 0 0 0 0 0),
   []).
Proof.
  assert (Hn : normalized (mkEntry (Some "123") (Some "Foo") None)
                 (Some 1581724800) "123" "Foo" (Some 1581724800)).
  { unfold normalized; simpl. repeat split; discriminate. }
  assert (Hnone : games (init ∅) !! "123" = None) by reflexivity.
  assert (Hts : Sqlite.storable (Some 1581724800) = true) by reflexivity.
  split; [exact Hn|]. split; [exact Hnone|]. split; [exact Hts|].
  exact (proj1 (insert_new_row (init ∅) _ _ "123" "Foo" _ Hn Hnone) Hts).
Defined.

(** C3 as worded fails on a timestamp SQLite does not store.  The entry with
    [appId] 1, the title T and the timestamp 2^63 passes the check and its
    [app_id] has no row in the empty table, and the step inserts nothing: the
    table stays empty and the answer is [(False, False)], not inserted. *)
Lemma insert_new_row_counterexample :
  let entry_data :=
    mkEntry (Some "1") (Some "T") (Some (Some 9223372036854775808)) in
  normalized entry_data None "1" "T" (Some 9223372036854775808) ∧
  games (init ∅) !! "1" = None ∧
  process_json_entry entry_data None (init ∅) =
    ((false, false), init ∅, [ErrorProcessingEntry Py.OverflowError]) ∧
  games (step (init ∅) (entry_data, None)) !! "1" = None.
Proof.
  intros entry_data. split; [|split; [|split]]; try reflexivity.
  unfold normalized; simpl. repeat split; discriminate.
Qed.

(** *** Updating a present row *)

(** A timestamp that is [null] or 0 is false in the two conditions: the
    bounds stay and the count goes up by one.  The bounds of the row, read
    from the table, are integers SQLite stores. *)
Lemma update_falsy_timestamp st entry_data timestamp app_id title ts row :
  normalized entry_data timestamp app_id title ts →
  games st !! app_id = Some row →
  stored row →
  Py.truth ts = false →
  process_json_entry entry_data timestamp st =
  ((false, true),
   mkState (<[app_id := mkGame (Extractor.title row) (first_seen row)
                               (last_seen row) (report_count row + 1)]>
              (games st))
           ({[app_id]} ∪ processed_games st) (stats st),
   []).
Proof.
  intros Hn Hrow [Hf Hl] Hts. unfold process_json_entry.
  rewrite (try_normalized _ _ _ _ _ _ Hn), Hrow, Hts. simpl.
  unfold Sqlite.bind; simpl. rewrite Hf, Hl. reflexivity.
Qed.

(** A timestamp other than 0 that SQLite stores, against two present
    bounds: the arithmetic minimum and maximum, and the count goes up by
    one. *)
Lemma update_present_bounds st entry_data timestamp app_id title t row f l :
  normalized entry_data timestamp app_id title (Some t) →
  games st !! app_id = Some row →
  t ≠ 0 → first_seen row = Some f → last_seen row = Some l →
  Sqlite.fits f = true → Sqlite.fits l = true → Sqlite.fits t = true →
  process_json_entry entry_data timestamp st =
  ((false, true),
   mkState (<[app_id := mkGame (Extractor.title row) (Some (Z.min f t))
                               (Some (Z.max l t)) (report_count row + 1)]>
              (games st))
           ({[app_id]} ∪ processed_games st) (stats st),
   []).
Proof.
  intros Hn Hrow Ht Hf Hl Hff Hfl Hft. unfold process_json_entry.
  rewrite (try_normalized _ _ _ _ _ _ Hn), Hrow, Hf, Hl. simpl.
  assert (Hz : (t =? 0) = false) by lia. rewrite Hz. simpl.
  assert (Hmin : (if t <? f then Some t else Some f) = Some (Z.min f t)).
  { destruct (Z.ltb_spec t f); f_equal; lia. }
  assert (Hmax : (if l <? t then Some t else Some l) = Some (Z.max l t)).
  { destruct (Z.ltb_spec l t); f_equal; lia. }
  rewrite Hmin, Hmax. unfold Sqlite.bind; simpl.
  assert (Sqlite.fits (Z.min f t) = true) as ->
    by (unfold Sqlite.fits in *; lia).
  assert (Sqlite.fits (Z.max l t) = true) as ->
    by (unfold Sqlite.fits in *; lia).
  reflexivity.
Qed.

(** A timestamp other than 0 that SQLite does not store, against two
    present bounds it stores: the timestamp lies outside the bounds, so the
    [UPDATE] is given it as a bound and raises [OverflowError] when it binds
    it; the step leaves the state as it was. *)
Lemma update_overflow st entry_data timestamp app_id title t row f l :
  normalized entry_data timestamp app_id title (Some t) →
  games st !! app_id = Some row →
  first_seen row = Some f → last_seen row = Some l →
  Sqlite.fits f = true → Sqlite.fits l = true → Sqlite.fits t = false →
  process_json_entry entry_data timestamp st =
  ((false, false), st, [ErrorProcessingEntry Py.OverflowError]).
Proof.
  intros Hn Hrow Hf Hl Hff Hfl Hft. unfold process_json_entry.
  rewrite (try_normalized _ _ _ _ _ _ Hn), Hrow, Hf, Hl. simpl.
  assert (Hz : (t =? 0) = false) by (unfold Sqlite.fits in *; lia).
  rewrite Hz. simpl. unfold Sqlite.bind; simpl.
  destruct (Z.ltb_spec t f), (Z.ltb_spec l t); simpl;
    rewrite ?Hft, ?Hff, ?Hfl; simpl; try reflexivity;
    unfold Sqlite.fits in *; lia.
Qed.

(** A timestamp other than 0 against a [null] bound: the comparison raises
    [TypeError], the handler logs it, and the step leaves the state as it was
    and answers [(False, False)]. *)
Lemma update_null_bound st entry_data timestamp app_id title t row :
  normalized entry_data timestamp app_id title (Some t) →
  games st !! app_id = Some row →
  t ≠ 0 → first_seen row = None ∨ last_seen row = None →
  process_json_entry entry_data timestamp st =
  ((false, false), st, [ErrorProcessingEntry Py.TypeError]).
Proof.
  intros Hn Hrow Ht Hnull. unfold process_json_entry.
  rewrite (try_normalized _ _ _ _ _ _ Hn), Hrow. simpl.
  assert (Hz : (t =? 0) = false) by lia. rewrite Hz. simpl.
  destruct (first_seen row) as [f|]; [|reflexivity].
  destruct Hnull as [?|Hl]; [discriminate|]. rewrite Hl. reflexivity.
Qed.

(** Where the step and the specification's wording agree on a present row,
    the bounds of the row and the timestamp being integers SQLite stores. *)
Lemma update_as_specified st entry_data timestamp app_id title ts row :
  normalized entry_data timestamp app_id title ts →
  games st !! app_id = Some row →
  stored row → Sqlite.storable ts = true →
  ts = None ∨
  (ts ≠ Some 0 ∧ is_Some (first_seen row) ∧ is_Some (last_seen row)) →
  games (step st (entry_data, timestamp)) !! app_id =
  Some (spec_update row ts).
Proof.
  intros Hn Hrow Hst Hts [-> | (Hz & [f Hf] & [l Hl])]; unfold step; simpl.
  - rewrite (update_falsy_timestamp _ _ _ _ _ _ _ Hn Hrow Hst eq_refl). simpl.
    rewrite lookup_insert_eq. unfold spec_update, spec_min, spec_max.
    by destruct (first_seen row), (last_seen row).
  - destruct ts as [t|].
    + assert (t ≠ 0) by congruence. destruct Hst as [Hsf Hsl].
      rewrite Hf in Hsf. rewrite Hl in Hsl.
      rewrite (update_present_bounds _ _ _ _ _ _ _ _ _ Hn Hrow H Hf Hl
                 Hsf Hsl Hts).
      simpl. rewrite lookup_insert_eq. unfold spec_update. by rewrite Hf, Hl.
    + rewrite (update_falsy_timestamp _ _ _ _ _ _ _ Hn Hrow Hst eq_refl). simpl.
      rewrite lookup_insert_eq. unfold spec_update. by rewrite Hf, Hl.
Qed.

(** *** What any step does to the table *)

(** A step writes at most one row: a new row that satisfies the invariant,
    or a present row, whose title it keeps and whose invariant it keeps. *)
Lemma step_games st obs :
  games (step st obs) = games st ∨
  ∃ app_id row',
    games (step st obs) = <[app_id := row']> (games st) ∧
    match games st !! app_id with
    | Some row =>
      Extractor.title row' = Extractor.title row ∧
      report_count row' = report_count row + 1 ∧
      (row_ok row → row_ok row')
    | None => row_ok row' ∧ entry_title obs.1 = Some (Extractor.title row')
    end.
Proof.
  destruct obs as [entry_data timestamp].
  unfold step, process_json_entry, process_json_entry_try; simpl.
  destruct (entry_appId entry_data) as [app_id|]; [|by left].
  destruct (entry_title entry_data) as [title|]; [|by left].
  destruct (String.eqb app_id "" || String.eqb title ""); [by left|].
  set (ts := default timestamp (entry_timestamp entry_data)).
  destruct (games st !! app_id) as [row|] eqn:Hrow.
  - destruct ts as [t|]; simpl.
    + destruct (Z.eqb_spec t 0) as [->|Ht]; simpl.
      * destruct (Sqlite.bind _) as [e|[]]; simpl; [by left|].
        right. exists app_id. eexists. split; [reflexivity|].
        rewrite Hrow. simpl. split; [done|]. split; [done|].
        intros [Hb Hc]. split; simpl; [done | lia].
      * destruct (first_seen row) as [f|] eqn:Hf; simpl; [|by left].
        destruct (last_seen row) as [l|] eqn:Hl; simpl; [|by left].
        destruct (Sqlite.bind _) as [e|[]]; simpl; [by left|].
        right. exists app_id. eexists. split; [reflexivity|].
        rewrite Hrow. simpl. split; [done|]. split; [done|].
        intros [Hb Hc]. split; simpl; [|lia].
        specialize (Hb f l Hf Hl). intros f' l' Hf' Hl'.
        destruct (Z.ltb_spec t f), (Z.ltb_spec l t); simplify_eq; lia.
    + destruct (Sqlite.bind _) as [e|[]]; simpl; [by left|].
      right. exists app_id. eexists. split; [reflexivity|].
      rewrite Hrow. simpl. split; [done|]. split; [done|].
      intros [Hb Hc]. split; simpl; [done | lia].
  - destruct (Sqlite.bind _) as [e|[]]; simpl; [by left|].
    right. exists app_id. eexists. split; [reflexivity|].
    rewrite Hrow. split; [|done]. split; simpl; [|lia].
    intros f l ? ?. simplify_eq. lia.
Qed.

(** A present row stays present with its title. *)
Lemma step_keeps_title st obs app_id row :
  games st !! app_id = Some row →
  ∃ row', games (step st obs) !! app_id = Some row' ∧
          Extractor.title row' = Extractor.title row.
Proof.
  intros Hrow. destruct (step_games st obs) as [->|(id & row' & -> & Hcase)].
  - by exists row.
  - destruct (decide (id = app_id)) as [->|Hne].
    + rewrite Hrow in Hcase. exists row'. rewrite lookup_insert_eq.
      by destruct Hcase.
    + exists row. by rewrite lookup_insert_ne.
Qed.

(** A step keeps the invariant of the table. *)
Lemma step_store_ok st obs : store_ok st → store_ok (step st obs).
Proof.
  intros Hok. unfold store_ok.
  destruct (step_games st obs) as [->|(id & row' & Hg & Hcase)]; [done|].
  intros app_id row. rewrite Hg.
  destruct (decide (id = app_id)) as [->|Hne].
  - rewrite lookup_insert_eq. intros [= <-].
    destruct (games st !! app_id) as [row0|] eqn:Hrow0.
    + destruct Hcase as (_ & _ & Hkeep). eauto.
    + by destruct Hcase.
  - rewrite lookup_insert_ne by done. apply Hok.
Qed.

Lemma steps_keep_title st (later : list (Entry * option Z)) app_id row :
  games st !! app_id = Some row →
  ∃ row', games (foldl step st later) !! app_id = Some row' ∧
          Extractor.title row' = Extractor.title row.
Proof.
  revert st row. induction later as [|obs later IH]; intros st row Hrow; simpl.
  - by exists row.
  - destruct (step_keeps_title st obs app_id row Hrow) as (row1 & Hrow1 & Ht1).
    destruct (IH _ _ Hrow1) as (row' & Hrow' & Ht'). exists row'.
    split; [done | congruence].
Qed.

(** C1, on two observations of the same [app_id] from the empty table.  The
    first carries no timestamp and comes from a file whose name gives none,
    so C3's insert leaves the row with [null] bounds and the count 1.  The
    second carries the timestamp 100: the specification's update gives the
    row the bounds 100 and 100 and the count 2, but the step raises
    [TypeError] in the comparison against the [null] bound, logs it, answers
    [(False, False)] and leaves the row, count included, as it was. *)
Theorem update_null_bound_drops_observation :
  let first := (mkEntry (Some "1") (Some "T") None, None) in
  let second := (mkEntry (Some "1") (Some "T") (Some (Some 100)), None) in
  let st := step (init ∅) first in
  let row := mkGame "T" None None 1 in
  reachable st ∧
  games st !! "1" = Some row ∧
  normalized second.1 second.2 "1" "T" (Some 100) ∧
  spec_update row (Some 100) = mkGame "T" (Some 100) (Some 100) 2 ∧
  process_json_entry second.1 second.2 st =
    ((false, false), st, [ErrorProcessingEntry Py.TypeError]) ∧
  games (step st second) !! "1" = Some row.
Proof.
  intros first second st row.
  assert (Hn1 : normalized first.1 first.2 "1" "T" None).
  { unfold normalized; simpl. repeat split; discriminate. }
  assert (Hn : normalized second.1 second.2 "1" "T" (Some 100)).
  { unfold normalized; simpl. repeat split; discriminate. }
  assert (Hrow : games st !! "1" = Some row).
  { unfold st, step.
    rewrite (process_absent _ _ _ _ _ _ Hn1 (lookup_empty _) eq_refl). simpl.
    apply lookup_insert_eq. }
  assert (Hstep : process_json_entry second.1 second.2 st =
                  ((false, false), st, [ErrorProcessingEntry Py.TypeError])).
  { apply (update_null_bound st _ _ "1" "T" 100 row Hn Hrow); [lia | by left]. }
  split; [apply reachable_step, reachable_init|].
  split; [exact Hrow|]. split; [exact Hn|]. split; [reflexivity|].
  split; [exact Hstep|].
  unfold step at 1. rewrite Hstep. exact Hrow.
Qed.

(** The timestamp 0 is false in the two conditions, so it moves no bound:
    against the bounds 5 and 5 the row keeps them, where the minimum is 0. *)
Example update_timestamp_zero :
  let row := mkGame "T" (Some 5) (Some 5) 1 in
  let st := init {["1" := row]} in
  let entry_data := mkEntry (Some "1") (Some "T") (Some (Some 0)) in
  games (step st (entry_data, None)) !! "1" =
    Some (mkGame "T" (Some 5) (Some 5) 2) ∧
  spec_update row (Some 0) = mkGame "T" (Some 0) (Some 5) 2.
Proof.
  intros row st entry_data. split; [|reflexivity].
  assert (Hn : normalized entry_data None "1" "T" (Some 0)).
  { unfold normalized; simpl. repeat split; discriminate. }
  assert (Hrow : games st !! "1" = Some row) by apply lookup_singleton_eq.
  assert (Hst : stored row) by (by split).
  unfold step; simpl.
  rewrite (update_falsy_timestamp _ _ _ _ _ _ _ Hn Hrow Hst eq_refl). simpl.
  by rewrite lookup_insert_eq.
Qed.

(** C4, as the code has it.  The title of a row is never rewritten: a row
    that is present keeps its title through any sequence of later steps,
    whatever titles their entries carry.  The title is that of the
    observation that inserted the row: when the first observation of an
    [app_id] carries a timestamp that is [null] or an integer SQLite stores,
    it inserts the row, and the row's title after any sequence of later
    steps is the title of that first observation; when its timestamp is an
    integer outside the signed 64-bit range, it inserts nothing and leaves
    the state as it was, so the title it carries is not stored. *)
Theorem title_never_rewritten st app_id (later : list (Entry * option Z)) :
  (∀ row, games st !! app_id = Some row →
     ∃ row', games (foldl step st later) !! app_id = Some row' ∧
             Extractor.title row' = Extractor.title row) ∧
  (∀ entry_data timestamp title ts,
     normalized entry_data timestamp app_id title ts →
     games st !! app_id = None →
     Sqlite.storable ts = true →
     ∃ row', games (foldl step (step st (entry_data, timestamp)) later)
               !! app_id = Some row' ∧
             Extractor.title row' = title) ∧
  (∀ entry_data timestamp title ts,
     normalized entry_data timestamp app_id title ts →
     games st !! app_id = None →
     Sqlite.storable ts = false →
     step st (entry_data, timestamp) = st).
Proof.
  split; [|split].
  - intros row. apply steps_keep_title.
  - intros entry_data timestamp title ts Hn Hnone Hts.
    apply (steps_keep_title _ later app_id (mkGame title ts ts 1)).
    unfold step; simpl.
    rewrite (process_absent _ _ _ _ _ _ Hn Hnone Hts). simpl.
    apply lookup_insert_eq.
  - intros entry_data timestamp title ts Hn Hnone Hts. unfold step; simpl.
    by rewrite (process_absent_overflow _ _ _ _ _ _ Hn Hnone Hts).
Qed.

Lemma title_never_rewritten_witness :
  normalized (mkEntry (Some "123") (Some "Foo") None) (Some 7)
             "123" "Foo" (Some 7) ∧
  games (init ∅) !! "123" = None ∧
  Sqlite.storable (Some 7) = true ∧
  ∃ row',
    games (foldl step
             (step (init ∅) (mkEntry (Some "123") (Some "Foo") None, Some 7))
             [(mkEntry (Some "123") (Some "Bar") (Some (Some 9)), None)])
      !! "123" = Some row' ∧
    Extractor.title row' = "Foo".
Proof.
  assert (Hn : normalized (mkEntry (Some "123") (Some "Foo") None) (Some 7)
                 "123" "Foo" (Some 7)).
  { unfold normalized; simpl. repeat split; discriminate. }
  assert (Hnone : games (init ∅) !! "123" = None) by reflexivity.
  assert (Hts : Sqlite.storable (Some 7) = true) by reflexivity.
  split; [exact Hn|]. split; [exact Hnone|]. split; [exact Hts|].
  exact (proj1 (proj2 (title_never_rewritten (init ∅) "123"
                  [(mkEntry (Some "123") (Some "Bar") (Some (Some 9)), None)]))
               _ _ _ _ Hn Hnone Hts).
Defined.

(** C4 as worded fails when the first observation of an [app_id] carries a
    timestamp SQLite does not store.  From the empty table, the first
    observation of the id 1 has the title A and the timestamp 2^63, the
    second the title B and the timestamp 5: after both, the row of the id
    has the title B of the second observation, which inserted it. *)
Lemma title_never_rewritten_counterexample :
  let first :=
    (mkEntry (Some "1") (Some "A") (Some (Some 9223372036854775808)), None) in
  let second := (mkEntry (Some "1") (Some "B") (Some (Some 5)), None) in
  normalized first.1 first.2 "1" "A" (Some 9223372036854775808) ∧
  normalized second.1 second.2 "1" "B" (Some 5) ∧
  games (init ∅) !! "1" = None ∧
  games (foldl step (step (init ∅) first) [second]) !! "1" =
    Some (mkGame "B" (Some 5) (Some 5) 1).
Proof.
  intros first second. split; [|split; [|split]]; try reflexivity.
  - unfold normalized; simpl. repeat split; discriminate.
  - unfold normalized; simpl. repeat split; discriminate.
Qed.

(** C5. Every row of every table the reconciliation steps reach from the
    empty table has [first_seen <= last_seen] when both are present and
    [report_count >= 1]; and every step, insert or update, keeps the two
    predicates on every row of a table that has them. *)
Theorem invariant_preserved :
  (∀ st, reachable st → store_ok st) ∧
  (∀ st obs, store_ok st → store_ok (step st obs)).
Proof.
  split; [|apply step_store_ok].
  induction 1 as [|st obs _ IH].
  - intros app_id row. unfold init; simpl. by rewrite lookup_empty.
  - by apply step_store_ok.
Qed.

Lemma invariant_preserved_witness :
  reachable (step (init ∅) (mkEntry (Some "123") (Some "Foo") None, Some 7)) ∧
  store_ok (step (init ∅) (mkEntry (Some "123") (Some "Foo") None, Some 7)).
Proof.
  assert (Hr : reachable
                 (step (init ∅)
                       (mkEntry (Some "123") (Some "Foo") None, Some 7))).
  { apply reachable_step, reachable_init. }
  split; [exact Hr|].
  exact (proj1 invariant_preserved _ Hr).
Defined.

End Reconciliation.

(** ** Timestamp inference *)

Section TimestampInference.

Import Text Extractor.

Local Open Scope string_scope.
Local Open Scope Z_scope.

Implicit Types (s p a b ext filename mon digits y rest : string).

Lemma app_cons c a b : String c a +:+ b = String c (a +:+ b).
Proof. reflexivity. Qed.

Lemma app_nil b : "" +:+ b = b.
Proof. reflexivity. Qed.

Lemma strip_prefix_app p s : strip_prefix p (p +:+ s) = Some s.
Proof.
  induction p as [|c p IH]; [by destruct s|].
  rewrite app_cons. simpl. by rewrite Ascii.eqb_refl.
Qed.

Lemma strip_prefix_Some p s s' : strip_prefix p s = Some s' → s = p +:+ s'.
Proof.
  revert s. induction p as [|c p IH]; intros s; simpl.
  - by intros [= ->].
  - destruct s as [|c' s]; [done|].
    destruct (Ascii.eqb_spec c c') as [->|]; [|done].
    intros H. rewrite app_cons. f_equal. by apply IH.
Qed.

(** [span] splits the string, and its first part is in the class. *)
Lemma span_Some (f : ascii → bool) s a b :
  span f s = (a, b) → s = a +:+ b ∧ all f a = true.
Proof.
  revert a b. induction s as [|c s IH]; intros a b; simpl.
  - by intros [= <- <-].
  - destruct (f c) eqn:Hc.
    + destruct (span f s) as [a' b'] eqn:Hs. intros [= <- <-].
      destruct (IH _ _ eq_refl) as [-> Ha']. rewrite app_cons. simpl.
      by rewrite Hc, Ha'.
    + by intros [= <- <-].
Qed.

Lemma span_stops (f : ascii → bool) s a b : span f s = (a, b) → stops f b.
Proof.
  revert a b. induction s as [|c s IH]; intros a b; simpl.
  - by intros [= <- <-].
  - destruct (f c) eqn:Hc.
    + destruct (span f s) as [a' b'] eqn:Hs. intros [= <- <-]. by eapply IH.
    + by intros [= <- <-].
Qed.

(** [span] takes the whole run: a first part in the class followed by a rest
    that starts outside it is what [span] answers. *)
Lemma span_app (f : ascii → bool) a b :
  all f a = true → stops f b → span f (a +:+ b) = (a, b).
Proof.
  intros Ha Hb. induction a as [|c a IH].
  - rewrite app_nil. destruct b as [|c b]; [done|]. simpl in *. by rewrite Hb.
  - simpl in Ha. apply andb_true_iff in Ha as [Hc Ha].
    rewrite app_cons. simpl. by rewrite Hc, (IH Ha).
Qed.

Lemma split_at_app a b : split_at (String.length a) (a +:+ b) = Some (a, b).
Proof.
  induction a as [|c a IH]; [by destruct b|].
  rewrite app_cons. simpl. by rewrite IH.
Qed.

Lemma split_at_Some n s a b :
  split_at n s = Some (a, b) → s = a +:+ b ∧ String.length a = n.
Proof.
  revert s a b. induction n as [|n IH]; intros s a b; simpl.
  - by intros [= <- <-].
  - destruct s as [|c s]; [done|].
    destruct (split_at n s) as [[a' b']|] eqn:Hs; [|done].
    intros [= <- <-]. destruct (IH _ _ _ Hs) as [-> <-]. by rewrite app_cons.
Qed.

Lemma digit_not_lower c : is_digit c = true → is_lower c = false.
Proof. unfold is_digit, is_lower. lia. Qed.

Lemma stops_lower_digits digits s :
  all is_digit digits = true → stops is_lower (digits +:+ String "_" s).
Proof.
  destruct digits as [|c d]; [done|]. rewrite app_cons. simpl.
  intros [Hc _]%andb_true_iff. by apply digit_not_lower.
Qed.

(** The matcher finds every match of the grammar, with its groups. *)
Lemma re_match_complete ext filename mon digits y :
  matches ext filename mon digits y →
  re_match ext filename = Some (mon, digits, y).
Proof.
  intros (rest & -> & Hne & Hmon & Hdig & Hy & Hlen). unfold re_match.
  rewrite strip_prefix_app.
  change ("_" +:+ y +:+ ext +:+ rest) with (String "_" (y +:+ ext +:+ rest)).
  rewrite (span_app is_lower mon _ Hmon (stops_lower_digits _ _ Hdig)).
  apply String.eqb_neq in Hne. rewrite Hne.
  rewrite (span_app is_digit digits (String "_" _) Hdig eq_refl).
  change (strip_prefix "_" (String "_" (y +:+ ext +:+ rest)))
    with (Some (y +:+ ext +:+ rest)).
  rewrite <- Hlen, split_at_app, Hy, strip_prefix_app. reflexivity.
Qed.

(** Every answer of the matcher is a match of the grammar. *)
Lemma re_match_sound ext filename mon digits y :
  re_match ext filename = Some (mon, digits, y) →
  matches ext filename mon digits y.
Proof.
  unfold re_match.
  destruct (strip_prefix "reports_" filename) as [s1|] eqn:H1; [|done].
  destruct (span is_lower s1) as [g1 s2] eqn:H2.
  destruct (String.eqb_spec g1 "") as [|Hne]; [done|].
  destruct (span is_digit s2) as [g2 s3] eqn:H3.
  destruct (strip_prefix "_" s3) as [s4|] eqn:H4; [|done].
  destruct (split_at 4 s4) as [[g3 s5]|] eqn:H5; [|done].
  destruct (all is_digit g3) eqn:H6; [|done].
  destruct (strip_prefix ext s5) as [rest|] eqn:H7; [|done].
  intros [= <- <- <-].
  apply strip_prefix_Some in H1, H4, H7.
  apply span_Some in H2 as [-> Hg1], H3 as [-> Hg2].
  apply split_at_Some in H5 as [-> Hlen].
  exists rest. subst. auto 10.
Qed.

(** The keys of [month_map] are lowercase words and its values months. *)
Lemma lookup_month_Some mon month_num :
  lookup_month mon month_map = Some month_num →
  mon ≠ "" ∧ all is_lower mon = true ∧ 1 ≤ month_num ≤ 12.
Proof.
  unfold month_map; simpl.
  repeat match goal with
         | |- context [String.eqb mon ?k] =>
           destruct (String.eqb_spec mon k) as [->|_];
           [intros [= <-]; repeat split; (done || lia)|]
         end.
  done.
Qed.

Lemma digit_code c : is_digit c = true → 0 ≤ code c - 48 ≤ 9.
Proof. unfold is_digit. lia. Qed.

(** Four digits are worth at most 9999. *)
Lemma int_four_digits y :
  all is_digit y = true → String.length y = 4%nat → 0 ≤ int y ≤ 9999.
Proof.
  destruct y as [|c1 [|c2 [|c3 [|c4 [|? ?]]]]]; try done. simpl.
  intros (H1 & (H2 & (H3 & (H4 & _)%andb_true_iff)%andb_true_iff)
             %andb_true_iff)%andb_true_iff _.
  apply digit_code in H1, H2, H3, H4. unfold int; simpl. lia.
Qed.

Lemma days_in_month_ge year month : 28 ≤ Datetime.days_in_month year month.
Proof.
  unfold Datetime.days_in_month.
  repeat match goal with |- context [if ?b then _ else _] => destruct b end;
    lia.
Qed.

(** The 15th of a month of [month_map] in a year from 1 to 9999 is a date. *)
Lemma new_mid_month year month_num :
  1 ≤ year ≤ 9999 → 1 ≤ month_num ≤ 12 →
  Datetime.new year month_num 15 =
  inr (Datetime.mkDatetime year month_num 15).
Proof.
  intros Hy Hm. unfold Datetime.new.
  pose proof (days_in_month_ge year month_num).
  assert ((1 <=? year) && (year <=? 9999) && (1 <=? month_num)
          && (month_num <=? 12) && (1 <=? 15)
          && (15 <=? Datetime.days_in_month year month_num) = true) as ->
    by lia.
  reflexivity.
Qed.

(** The year 0000 is below [MINYEAR]. *)
Lemma new_year_zero month_num :
  Datetime.new 0 month_num 15 = inl Py.ValueError.
Proof. reflexivity. Qed.

Section Inference.

Variable utcoffset : Z → Z.
Variables (ext : string) (now : Z).

Lemma timestamp_known_month filename mon digits y month_num :
  matches ext filename mon digits y →
  lookup_month mon month_map = Some month_num →
  1 ≤ int y →
  filename_timestamp utcoffset ext now filename =
  (Some (Datetime.timestamp utcoffset
           (Datetime.mkDatetime (int y) month_num 15)), []).
Proof.
  intros Hm Hmon Hy. unfold filename_timestamp.
  rewrite (re_match_complete _ _ _ _ _ Hm), Hmon.
  destruct Hm as (_ & _ & _ & _ & _ & Hdig & Hlen).
  pose proof (int_four_digits y Hdig Hlen).
  apply lookup_month_Some in Hmon as (_ & _ & Hk).
  rewrite new_mid_month by lia. reflexivity.
Qed.

Lemma timestamp_unknown filename mon digits y :
  matches ext filename mon digits y →
  lookup_month mon month_map = None ∨ int y = 0 →
  (filename_timestamp utcoffset ext now filename).1 = None.
Proof.
  intros Hm Hcase. unfold filename_timestamp.
  rewrite (re_match_complete _ _ _ _ _ Hm).
  destruct (lookup_month mon month_map) as [month_num|]; [|done].
  destruct Hcase as [? | ->]; [done|]. by rewrite new_year_zero.
Qed.

Lemma re_match_None filename :
  (∀ mon digits y, ¬ matches ext filename mon digits y) →
  re_match ext filename = None.
Proof.
  intros Hno. destruct (re_match ext filename) as [[[mon digits] y]|] eqn:Hm;
    [|done].
  by apply re_match_sound, Hno in Hm.
Qed.

End Inference.

(** C2, as the code has it.  For a file name that matches the pattern at its
    start with a month of [month_map] and a year from 0001 to 9999, the
    inferred timestamp is that of the 15th of that month of that year, read
    in local time.  For a name that does not match the pattern at all and
    contains [piiremoved], it is the clock.  For every other name it is
    unknown: a name that neither matches nor contains [piiremoved], and also
    a name that matches with a month part outside [month_map] or with the
    year 0000, whether or not it contains [piiremoved]. *)
Theorem timestamp_inference (utcoffset : Z → Z) ext (now : Z) filename :
  let r := (filename_timestamp utcoffset ext now filename).1 in
  (∀ mon digits y month_num,
     matches ext filename mon digits y →
     lookup_month mon month_map = Some month_num →
     1 ≤ int y →
     r = Some (Datetime.timestamp utcoffset
                 (Datetime.mkDatetime (int y) month_num 15))) ∧
  ((∀ mon digits y, ¬ matches ext filename mon digits y) →
   contains "piiremoved" filename = true → r = Some now) ∧
  ((∀ mon digits y, ¬ matches ext filename mon digits y) →
   contains "piiremoved" filename = false → r = None) ∧
  (∀ mon digits y,
     matches ext filename mon digits y →
     lookup_month mon month_map = None ∨ int y = 0 → r = None).
Proof.
  intros r. subst r. repeat split.
  - intros mon digits y month_num Hm Hmon Hy.
    by rewrite (timestamp_known_month utcoffset ext now _ _ _ _ _ Hm Hmon Hy).
  - intros Hno Hpii. unfold filename_timestamp.
    by rewrite (re_match_None ext _ Hno), Hpii.
  - intros Hno Hpii. unfold filename_timestamp.
    by rewrite (re_match_None ext _ Hno), Hpii.
  - intros mon digits y. apply timestamp_unknown.
Qed.

Lemma matches_feb_2020 :
  matches ".tar.gz" "reports_feb_2020.tar.gz" "feb" "" "2020".
Proof. exists "". by repeat split. Qed.

Lemma timestamp_inference_witness :
  matches ".tar.gz" "reports_feb_2020.tar.gz" "feb" "" "2020" ∧
  lookup_month "feb" month_map = Some 2 ∧
  1 ≤ int "2020" ∧
  (archive_timestamp (fun _ => 0) 0 "reports_feb_2020.tar.gz").1 =
  Some 1581724800.
Proof.
  assert (Hy : 1 ≤ int "2020") by (vm_compute; discriminate).
  split; [exact matches_feb_2020|]. split; [reflexivity|]. split; [exact Hy|].
  exact (proj1 (timestamp_inference (fun _ => 0) ".tar.gz" 0
                  "reports_feb_2020.tar.gz")
               "feb" "" "2020" 2 matches_feb_2020 eq_refl Hy).
Defined.

(** C2 as worded fails on two names.  [reports_jan_0000.tar.gz] matches the
    pattern with the month [jan], and its timestamp is unknown: the year 0000
    is not a year of [datetime].  [reports_piiremoved_2020.tar.gz] contains
    [piiremoved] and does not match the pattern with a month from [jan] to
    [dec], and its timestamp is unknown, not the clock: the pattern matches
    with the month part [piiremoved], so the [piiremoved] branch is not
    reached. *)
Lemma timestamp_inference_counterexample :
  (matches ".tar.gz" "reports_jan_0000.tar.gz" "jan" "" "0000" ∧
   lookup_month "jan" month_map = Some 1 ∧
   ∀ utcoffset now,
     (archive_timestamp utcoffset now "reports_jan_0000.tar.gz").1 = None) ∧
  (contains "piiremoved" "reports_piiremoved_2020.tar.gz" = true ∧
   (∀ mon digits y,
      matches ".tar.gz" "reports_piiremoved_2020.tar.gz" mon digits y →
      lookup_month mon month_map = None) ∧
   ∀ utcoffset now,
     (archive_timestamp utcoffset now "reports_piiremoved_2020.tar.gz").1
     = None).
Proof.
  split; [split; [|split]|split; [|split]].
  - exists "". by repeat split.
  - reflexivity.
  - reflexivity.
  - reflexivity.
  - intros mon digits y Hm. apply re_match_complete in Hm.
    vm_compute in Hm. by injection Hm as <- <- <-.
  - reflexivity.
Qed.

End TimestampInference.

(** ** The catalog importer *)

Section Catalog.

Import SteamDb.

Implicit Types (db : gmap Z CatalogEntry) (apps : list App) (now : Z).

(** *** The bulk upsert *)

Lemma last_name_app i apps app :
  last_name i (apps ++ [app]) =
  if decide (appid app = i) then Some (name app) else last_name i apps.
Proof.
  induction apps as [|a apps IH]; simpl.
  - by destruct (decide (appid app = i)).
  - rewrite IH. destruct (decide (appid app = i)); [done|].
    by destruct (last_name i apps).
Qed.

(** [last_name] is the name of the item after which the id does not occur. *)
Lemma last_name_last i apps1 app apps2 :
  appid app = i → i ∉ appid <$> apps2 →
  last_name i (apps1 ++ app :: apps2) = Some (name app).
Proof.
  intros Hi Hnot. induction apps1 as [|a apps1 IH]; simpl.
  - assert (last_name i apps2 = None) as ->.
    { clear -Hnot. induction apps2 as [|b apps2 IH]; [done|]. simpl.
      rewrite fmap_cons, not_elem_of_cons in Hnot. destruct Hnot as [Hb Hnot].
      rewrite (IH Hnot). by destruct (decide (appid b = i)). }
    by destruct (decide (appid app = i)).
  - by rewrite IH.
Qed.

Lemma upserted_app now db apps app :
  upserted now db (apps ++ [app]) =
  <[appid app := mkRow (name app) now]> (upserted now db apps).
Proof. unfold upserted. by rewrite foldl_app. Qed.

(** The row of [i] after the upsert: the name of the last item of the list
    with that id, or the row it had when the list has no such item. *)
Lemma upserted_lookup now db apps i :
  upserted now db apps !! i =
  match last_name i apps with
  | Some nm => Some (mkRow nm now)
  | None => db !! i
  end.
Proof.
  induction apps as [|app apps IH] using rev_ind; [done|].
  rewrite upserted_app, last_name_app. simpl.
  destruct (decide (appid app = i)) as [<-|Hne].
  - by rewrite lookup_insert_eq.
  - by rewrite lookup_insert_ne.
Qed.

Lemma bind_one z :
  Sqlite.bind [Some z] = if Sqlite.fits z then inr tt else inl Py.OverflowError.
Proof. unfold Sqlite.bind; simpl. by destruct (Sqlite.fits z). Qed.

(** A healthy engine, given ids it stores, runs the whole batch. *)
Lemma executemany_fits now db apps :
  ids_fit apps →
  executemany now None db ((fun app => (appid app, name app)) <$> apps) =
  inr (upserted now db apps).
Proof.
  revert db. induction apps as [|app apps IH]; intros db Hfit; [done|].
  apply Forall_cons in Hfit as [Happ Hfit].
  rewrite fmap_cons. cbn [executemany fst snd]. rewrite bind_one, Happ.
  simpl. by rewrite IH.
Qed.

(** An id SQLite does not store stops the batch with [OverflowError]. *)
Lemma executemany_overflow now db apps :
  ¬ ids_fit apps →
  executemany now None db ((fun app => (appid app, name app)) <$> apps) =
  inl Py.OverflowError.
Proof.
  revert db. induction apps as [|app apps IH]; intros db Hfit.
  - destruct Hfit. constructor.
  - rewrite fmap_cons. cbn [executemany fst snd]. rewrite bind_one.
    destruct (Sqlite.fits (appid app)) eqn:Happ; [|done]. simpl.
    apply IH. intros Hrest. apply Hfit. by constructor.
Qed.

(** An engine that fails at a statement it reaches stops the batch with
    [sqlite3.Error]. *)
Lemma executemany_fails now k db apps :
  (k < length apps)%nat → ids_fit (take (S k) apps) →
  executemany now (Some k) db ((fun app => (appid app, name app)) <$> apps) =
  inl Py.Sqlite3Error.
Proof.
  revert k db. induction apps as [|app apps IH]; intros k db Hk Hfit.
  - simpl in Hk. lia.
  - rewrite firstn_cons in Hfit. apply Forall_cons in Hfit as [Happ Hfit].
    rewrite fmap_cons. cbn [executemany fst snd]. rewrite bind_one, Happ.
    simpl. destruct k as [|k]; [done|]. simpl in Hk.
    apply IH; [lia | done].
Qed.

(** An engine that fails after the batch lets the batch run. *)
Lemma executemany_beyond now k db apps :
  (length apps ≤ k)%nat → ids_fit apps →
  executemany now (Some k) db ((fun app => (appid app, name app)) <$> apps) =
  inr (upserted now db apps).
Proof.
  revert k db. induction apps as [|app apps IH]; intros k db Hk Hfit; [done|].
  apply Forall_cons in Hfit as [Happ Hfit].
  rewrite fmap_cons. cbn [executemany fst snd]. rewrite bind_one, Happ.
  simpl in Hk. destruct k as [|k]; [lia|]. simpl.
  apply (IH k); [lia | done].
Qed.

Lemma populate_database_fits now db apps :
  ids_fit apps →
  populate_database now None db apps =
  inr (upserted now db apps, Z.of_nat (length apps), []).
Proof.
  intros Hfit. unfold populate_database.
  by rewrite (executemany_fits _ _ _ Hfit), length_fmap.
Qed.

Lemma populate_database_overflow now db apps :
  ¬ ids_fit apps → populate_database now None db apps = inl Py.OverflowError.
Proof.
  intros Hfit. unfold populate_database.
  by rewrite (executemany_overflow _ _ _ Hfit).
Qed.

Lemma last_name_None i apps : i ∉ appid <$> apps → last_name i apps = None.
Proof.
  induction apps as [|b apps IH]; [done|].
  rewrite fmap_cons, not_elem_of_cons. intros [Hb Hnot]. simpl.
  rewrite (IH Hnot). by destruct (decide (appid b = i)).
Qed.

(** C8, as the code has it.  When every id of the list is an integer SQLite
    stores and the engine runs the batch, the upsert replaces on a conflict
    of the key, item after item: after it, the id of every item of the list
    has the name of the last item of the list with that id; the rows of the
    ids the list does not mention are as they were, and the count returned
    is the length of the list.  When an id of the list is outside the signed
    64-bit range, [executemany] raises [OverflowError], which the handler
    does not catch: the function returns nothing and nothing is committed.
    When the engine raises [sqlite3.Error] at a statement of the batch or
    at the commit, the handler rolls back, prints the error and returns 0,
    and the table is as it was. *)
Theorem upsert_last_entry_wins now db apps :
  (ids_fit apps →
   ∃ after,
     populate_database now None db apps =
       inr (after, Z.of_nat (length apps), []) ∧
     (∀ apps1 app apps2,
        apps = apps1 ++ app :: apps2 → appid app ∉ appid <$> apps2 →
        row_name <$> after !! appid app = Some (name app)) ∧
     (∀ i, i ∉ appid <$> apps → after !! i = db !! i)) ∧
  (¬ ids_fit apps →
   populate_database now None db apps = inl Py.OverflowError) ∧
  (∀ k, (k ≤ length apps)%nat → ids_fit (take (S k) apps) →
        populate_database now (Some k) db apps =
        inr (db, 0, [DatabaseError])).
Proof.
  split; [|split].
  - intros Hfit. exists (upserted now db apps).
    split; [by apply populate_database_fits|]. split.
    + intros apps1 app apps2 -> Hlast.
      by rewrite upserted_lookup, (last_name_last _ _ _ _ eq_refl Hlast).
    + intros i Hi. by rewrite upserted_lookup, (last_name_None _ _ Hi).
  - apply populate_database_overflow.
  - intros k Hk Hfit. unfold populate_database.
    destruct (decide (k = length apps)) as [->|Hlt].
    + rewrite take_ge in Hfit by lia.
      rewrite (executemany_beyond _ _ _ _ (Nat.le_refl _) Hfit), length_fmap.
      by rewrite decide_True.
    + assert (Hk' : (k < length apps)%nat) by lia.
      by rewrite (executemany_fails _ _ _ _ Hk' Hfit).
Qed.

Lemma upsert_last_entry_wins_witness :
  ids_fit [mkApp 10 "A"; mkApp 20 "C"; mkApp 10 "B"] ∧
  ∃ after,
    populate_database 0 None {[10 := mkRow "old" 0]}
      [mkApp 10 "A"; mkApp 20 "C"; mkApp 10 "B"] =
      inr (after, 3, []) ∧
    row_name <$> after !! 10 = Some "B".
Proof.
  assert (Hfit : ids_fit [mkApp 10 "A"; mkApp 20 "C"; mkApp 10 "B"])
    by (repeat constructor).
  assert (Hnot : 10 ∉ appid <$> []) by apply not_elem_of_nil.
  split; [exact Hfit|].
  destruct (proj1 (upsert_last_entry_wins 0 {[10 := mkRow "old" 0]}
                     [mkApp 10 "A"; mkApp 20 "C"; mkApp 10 "B"]) Hfit)
    as (after & Heq & Hlast & _).
  exists after. split; [exact Heq|].
  exact (Hlast [mkApp 10 "A"; mkApp 20 "C"] (mkApp 10 "B") [] eq_refl Hnot).
Defined.

(** C8 as worded fails on a list with an id SQLite does not store.  For the
    list of id 10 with the name A and id 2^63 with the name B, the upsert
    raises [OverflowError] and returns nothing, and after the import that
    [main] runs on an empty table the id 10 has no row, where the claim
    gives it the name A. *)
Lemma upsert_last_entry_wins_counterexample :
  let apps := [mkApp 10 "A"; mkApp 9223372036854775808 "B"] in
  populate_database 0 None ∅ apps = inl Py.OverflowError ∧
  main 0 None ∅ "n" (AppList apps) =
    (∅, [RecordsBefore 0; TotalFetched 2;
         Duplicates (analyze_duplicates apps);
         Uncaught Py.OverflowError]) ∧
  (main 0 None ∅ "n" (AppList apps)).1 !! 10 = None.
Proof. intros apps. split; [|split]; reflexivity. Qed.

(** *** A failed fetch *)

Lemma lower_char_y c :
  lower_char c = "y"%char → c = "y"%char ∨ c = "Y"%char.
Proof.
  destruct c as [[] [] [] [] [] [] [] []]; vm_compute; intros H;
    (discriminate H || (by left) || (by right)).
Qed.

(** The answers that reset the table are [y] and [Y]. *)
Lemma lower_is_y reset_choice :
  String.eqb (lower reset_choice) "y" = true ↔
  reset_choice = "y" ∨ reset_choice = "Y".
Proof.
  rewrite String.eqb_eq. split.
  - destruct reset_choice as [|c [|c' s]]; simpl; try done.
    intros [= Hc]. by destruct (lower_char_y c Hc) as [-> | ->]; [left|right].
  - by intros [-> | ->].
Qed.

(** C6, as the code has it.  When the request fails, the importer prints the
    error and that no apps were fetched, and returns without any insert or
    replace.  The table is as it was before the run when it held no row or
    the operator did not answer [y] or [Y] to the reset question; when it
    held rows and the operator answered [y] or [Y], the table was reset
    before the request and is empty. *)
Theorem failed_fetch now engine db reset_choice :
  let result := main now engine db reset_choice RequestException in
  (db = ∅ ∨ (reset_choice ≠ "y" ∧ reset_choice ≠ "Y") →
   result = (db, [RecordsBefore (Z.of_nat (size db));
                  ErrorFetching; NoAppsFetched])) ∧
  (db ≠ ∅ ∧ (reset_choice = "y" ∨ reset_choice = "Y") →
   result = (∅, [RecordsBefore (Z.of_nat (size db)); DatabaseReset;
                 ErrorFetching; NoAppsFetched])).
Proof.
  intros result. subst result. unfold main, check_database_state; simpl. split.
  - intros [-> | [Hy HY]]; [done|].
    destruct (0 <? Z.of_nat (size db)); [|done].
    destruct (String.eqb (lower reset_choice) "y") eqn:Hl; [|done].
    apply lower_is_y in Hl. by destruct Hl.
  - intros [Hne Hyes]. apply lower_is_y in Hyes. rewrite Hyes.
    assert (size db ≠ 0%nat) by by intros ?%map_size_empty_inv.
    assert ((0 <? Z.of_nat (size db)) = true) as -> by lia.
    done.
Qed.

Lemma failed_fetch_witness :
  ((({[10 := mkRow "A" 0]} : gmap Z CatalogEntry) = ∅
    ∨ ("n" ≠ "y" ∧ "n" ≠ "Y")) ∧
   main 0 None {[10 := mkRow "A" 0]} "n" RequestException =
   ({[10 := mkRow "A" 0]},
    [RecordsBefore 1; ErrorFetching; NoAppsFetched])) ∧
  ((({[10 := mkRow "A" 0]} : gmap Z CatalogEntry) ≠ ∅
    ∧ ("Y" = "y" ∨ "Y" = "Y")) ∧
   main 0 None {[10 := mkRow "A" 0]} "Y" RequestException =
   (∅, [RecordsBefore 1; DatabaseReset; ErrorFetching; NoAppsFetched])).
Proof.
  assert (Hn : ({[10 := mkRow "A" 0]} : gmap Z CatalogEntry) = ∅
               ∨ ("n" ≠ "y" ∧ "n" ≠ "Y")).
  { right. split; discriminate. }
  assert (Hy : ({[10 := mkRow "A" 0]} : gmap Z CatalogEntry) ≠ ∅
               ∧ ("Y" = "y" ∨ "Y" = "Y")).
  { split; [|by right]. intros H. apply (f_equal (lookup 10)) in H.
    rewrite lookup_singleton_eq, lookup_empty in H. discriminate H. }
  split.
  - split; [exact Hn|].
    exact (proj1 (failed_fetch 0 None {[10 := mkRow "A" 0]} "n") Hn).
  - split; [exact Hy|].
    exact (proj2 (failed_fetch 0 None {[10 := mkRow "A" 0]} "Y") Hy).
Defined.

(** C6 as worded fails when the table holds rows and the operator asks for
    the reset: the row of id 10 is deleted although the request fails. *)
Lemma failed_fetch_counterexample :
  (main 0 None {[10 := mkRow "A" 0]} "y" RequestException).1 !! 10 = None ∧
  ({[10 := mkRow "A" 0]} : gmap Z CatalogEntry) !! 10 = Some (mkRow "A" 0).
Proof. split; reflexivity. Qed.

(** *** The duplicate analysis *)

Section Counting.

Context `{Countable K}.

Implicit Types (l : list K) (c : gmap K Z) (x : K).

Lemma occurrences_nonneg x l : 0 ≤ occurrences x l.
Proof.
  induction l as [|y l IH]; simpl; [done|]. destruct (decide (y = x)); lia.
Qed.

Lemma occurrences_pos x l : 0 < occurrences x l ↔ x ∈ l.
Proof.
  induction l as [|y l IH]; simpl.
  - rewrite elem_of_nil. lia.
  - rewrite elem_of_cons. pose proof (occurrences_nonneg x l).
    destruct (decide (y = x)) as [->|Hne]; [intuition lia|].
    rewrite <- IH. intuition (try lia). congruence.
Qed.

(** Counting from the counter [c]. *)
Lemma Counter_from l c x :
  foldl (fun c x => <[x := default 0 (c !! x) + 1]> c) c l !! x =
  if occurrences x l =? 0 then c !! x
  else Some (default 0 (c !! x) + occurrences x l).
Proof.
  revert c. induction l as [|y l IH]; intros c; simpl; [done|].
  rewrite IH. pose proof (occurrences_nonneg x l).
  destruct (decide (y = x)) as [->|Hne].
  - rewrite lookup_insert_eq. simpl.
    assert ((1 + occurrences x l =? 0) = false) as -> by lia.
    destruct (Z.eqb_spec (occurrences x l) 0) as [->|_]; f_equal; lia.
  - rewrite lookup_insert_ne by done. by rewrite Z.add_0_l.
Qed.

(** A [Counter] holds the elements of the list, each with the number of its
    occurrences. *)
Lemma Counter_lookup l x n :
  Counter l !! x = Some n ↔ n = occurrences x l ∧ 0 < n.
Proof.
  unfold Counter. rewrite Counter_from, lookup_empty. simpl.
  pose proof (occurrences_nonneg x l).
  destruct (Z.eqb_spec (occurrences x l) 0) as [Hz|Hnz].
  - split; [done|]. lia.
  - split; [intros [= <-]; lia | intros [-> _]; done].
Qed.

End Counting.

Lemma occurrences_pairs apps i nm :
  occurrences (i, nm) ((fun app => (appid app, name app)) <$> apps) =
  occurrences (mkApp i nm) apps.
Proof.
  induction apps as [|[i' nm'] apps IH]; [done|].
  rewrite fmap_cons. cbn [occurrences appid name]. rewrite IH.
  destruct (decide ((i', nm') = (i, nm))), (decide (mkApp i' nm' = mkApp i nm));
    congruence.
Qed.

Lemma elem_of_names_of i apps nm : nm ∈ names_of i apps ↔ mkApp i nm ∈ apps.
Proof.
  induction apps as [|[i' nm'] apps IH]; simpl.
  - by rewrite elem_of_nil, elem_of_empty.
  - rewrite elem_of_union, elem_of_cons, IH.
    destruct (decide (i' = i)) as [->|Hne].
    + rewrite elem_of_singleton. intuition congruence.
    + rewrite elem_of_empty. intuition congruence.
Qed.

Lemma names_of_empty i apps : i ∉ appid <$> apps → names_of i apps = ∅.
Proof.
  intros Hi. apply set_eq. intros nm. rewrite elem_of_names_of, elem_of_empty.
  split; [|done]. intros Hin. apply Hi.
  by apply (list_elem_of_fmap_2 appid) in Hin.
Qed.

(** Filling the dictionary from [d]. *)
Lemma app_id_to_names_from apps (d : gmap Z (gset string)) i :
  foldl (fun d app =>
           <[appid app := default ∅ (d !! appid app) ∪ {[name app]}]> d)
        d apps !! i =
  if decide (i ∈ appid <$> apps)
  then Some (default ∅ (d !! i) ∪ names_of i apps)
  else d !! i.
Proof.
  revert d. induction apps as [|app apps IH]; intros d; [done|].
  rewrite fmap_cons. simpl foldl. rewrite IH. simpl names_of.
  destruct (decide (appid app = i)) as [<-|Hne].
  - rewrite lookup_insert_eq. simpl.
    rewrite (decide_True (P := appid app ∈ appid app :: _))
      by apply list_elem_of_here.
    destruct (decide (appid app ∈ appid <$> apps)) as [Hin|Hnot].
    + f_equal. set_solver.
    + rewrite (names_of_empty _ _ Hnot). f_equal. set_solver.
  - rewrite lookup_insert_ne by done.
    destruct (decide (i ∈ appid <$> apps)) as [Hin|Hnot].
    + rewrite decide_True by (by apply list_elem_of_further).
      f_equal. set_solver.
    + rewrite decide_False; [done|]. rewrite elem_of_cons. naive_solver.
Qed.

Lemma app_id_to_names_lookup apps i (S : gset string) :
  app_id_to_names apps !! i = Some S ↔
  i ∈ appid <$> apps ∧ S = names_of i apps.
Proof.
  unfold app_id_to_names. rewrite app_id_to_names_from, lookup_empty. simpl.
  destruct (decide (i ∈ appid <$> apps)) as [Hin|Hnot].
  - rewrite (left_id_L ∅ (∪)). naive_solver.
  - naive_solver.
Qed.

(** A set has more than one element when it has two distinct ones. *)
Lemma size_gt_1 (S : gset string) :
  1 < Z.of_nat (size S) ↔ ∃ n1 n2, n1 ≠ n2 ∧ n1 ∈ S ∧ n2 ∈ S.
Proof.
  split.
  - intros Hs. destruct (size_pos_elem_of S) as [n1 H1]; [lia|].
    assert (Hd : size (S ∖ {[n1]}) = (size S - 1)%nat).
    { rewrite size_difference by set_solver. by rewrite size_singleton. }
    destruct (size_pos_elem_of (S ∖ {[n1]})) as [n2 H2]; [lia|].
    exists n1, n2. set_solver.
  - intros (n1 & n2 & Hne & H1 & H2).
    assert (Hsub : ({[n1]} ∪ {[n2]} : gset string) ⊆ S) by set_solver.
    apply subseteq_size in Hsub.
    rewrite size_union, !size_singleton in Hsub by set_solver. lia.
Qed.

(** C7. The analysis of a fetched list holds exactly: in [duplicate_ids],
    every id that occurs more than once, with the number of its occurrences;
    in [exact_duplicates], every pair of id and name that occurs more than
    once, with the number of its occurrences; in [different_names], every id
    the list gives two distinct names, with the set of the names the list
    gives it.  So id 10 with the names A then B counts 2 and has the names
    A and B, and id 20 twice with the name C counts 2 as a pair and has no
    entry in [different_names]. *)
Theorem analyze_duplicates_exact apps :
  let analysis := analyze_duplicates apps in
  (∀ i n, duplicate_ids analysis !! i = Some n ↔
          n = occurrences i (appid <$> apps) ∧ 1 < n) ∧
  (∀ i nm n, exact_duplicates analysis !! (i, nm) = Some n ↔
             n = occurrences (mkApp i nm) apps ∧ 1 < n) ∧
  (∀ i (names : gset string),
     different_names analysis !! i = Some names ↔
     (∀ nm, nm ∈ names ↔ mkApp i nm ∈ apps) ∧
     ∃ n1 n2, n1 ≠ n2 ∧ n1 ∈ names ∧ n2 ∈ names) ∧
  (let example := analyze_duplicates
                    [mkApp 10 "A"; mkApp 10 "B"; mkApp 20 "C"; mkApp 20 "C"] in
   duplicate_ids example !! 10 = Some 2 ∧
   different_names example !! 10 = Some {["A"; "B"]} ∧
   exact_duplicates example !! (20, "C") = Some 2 ∧
   different_names example !! 20 = None).
Proof.
  intros analysis. subst analysis. unfold analyze_duplicates; simpl.
  split; [|split; [|split]].
  - intros i n. rewrite map_lookup_filter_Some, Counter_lookup. simpl.
    intuition lia.
  - intros i nm n.
    rewrite map_lookup_filter_Some, Counter_lookup, occurrences_pairs. simpl.
    intuition lia.
  - intros i names.
    rewrite map_lookup_filter_Some, app_id_to_names_lookup. simpl.
    rewrite size_gt_1. split.
    + intros [[Hin ->] Htwo]. split; [|done].
      intros nm. apply elem_of_names_of.
    + intros [Hnames (n1 & n2 & Hne & H1 & H2)].
      split; [|by exists n1, n2]. split.
      * apply Hnames in H1. by apply (list_elem_of_fmap_2 appid) in H1.
      * apply set_eq. intros nm. by rewrite Hnames, elem_of_names_of.
  - by vm_compute.
Qed.

End Catalog.

(** ** The aggregate statistics *)

Section Rows.

Import Extractor Querier.

Implicit Types (db : gmap string GameRecord).

Lemma elem_of_rows db row : row ∈ rows db ↔ ∃ app_id, db !! app_id = Some row.
Proof.
  unfold rows. rewrite list_elem_of_fmap. split.
  - intros ([app_id row'] & -> & Hin). exists app_id.
    by apply elem_of_map_to_list.
  - intros [app_id Hrow]. exists (app_id, row). split; [done|].
    by apply elem_of_map_to_list.
Qed.

Lemma elem_of_column {A} (f : GameRecord → A) db (v : A) :
  v ∈ f <$> rows db ↔ ∃ app_id row, db !! app_id = Some row ∧ f row = v.
Proof.
  rewrite list_elem_of_fmap. setoid_rewrite elem_of_rows. naive_solver.
Qed.

End Rows.

Section Aggregates.

Import Extractor Querier.

(** The aggregate [op] picks one of its arguments, the one [R] prefers:
    [Z.max] with [R m w := w ≤ m], [Z.min] with [R m w := m ≤ w]. *)
Variable op : Z → Z → Z.
Variable R : Z → Z → Prop.
Hypothesis op_pick : ∀ a b, op a b = a ∨ op a b = b.
Hypothesis op_l : ∀ a b, R (op a b) a.
Hypothesis op_r : ∀ a b, R (op a b) b.
Hypothesis R_refl : ∀ a, R a a.
Hypothesis R_trans : ∀ a b c, R a b → R b c → R a c.
Hypothesis R_antisym : ∀ a b, R a b → R b a → a = b.

Implicit Types (col : list (option Z)).

Lemma sql_agg_None col : sql_agg op col = None ↔ ∀ w, Some w ∉ col.
Proof.
  induction col as [|x col IH]; simpl.
  - split; [|done]. intros _ w. apply not_elem_of_nil.
  - destruct x as [a|].
    + split.
      * by destruct (sql_agg op col).
      * intros Hno. by destruct (Hno a (list_elem_of_here _ _)).
    + rewrite IH. split; intros Hno w.
      * rewrite not_elem_of_cons. split; [done | apply Hno].
      * specialize (Hno w). rewrite not_elem_of_cons in Hno. tauto.
Qed.

Lemma sql_agg_Some_1 col m :
  sql_agg op col = Some m → Some m ∈ col ∧ ∀ w, Some w ∈ col → R m w.
Proof.
  revert m. induction col as [|x col IH]; intros m; simpl; [done|].
  destruct x as [a|].
  - destruct (sql_agg op col) as [b|] eqn:Hb.
    + intros [= <-]. destruct (IH b eq_refl) as [Hin Hall]. split.
      * destruct (op_pick a b) as [-> | ->];
          [apply list_elem_of_here | by apply list_elem_of_further].
      * intros w [[= ->]|Hw]%elem_of_cons; [apply op_l|].
        eapply R_trans; [apply op_r | by apply Hall].
    + intros [= <-]. split; [apply list_elem_of_here|].
      intros w [[= ->]|Hw]%elem_of_cons; [apply R_refl|].
      by apply (proj1 (sql_agg_None col) Hb) in Hw.
  - intros Hm. destruct (IH m Hm) as [Hin Hall]. split.
    + by apply list_elem_of_further.
    + intros w [?|Hw]%elem_of_cons; [done | by apply Hall].
Qed.

(** The aggregate is the value of the column that [R] prefers to all. *)
Lemma sql_agg_Some col m :
  sql_agg op col = Some m ↔ Some m ∈ col ∧ ∀ w, Some w ∈ col → R m w.
Proof.
  split; [apply sql_agg_Some_1|]. intros [Hin Hall].
  destruct (sql_agg op col) as [m'|] eqn:Hm'.
  - destruct (sql_agg_Some_1 _ _ Hm') as [Hin' Hall']. f_equal.
    apply R_antisym; auto.
  - by apply (proj1 (sql_agg_None col) Hm') in Hin.
Qed.

(** The aggregate of the [first_seen] column. *)
Lemma sql_agg_first_seen (db : gmap string GameRecord) :
  extreme_first_seen R db (sql_agg op (first_seen <$> rows db)).
Proof.
  destruct (sql_agg op (first_seen <$> rows db)) as [v|] eqn:Hagg; simpl.
  - apply sql_agg_Some in Hagg as [Hin Hall]. split.
    + by apply elem_of_column in Hin.
    + intros app_id row w Hrow Hw. apply Hall, elem_of_column. eauto.
  - intros app_id row Hrow. destruct (first_seen row) as [w|] eqn:Hw; [|done].
    destruct (proj1 (sql_agg_None _) Hagg w). apply elem_of_column. eauto.
Qed.

End Aggregates.

Section Statistics.

Import Extractor Querier.

Implicit Types (db : gmap string GameRecord) (col : list (option Z)).

Lemma sql_max_Some col m :
  sql_max col = Some m ↔ Some m ∈ col ∧ ∀ w, Some w ∈ col → w ≤ m.
Proof. apply (sql_agg_Some Z.max (fun m w => w ≤ m)); intros; lia. Qed.

Lemma sql_min_Some col m :
  sql_min col = Some m ↔ Some m ∈ col ∧ ∀ w, Some w ∈ col → m ≤ w.
Proof. apply (sql_agg_Some Z.min (fun m w => m ≤ w)); intros; lia. Qed.

Lemma length_rows db : length (rows db) = size db.
Proof. unfold rows. by rewrite length_fmap, length_map_to_list. Qed.

Lemma sql_count_not_null (l : list GameRecord) :
  sql_count ((fun g => Some (report_count g)) <$> l) = Z.of_nat (length l).
Proof.
  unfold sql_count. f_equal. induction l as [|g l IH]; [done|].
  rewrite fmap_cons, filter_cons_True by done. simpl. by rewrite IH.
Qed.

Lemma sql_sum_reports db :
  sql_sum ((fun g => Some (report_count g)) <$> rows db) = total_reports db.
Proof.
  unfold total_reports, rows. rewrite map_fold_foldr.
  induction (map_to_list db) as [|[app_id row] l IH]; [done|].
  rewrite !fmap_cons. simpl. by rewrite <- IH.
Qed.

(** C10. On the empty table the statistics raise [TypeError]: the average is
    [NULL] and [round] does not take it.  On a table with at least one row
    they are returned: the number of rows, the greatest [report_count], the
    mean [report_count] (the sum over the number of rows) rounded to two
    decimals, and the least and the greatest [first_seen] ([NULL]s apart). *)
Theorem get_database_stats_total_iff_nonempty
    (float : Type) (fdiv : Z → Z → float) (round2 : float → float) db :
  (db = ∅ → get_database_stats fdiv round2 db = inl Py.TypeError) ∧
  (db ≠ ∅ →
   ∃ stats,
     get_database_stats fdiv round2 db = inr stats ∧
     total_games stats = Z.of_nat (size db) ∧
     (∃ m, max_reports stats = Some m ∧
           (∃ app_id row, db !! app_id = Some row ∧ report_count row = m) ∧
           ∀ app_id row, db !! app_id = Some row → report_count row ≤ m) ∧
     avg_reports stats =
       round2 (fdiv (total_reports db) (Z.of_nat (size db))) ∧
     extreme_first_seen Z.le db (oldest_game_timestamp stats) ∧
     extreme_first_seen Z.ge db (newest_game_timestamp stats)).
Proof.
  unfold get_database_stats, sql_avg. split.
  - intros ->. unfold rows. by rewrite map_to_list_empty.
  - intros Hne. apply map_size_non_empty_iff in Hne.
    rewrite sql_count_not_null, sql_sum_reports, length_rows.
    assert ((Z.of_nat (size db) =? 0) = false) as -> by lia. simpl.
    eexists. split; [reflexivity|]. simpl. repeat split.
    + destruct (sql_max _) as [m|] eqn:Hmax.
      * apply sql_max_Some in Hmax as [Hin Hall]. exists m. split; [done|].
        split.
        -- apply elem_of_column in Hin as (app_id & row & Hrow & [= Hm]).
           eauto.
        -- intros app_id row Hrow. apply Hall, elem_of_column. eauto.
      * exfalso. destruct (size_pos_elem_of (dom db)) as [app_id Hin].
        { rewrite size_dom. lia. }
        apply elem_of_dom in Hin as [row Hrow].
        apply (proj1 (sql_agg_None _ _) Hmax (report_count row)).
        apply elem_of_column. eauto.
    + apply (sql_agg_first_seen Z.min Z.le); intros; lia.
    + apply (sql_agg_first_seen Z.max Z.ge); intros; lia.
Qed.

Lemma get_database_stats_total_iff_nonempty_witness :
  ((∅ : gmap string GameRecord) = ∅ ∧
   get_database_stats (fun s n => (s, n)) (fun x => x)
                      (∅ : gmap string GameRecord) = inl Py.TypeError) ∧
  (({["1" := mkGame "T" (Some 5) (Some 9) 3]} : gmap string GameRecord) ≠ ∅ ∧
   ∃ stats,
     get_database_stats (fun s n => (s, n)) (fun x => x)
                        {["1" := mkGame "T" (Some 5) (Some 9) 3]}
     = inr stats ∧
     total_games stats = 1).
Proof.
  split.
  - split; [reflexivity|].
    exact (proj1 (get_database_stats_total_iff_nonempty
                    (Z * Z) (fun s n => (s, n)) (fun x => x) ∅) eq_refl).
  - assert (Hne : ({["1" := mkGame "T" (Some 5) (Some 9) 3]}
                   : gmap string GameRecord) ≠ ∅).
    { intros H. apply (f_equal (lookup "1")) in H.
      rewrite lookup_singleton_eq, lookup_empty in H. discriminate H. }
    split; [exact Hne|].
    destruct (proj2 (get_database_stats_total_iff_nonempty
                       (Z * Z) (fun s n => (s, n)) (fun x => x)
                       {["1" := mkGame "T" (Some 5) (Some 9) 3]}) Hne)
      as (stats & Heq & Htotal & _).
    exists stats. split; [exact Heq|].
    rewrite Htotal, map_size_singleton. reflexivity.
Defined.

End Statistics.

(** ** The walker *)

Section Walker.

Import Extractor.

Implicit Types (st : State) (counts : Counts) (timestamp : option Z).

Lemma bind_eq {A B} (c : M A) (k : A → M B) st :
  (c ≫= k) st =
  let '(a, st1, log1) := c st in
  let '(b, st2, log2) := k a st1 in (b, st2, log1 ++ log2).
Proof. reflexivity. Qed.

(** *** Computations that leave the totals alone *)

Lemma respects_ret {A} (a : A) : respects (mret a).
Proof. by intros ka kj st. Qed.

Lemma respects_tell r : respects (tell r).
Proof. by intros ka kj st. Qed.

Lemma respects_logging {A} (c : A * list LogRecord) : respects (logging c).
Proof. by intros ka kj st. Qed.

Lemma respects_bind {A B} (c : M A) (k : A → M B) :
  respects c → (∀ a, respects (k a)) → respects (c ≫= k).
Proof.
  intros Hc Hk ka kj st. rewrite !bind_eq, Hc.
  destruct (c st) as [[a st1] log1]. rewrite Hk.
  by destruct (k a st1) as [[b st2] log2].
Qed.

Lemma respects_add_counts counts : respects (update_stats (add_counts counts)).
Proof. intros ka kj st. by destruct counts as [[? ?] ?]. Qed.

Lemma respects_archive_done : respects (update_stats archive_done).
Proof. by intros ka kj st. Qed.

Lemma respects_json_file_done : respects (update_stats json_file_done).
Proof. by intros ka kj st. Qed.

Lemma respects_process_json_entry entry_data timestamp :
  respects (process_json_entry entry_data timestamp).
Proof.
  intros ka kj st. unfold process_json_entry, process_json_entry_try.
  destruct (entry_appId entry_data) as [app_id|]; [|done].
  destruct (entry_title entry_data) as [title|]; [|done].
  destruct (String.eqb app_id "" || String.eqb title ""); [done|].
  simpl games. destruct (games st !! app_id) as [row|].
  - destruct (Py.and_ _ (Py.lt _ _)) as [e|older]; [done|]. simpl.
    destruct (Py.and_ _ (Py.gt _ _)) as [e|newer]; [done|]. simpl.
    by destruct (Sqlite.bind _) as [e|[]].
  - by destruct (Sqlite.bind _) as [e|[]].
Qed.

Create HintDb respects.

#[local] Hint Resolve respects_ret respects_tell respects_logging
  respects_add_counts respects_archive_done respects_json_file_done
  respects_process_json_entry : respects.

Lemma respects_count_entry timestamp counts entry :
  respects (count_entry timestamp counts entry).
Proof.
  destruct counts as [[? ?] ?]. unfold count_entry.
  apply respects_bind; [auto with respects|].
  intros [is_new is_updated]. apply respects_ret.
Qed.

#[local] Hint Resolve respects_count_entry : respects.

Lemma respects_for_entries timestamp counts data :
  respects (for_entries timestamp counts data).
Proof.
  revert counts. induction data as [|entry data IH]; intros counts; simpl.
  - auto with respects.
  - apply respects_bind; auto with respects.
Qed.

#[local] Hint Resolve respects_for_entries : respects.

Lemma respects_process_data timestamp counts data :
  respects (process_data timestamp counts data).
Proof. destruct data; simpl; auto with respects. Qed.

#[local] Hint Resolve respects_process_data : respects.

Lemma respects_process_member timestamp counts m :
  respects (process_member timestamp counts m).
Proof.
  unfold process_member. destruct (member_content m);
    [apply respects_bind; auto with respects ..| auto with respects].
Qed.

#[local] Hint Resolve respects_process_member : respects.

Lemma respects_for_members timestamp counts json_files :
  respects (for_members timestamp counts json_files).
Proof.
  revert counts.
  induction json_files as [|m json_files IH]; intros counts; simpl.
  - auto with respects.
  - apply respects_bind; auto with respects.
Qed.

#[local] Hint Resolve respects_for_members : respects.

Lemma respects_process_archive utcoffset a :
  respects (process_archive utcoffset a).
Proof.
  unfold process_archive. apply respects_bind; [auto with respects|].
  intros timestamp. destruct (archive_members a).
  - apply respects_bind; [auto with respects|]. intros counts.
    apply respects_bind; [auto with respects|]. intros _.
    apply respects_bind; auto with respects.
  - apply respects_bind; auto with respects.
Qed.

Lemma respects_process_json_file utcoffset f :
  respects (process_json_file utcoffset f).
Proof.
  unfold process_json_file. apply respects_bind; [auto with respects|].
  intros timestamp. destruct (json_content f).
  - apply respects_bind; auto with respects.
  - apply respects_bind; auto with respects.
  - apply respects_bind; [auto with respects|]. intros counts.
    apply respects_bind; [auto with respects|]. intros _.
    apply respects_bind; auto with respects.
Qed.

#[local] Hint Resolve respects_process_archive respects_process_json_file
  : respects.

Lemma respects_for_archives utcoffset archives :
  respects (for_archives utcoffset archives).
Proof.
  induction archives as [|a archives IH]; simpl.
  - auto with respects.
  - apply respects_bind; auto with respects.
Qed.

Lemma respects_for_json_files utcoffset json_files :
  respects (for_json_files utcoffset json_files).
Proof.
  induction json_files as [|f json_files IH]; simpl.
  - auto with respects.
  - apply respects_bind; auto with respects.
Qed.

(** *** Logs *)

Lemma inserted_here extra (l1 l2 : list LogRecord) :
  inserted extra (l1 ++ l2) (l1 ++ extra ++ l2).
Proof. by exists l1, l2. Qed.

Lemma inserted_app extra (pre post log' log : list LogRecord) :
  inserted extra log' log →
  inserted extra (pre ++ log' ++ post) (pre ++ log ++ post).
Proof.
  intros (l1 & l2 & -> & ->). exists (pre ++ l1), (l2 ++ post).
  by rewrite <- !app_assoc.
Qed.

Lemma inserted_pre extra (pre log' log : list LogRecord) :
  inserted extra log' log → inserted extra (pre ++ log') (pre ++ log).
Proof.
  intros Hins. apply (inserted_app extra pre []) in Hins.
  by rewrite !app_nil_r in Hins.
Qed.

Lemma inserted_post extra (post log' log : list LogRecord) :
  inserted extra log' log → inserted extra (log' ++ post) (log ++ post).
Proof. intros Hins. by apply (inserted_app extra [] post) in Hins. Qed.

(** *** The loops, part after part *)

Lemma for_members_app timestamp counts (ms1 ms2 : list Member) st :
  for_members timestamp counts (ms1 ++ ms2) st =
  let '(counts1, st1, log1) := for_members timestamp counts ms1 st in
  let '(counts2, st2, log2) := for_members timestamp counts1 ms2 st1 in
  (counts2, st2, log1 ++ log2).
Proof.
  revert counts st. induction ms1 as [|m ms1 IH]; intros counts st; simpl.
  - by destruct (for_members timestamp counts ms2 st) as [[c2 st2] log2].
  - rewrite !bind_eq.
    destruct (process_member timestamp counts m st) as [[c0 st0] log0].
    rewrite IH.
    destruct (for_members timestamp c0 ms1 st0) as [[c1 st1] log1].
    destruct (for_members timestamp c1 ms2 st1) as [[c2 st2] log2].
    by rewrite app_assoc.
Qed.

Lemma for_archives_app utcoffset (as1 as2 : list Archive) st :
  for_archives utcoffset (as1 ++ as2) st =
  let '(_, st1, log1) := for_archives utcoffset as1 st in
  let '(_, st2, log2) := for_archives utcoffset as2 st1 in
  (tt, st2, log1 ++ log2).
Proof.
  revert st. induction as1 as [|a as1 IH]; intros st; simpl.
  - by destruct (for_archives utcoffset as2 st) as [[[] st2] log2].
  - rewrite !bind_eq.
    destruct (process_archive utcoffset a st) as [[c0 st0] log0].
    rewrite IH.
    destruct (for_archives utcoffset as1 st0) as [[[] st1] log1].
    destruct (for_archives utcoffset as2 st1) as [[[] st2] log2].
    by rewrite app_assoc.
Qed.

Lemma for_json_files_app utcoffset (fs1 fs2 : list JsonFile) st :
  for_json_files utcoffset (fs1 ++ fs2) st =
  let '(_, st1, log1) := for_json_files utcoffset fs1 st in
  let '(_, st2, log2) := for_json_files utcoffset fs2 st1 in
  (tt, st2, log1 ++ log2).
Proof.
  revert st. induction fs1 as [|f fs1 IH]; intros st; simpl.
  - by destruct (for_json_files utcoffset fs2 st) as [[[] st2] log2].
  - rewrite !bind_eq.
    destruct (process_json_file utcoffset f st) as [[c0 st0] log0].
    rewrite IH.
    destruct (for_json_files utcoffset fs1 st0) as [[[] st1] log1].
    destruct (for_json_files utcoffset fs2 st1) as [[[] st2] log2].
    by rewrite app_assoc.
Qed.

(** *** What a bad input does *)

(** A loose file with malformed JSON: logged, no entry, the state as it
    was. *)
Lemma process_json_file_malformed utcoffset name now st :
  process_json_file utcoffset (mkJsonFile name now Malformed) st =
  ((0, 0, 0), st,
   (file_timestamp utcoffset now name).2 ++
   [ErrorProcessingJSONFile name Py.JSONDecodeError]).
Proof. reflexivity. Qed.

(** An archive that fails to open or extract: logged, no entry, the state as
    it was. *)
Lemma process_archive_failing utcoffset name now st :
  process_archive utcoffset (mkArchive name now None) st =
  ((0, 0, 0), st,
   (archive_timestamp utcoffset now name).2 ++
   [ErrorProcessingArchive name Py.TarError]).
Proof. reflexivity. Qed.

(** A member with malformed JSON: logged, the counters and the state as they
    were. *)
Lemma process_member_malformed timestamp counts name st :
  process_member timestamp counts (mkMember name Malformed) st =
  (counts, st, [InvalidJSON name]).
Proof. reflexivity. Qed.

(** *** The loops with and without the bad input *)

Lemma for_json_files_skip utcoffset fs1 name now fs2 st :
  let '(_, st', log') := for_json_files utcoffset (fs1 ++ fs2) st in
  ∃ log,
    for_json_files utcoffset
      (fs1 ++ mkJsonFile name now Malformed :: fs2) st = (tt, st', log) ∧
    inserted ((file_timestamp utcoffset now name).2 ++
              [ErrorProcessingJSONFile name Py.JSONDecodeError]) log' log.
Proof.
  rewrite !for_json_files_app.
  destruct (for_json_files utcoffset fs1 st) as [[[] st1] log1].
  cbn [for_json_files]. rewrite bind_eq, process_json_file_malformed.
  destruct (for_json_files utcoffset fs2 st1) as [[[] st2] log2].
  eexists. split; [reflexivity|]. apply inserted_here.
Qed.

Lemma for_archives_skip utcoffset as1 name now as2 st :
  let '(_, st', log') := for_archives utcoffset (as1 ++ as2) st in
  ∃ log,
    for_archives utcoffset
      (as1 ++ mkArchive name now None :: as2) st = (tt, st', log) ∧
    inserted ((archive_timestamp utcoffset now name).2 ++
              [ErrorProcessingArchive name Py.TarError]) log' log.
Proof.
  rewrite !for_archives_app.
  destruct (for_archives utcoffset as1 st) as [[[] st1] log1].
  cbn [for_archives]. rewrite bind_eq, process_archive_failing.
  destruct (for_archives utcoffset as2 st1) as [[[] st2] log2].
  eexists. split; [reflexivity|]. apply inserted_here.
Qed.

Lemma for_members_skip timestamp counts ms1 name ms2 st :
  let '(c, st', log') := for_members timestamp counts (ms1 ++ ms2) st in
  ∃ log,
    for_members timestamp counts
      (ms1 ++ mkMember name Malformed :: ms2) st = (c, st', log) ∧
    inserted [InvalidJSON name] log' log.
Proof.
  rewrite !for_members_app.
  destruct (for_members timestamp counts ms1 st) as [[c1 st1] log1].
  cbn [for_members]. rewrite bind_eq, process_member_malformed.
  destruct (for_members timestamp c1 ms2 st1) as [[c2 st2] log2].
  eexists. split; [reflexivity|]. apply inserted_here.
Qed.

Lemma process_archive_skip utcoffset an anow ms1 name ms2 st :
  let '(c, st', log') :=
    process_archive utcoffset (mkArchive an anow (Some (ms1 ++ ms2))) st in
  ∃ log,
    process_archive utcoffset
      (mkArchive an anow (Some (ms1 ++ mkMember name Malformed :: ms2))) st
    = (c, st', log) ∧
    inserted [InvalidJSON name] log' log.
Proof.
  unfold process_archive. cbn [archive_members archive_name archive_now].
  rewrite !bind_eq. cbn [logging].
  set (timestamp := (archive_timestamp utcoffset anow an).1).
  set (tlog := (archive_timestamp utcoffset anow an).2).
  rewrite !bind_eq.
  pose proof (for_members_skip timestamp (0, 0, 0) ms1 name ms2 st) as Hskip.
  destruct (for_members timestamp (0, 0, 0) (ms1 ++ ms2) st)
    as [[c st1] log1].
  destruct Hskip as (log & -> & Hins).
  eexists. split; [reflexivity|]. simpl. by apply inserted_app.
Qed.

Lemma for_archives_member_skip utcoffset as1 an anow ms1 name ms2 as2 st :
  let '(_, st', log') :=
    for_archives utcoffset
      (as1 ++ mkArchive an anow (Some (ms1 ++ ms2)) :: as2) st in
  ∃ log,
    for_archives utcoffset
      (as1 ++ mkArchive an anow (Some (ms1 ++ mkMember name Malformed :: ms2))
           :: as2) st = (tt, st', log) ∧
    inserted [InvalidJSON name] log' log.
Proof.
  rewrite !for_archives_app.
  destruct (for_archives utcoffset as1 st) as [[[] st1] log1].
  cbn [for_archives]. rewrite !bind_eq.
  pose proof (process_archive_skip utcoffset an anow ms1 name ms2 st1) as Hskip.
  destruct (process_archive utcoffset (mkArchive an anow (Some (ms1 ++ ms2)))
                            st1) as [[c st2] log2].
  destruct Hskip as (log & -> & Hins).
  destruct (for_archives utcoffset as2 st2) as [[[] st3] log3].
  eexists. split; [reflexivity|]. by apply inserted_app.
Qed.

(** *** The run *)

(** [run] is the two loops on the fresh extractor, with the totals set. *)
Lemma run_eq utcoffset archives json_files db :
  run utcoffset archives json_files (init db) =
  let '(x, st, log) :=
    (for_archives utcoffset archives;;
     for_json_files utcoffset json_files) (init db) in
  (x, retotal (Z.of_nat (length archives)) (Z.of_nat (length json_files)) st,
   log).
Proof.
  unfold run. rewrite bind_eq. cbn [get_archive_files update_stats].
  rewrite bind_eq. cbn [get_json_files update_stats].
  change (mkState _ _ _)
    with (retotal (Z.of_nat (length archives))
                  (Z.of_nat (length json_files)) (init db)).
  rewrite (respects_bind _ _ (respects_for_archives utcoffset archives)
             (fun _ => respects_for_json_files utcoffset json_files)).
  by destruct ((for_archives utcoffset archives;;
                for_json_files utcoffset json_files) (init db))
    as [[x st] log].
Qed.

(** *** What the run does to the table *)

Lemma step_same_table st1 st2 obs :
  same_table st1 st2 → same_table (step st1 obs) (step st2 obs).
Proof.
  intros [Hg Hp]. destruct obs as [entry_data timestamp].
  unfold step, process_json_entry, process_json_entry_try. simpl.
  rewrite Hg.
  destruct (entry_appId entry_data) as [app_id|]; [|done].
  destruct (entry_title entry_data) as [title|]; [|done].
  destruct (String.eqb app_id "" || String.eqb title ""); [done|].
  destruct (games st2 !! app_id) as [row|].
  - destruct (Py.and_ _ (Py.lt _ _)) as [e|older]; [done|]. simpl.
    destruct (Py.and_ _ (Py.gt _ _)) as [e|newer]; [done|]. simpl.
    destruct (Sqlite.bind _) as [e|[]]; [done|].
    split; simpl; congruence.
  - destruct (Sqlite.bind _) as [e|[]]; [done|].
    split; simpl; congruence.
Qed.

Lemma foldl_same_table st1 st2 (obs : list (Entry * option Z)) :
  same_table st1 st2 → same_table (foldl step st1 obs) (foldl step st2 obs).
Proof.
  revert st1 st2. induction obs as [|o obs IH]; intros st1 st2 Hsame; [done|].
  simpl. by apply IH, step_same_table.
Qed.

Lemma same_table_trans st1 st2 st3 :
  same_table st1 st2 → same_table st2 st3 → same_table st1 st3.
Proof. intros [? ?] [? ?]. split; congruence. Qed.

Lemma plays_ret {A} (a : A) : plays [] (mret a).
Proof. by intros st. Qed.

Lemma plays_tell r : plays [] (tell r).
Proof. by intros st. Qed.

Lemma plays_update_stats f : plays [] (update_stats f).
Proof. by intros st. Qed.

Lemma plays_bind {A B} obs1 obs2 (c : M A) (k : A → M B) :
  plays obs1 c → (∀ a, plays obs2 (k a)) → plays (obs1 ++ obs2) (c ≫= k).
Proof.
  intros Hc Hk st. rewrite bind_eq, foldl_app. specialize (Hc st).
  destruct (c st) as [[a st1] log1]. specialize (Hk a st1).
  destruct (k a st1) as [[b st2] log2]. simpl in *.
  eapply same_table_trans; [exact Hk|]. by apply foldl_same_table.
Qed.

Lemma plays_logging_bind {A B} obs (c : A * list LogRecord) (k : A → M B) :
  plays obs (k c.1) → plays obs (logging c ≫= k).
Proof.
  intros Hk st. rewrite bind_eq. cbn [logging]. specialize (Hk st).
  by destruct (k c.1 st) as [[b st2] log2].
Qed.

Lemma plays_count_entry timestamp counts entry :
  plays [(entry, timestamp)] (count_entry timestamp counts entry).
Proof.
  destruct counts as [[? ?] ?]. intros st. unfold count_entry.
  rewrite bind_eq. simpl. unfold step. simpl.
  by destruct (process_json_entry entry timestamp st) as [[[? ?] st1] log1].
Qed.

Lemma plays_for_entries timestamp counts data :
  plays ((fun entry => (entry, timestamp)) <$> data)
        (for_entries timestamp counts data).
Proof.
  revert counts. induction data as [|entry data IH]; intros counts.
  - apply plays_ret.
  - rewrite fmap_cons. cbn [for_entries].
    apply (plays_bind [(entry, timestamp)]); [apply plays_count_entry|].
    intros counts'. apply IH.
Qed.

Lemma plays_process_data timestamp counts data :
  plays (observations_of timestamp (Data data))
        (process_data timestamp counts data).
Proof.
  destruct data; simpl; [apply plays_for_entries | apply plays_count_entry].
Qed.

Lemma plays_process_member timestamp counts m :
  plays (observations_of timestamp (member_content m))
        (process_member timestamp counts m).
Proof.
  unfold process_member. destruct (member_content m) as [| |data].
  - apply (plays_bind [] []); [apply plays_tell | intros; apply plays_ret].
  - apply (plays_bind [] []); [apply plays_tell | intros; apply plays_ret].
  - apply plays_process_data.
Qed.

Lemma plays_for_members timestamp counts json_files :
  plays (concat ((fun m => observations_of timestamp (member_content m))
                   <$> json_files))
        (for_members timestamp counts json_files).
Proof.
  revert counts. induction json_files as [|m json_files IH]; intros counts.
  - apply plays_ret.
  - rewrite fmap_cons. cbn [for_members concat].
    apply plays_bind; [apply plays_process_member|].
    intros counts'. apply IH.
Qed.

Lemma plays_finish {A} (counts : A) f g :
  plays [] (update_stats f;; update_stats g;; mret counts).
Proof.
  apply (plays_bind [] []); [apply plays_update_stats|]. intros _.
  apply (plays_bind [] []); [apply plays_update_stats|]. intros _.
  apply plays_ret.
Qed.

Lemma plays_process_archive utcoffset a :
  plays (archive_observations utcoffset a) (process_archive utcoffset a).
Proof.
  unfold process_archive, archive_observations. apply plays_logging_bind.
  destruct (archive_members a) as [json_files|].
  - rewrite <- (app_nil_r (concat _)).
    apply plays_bind; [apply plays_for_members|].
    intros counts. apply plays_finish.
  - apply (plays_bind [] []); [apply plays_tell | intros; apply plays_ret].
Qed.

Lemma plays_process_json_file utcoffset f :
  plays (file_observations utcoffset f) (process_json_file utcoffset f).
Proof.
  unfold process_json_file, file_observations. apply plays_logging_bind.
  destruct (json_content f) as [| |data].
  - apply (plays_bind [] []); [apply plays_tell | intros; apply plays_ret].
  - apply (plays_bind [] []); [apply plays_tell | intros; apply plays_ret].
  - rewrite <- (app_nil_r (observations_of _ _)).
    apply plays_bind; [apply plays_process_data|].
    intros counts. apply plays_finish.
Qed.

Lemma plays_for_archives utcoffset archives :
  plays (concat (archive_observations utcoffset <$> archives))
        (for_archives utcoffset archives).
Proof.
  induction archives as [|a archives IH].
  - apply plays_ret.
  - rewrite fmap_cons. cbn [for_archives concat].
    apply plays_bind; [apply plays_process_archive | intros; apply IH].
Qed.

Lemma plays_for_json_files utcoffset json_files :
  plays (concat (file_observations utcoffset <$> json_files))
        (for_json_files utcoffset json_files).
Proof.
  induction json_files as [|f json_files IH].
  - apply plays_ret.
  - rewrite fmap_cons. cbn [for_json_files concat].
    apply plays_bind; [apply plays_process_json_file | intros; apply IH].
Qed.

(** The run reconciles every observation of the directory, in order. *)
Lemma plays_run utcoffset archives json_files :
  plays (observations utcoffset archives json_files)
        (run utcoffset archives json_files).
Proof.
  unfold run, observations, get_archive_files, get_json_files.
  apply (plays_bind []); [apply plays_update_stats|]. intros _.
  apply (plays_bind []); [apply plays_update_stats|]. intros _.
  apply plays_bind; [apply plays_for_archives|]. intros _.
  apply plays_for_json_files.
Qed.

(** *** What the steps keep, the run keeps *)

Section Keeps.

Variable P : gmap string GameRecord → Prop.
Hypothesis P_step : ∀ st obs, P (games st) → P (games (step st obs)).

Create HintDb keeps.

Lemma keeps_ret {A} (a : A) : keeps P (mret a).
Proof. by intros st. Qed.

Lemma keeps_tell r : keeps P (tell r).
Proof. by intros st. Qed.

Lemma keeps_logging {A} (c : A * list LogRecord) : keeps P (logging c).
Proof. by intros st. Qed.

Lemma keeps_update_stats f : keeps P (update_stats f).
Proof. by intros st. Qed.

Lemma keeps_bind {A B} (c : M A) (k : A → M B) :
  keeps P c → (∀ a, keeps P (k a)) → keeps P (c ≫= k).
Proof.
  intros Hc Hk st HP. rewrite bind_eq. specialize (Hc st HP).
  destruct (c st) as [[a st1] log1]. specialize (Hk a st1 Hc).
  by destruct (k a st1) as [[b st2] log2].
Qed.

Lemma keeps_process_json_entry entry_data timestamp :
  keeps P (process_json_entry entry_data timestamp).
Proof. intros st HP. apply (P_step st (entry_data, timestamp) HP). Qed.

#[local] Hint Resolve keeps_ret keeps_tell keeps_logging keeps_update_stats
  keeps_process_json_entry : keeps.

Lemma keeps_count_entry timestamp counts entry :
  keeps P (count_entry timestamp counts entry).
Proof.
  destruct counts as [[? ?] ?]. unfold count_entry.
  apply keeps_bind; [auto with keeps|].
  intros [is_new is_updated]. apply keeps_ret.
Qed.

#[local] Hint Resolve keeps_count_entry : keeps.

Lemma keeps_for_entries timestamp counts data :
  keeps P (for_entries timestamp counts data).
Proof.
  revert counts. induction data as [|entry data IH]; intros counts; simpl.
  - auto with keeps.
  - apply keeps_bind; auto with keeps.
Qed.

#[local] Hint Resolve keeps_for_entries : keeps.

Lemma keeps_process_data timestamp counts data :
  keeps P (process_data timestamp counts data).
Proof. destruct data; simpl; auto with keeps. Qed.

#[local] Hint Resolve keeps_process_data : keeps.

Lemma keeps_for_members timestamp counts json_files :
  keeps P (for_members timestamp counts json_files).
Proof.
  revert counts.
  induction json_files as [|m json_files IH]; intros counts; simpl.
  - auto with keeps.
  - apply keeps_bind; [|auto].
    unfold process_member. destruct (member_content m);
      [apply keeps_bind; auto with keeps ..| auto with keeps].
Qed.

#[local] Hint Resolve keeps_for_members : keeps.

Lemma keeps_process_archive utcoffset a : keeps P (process_archive utcoffset a).
Proof.
  unfold process_archive. apply keeps_bind; [auto with keeps|].
  intros timestamp. destruct (archive_members a).
  - apply keeps_bind; [auto with keeps|]. intros counts.
    apply keeps_bind; [auto with keeps|]. intros _.
    apply keeps_bind; auto with keeps.
  - apply keeps_bind; auto with keeps.
Qed.

Lemma keeps_process_json_file utcoffset f :
  keeps P (process_json_file utcoffset f).
Proof.
  unfold process_json_file. apply keeps_bind; [auto with keeps|].
  intros timestamp. destruct (json_content f).
  - apply keeps_bind; auto with keeps.
  - apply keeps_bind; auto with keeps.
  - apply keeps_bind; [auto with keeps|]. intros counts.
    apply keeps_bind; [auto with keeps|]. intros _.
    apply keeps_bind; auto with keeps.
Qed.

#[local] Hint Resolve keeps_process_archive keeps_process_json_file : keeps.

(** The whole run keeps what every step keeps. *)
Lemma keeps_run utcoffset archives json_files :
  keeps P (run utcoffset archives json_files).
Proof.
  unfold run, get_archive_files, get_json_files.
  apply keeps_bind; [auto with keeps|]. intros _.
  apply keeps_bind; [auto with keeps|]. intros _.
  apply keeps_bind; intros.
  - induction archives as [|a archives IH]; simpl; [auto with keeps|].
    apply keeps_bind; auto with keeps.
  - induction json_files as [|f json_files IH]; simpl; [auto with keeps|].
    apply keeps_bind; auto with keeps.
Qed.

End Keeps.

(** X21. A run over any archives and files keeps the invariant of the
    table: when every row has [first_seen <= last_seen] (both present) and
    [report_count >= 1] before the run, every row has them after it, bad
    files and failing archives included. *)
Corollary run_store_ok utcoffset archives json_files st :
  store_ok st → store_ok (run utcoffset archives json_files st).1.2.
Proof.
  exact (keeps_run
           (fun g => ∀ app_id row, g !! app_id = Some row → row_ok row)
           step_store_ok utcoffset archives json_files st).
Qed.

Lemma run_store_ok_witness :
  store_ok (init ∅) ∧
  store_ok (run (fun _ => 0)
                [mkArchive "reports_feb_2020.tar.gz" 0 None]
                [mkJsonFile "a.json" 0
                   (Data (JObject (mkEntry (Some "123") (Some "Foo") None)))]
                (init ∅)).1.2.
Proof.
  assert (H : store_ok (init ∅)).
  { intros app_id row. unfold init; simpl. by rewrite lookup_empty. }
  split; [exact H|].
  exact (run_store_ok (fun _ => 0) _ _ (init ∅) H).
Defined.

(** X22. A run over any archives and files deletes no row and rewrites no
    title: every row of the table before the run is a row after it, with the
    title it had. *)
Corollary run_keeps_title utcoffset archives json_files st app_id row :
  games st !! app_id = Some row →
  ∃ row', games (run utcoffset archives json_files st).1.2 !! app_id
            = Some row' ∧
          Extractor.title row' = Extractor.title row.
Proof.
  intros Hrow.
  refine (keeps_run (fun g => ∃ row', g !! app_id = Some row' ∧
                              Extractor.title row' = Extractor.title row)
                    _ utcoffset archives json_files st _).
  - intros st' obs (row1 & Hrow1 & Ht1).
    destruct (step_keeps_title st' obs app_id row1 Hrow1) as (r & Hr & Ht).
    exists r. split; [done | congruence].
  - by exists row.
Qed.

Lemma run_keeps_title_witness :
  games (init {["1" := mkGame "T" None None 1]}) !! "1" =
    Some (mkGame "T" None None 1) ∧
  ∃ row',
    games (run (fun _ => 0) []
               [mkJsonFile "a.json" 0
                  (Data (JObject (mkEntry (Some "1") (Some "U") None)))]
               (init {["1" := mkGame "T" None None 1]})).1.2 !! "1"
      = Some row' ∧
    Extractor.title row' = "T".
Proof.
  assert (H : games (init {["1" := mkGame "T" None None 1]}) !! "1"
              = Some (mkGame "T" None None 1)) by apply lookup_singleton_eq.
  split; [exact H|].
  exact (run_keeps_title (fun _ => 0) _ _ _ "1" _ H).
Defined.

End Walker.

(** * Further properties *)

(** ** More on the reconciliation step *)

Section Observations.

Import Extractor.

Implicit Types (st : State) (entry_data : Entry) (row : GameRecord).
Implicit Types (timestamp ts : option Z) (app_id title : string).

(** The three outcomes of a step: nothing changed (an entry skipped, or an
    exception logged), a row inserted, a row updated. *)
Lemma process_json_entry_cases entry_data timestamp st :
  let ts := default timestamp (entry_timestamp entry_data) in
  (∃ log, process_json_entry entry_data timestamp st =
          ((false, false), st, log)) ∨
  (∃ app_id title,
     normalized entry_data timestamp app_id title ts ∧
     games st !! app_id = None ∧
     Sqlite.storable ts = true ∧
     process_json_entry entry_data timestamp st =
     ((true, false),
      mkState (<[app_id := mkGame title ts ts 1]> (games st))
              ({[app_id]} ∪ processed_games st) (stats st), [])) ∨
  (∃ app_id title row older newer,
     normalized entry_data timestamp app_id title ts ∧
     games st !! app_id = Some row ∧
     Py.and_ (Py.truth ts) (Py.lt ts (first_seen row)) = inr older ∧
     Py.and_ (Py.truth ts) (Py.gt ts (last_seen row)) = inr newer ∧
     process_json_entry entry_data timestamp st =
     ((false, true),
      mkState (<[app_id := mkGame (Extractor.title row)
                                  (if older then ts else first_seen row)
                                  (if newer then ts else last_seen row)
                                  (report_count row + 1)]> (games st))
              ({[app_id]} ∪ processed_games st) (stats st), [])).
Proof.
  intros ts. unfold process_json_entry, process_json_entry_try.
  destruct (entry_appId entry_data) as [app_id|] eqn:Hid; [|left; eauto].
  destruct (entry_title entry_data) as [title|] eqn:Ht; [|left; eauto].
  destruct (String.eqb_spec app_id "") as [|Hid']; [left; eauto|].
  destruct (String.eqb_spec title "") as [|Ht']; [left; eauto|]. simpl.
  assert (Hn : normalized entry_data timestamp app_id title ts)
    by (by repeat split).
  fold ts. destruct (games st !! app_id) as [row|] eqn:Hrow.
  - destruct (Py.and_ _ (Py.lt _ _)) as [e|older] eqn:Ho; [left; eauto|].
    simpl.
    destruct (Py.and_ _ (Py.gt _ _)) as [e|newer] eqn:Hw; [left; eauto|].
    simpl. destruct (Sqlite.bind _) as [e|[]]; simpl; [left; eauto|].
    right; right. exists app_id, title, row, older, newer.
    by repeat split.
  - rewrite bind_insert.
    destruct (Sqlite.storable ts) eqn:Hts; simpl; [|left; eauto].
    right; left. exists app_id, title. by repeat split.
Qed.

(** The bounds an update writes, when the row has both. *)
Lemma widened_bounds ts f l older newer :
  Py.and_ (Py.truth ts) (Py.lt ts (Some f)) = inr older →
  Py.and_ (Py.truth ts) (Py.gt ts (Some l)) = inr newer →
  (if older then ts else Some f) = Some (widen_lo ts f) ∧
  (if newer then ts else Some l) = Some (widen_hi ts l).
Proof.
  unfold widen_lo, widen_hi. destruct ts as [t|]; simpl.
  - destruct (t =? 0); simpl.
    + by intros [= <-] [= <-].
    + intros [= <-] [= <-].
      destruct (Z.ltb_spec t f), (Z.ltb_spec l t); split; f_equal; lia.
  - by intros [= <-] [= <-].
Qed.

Lemma widen_lo_le ts f : widen_lo ts f ≤ f.
Proof. unfold widen_lo. destruct ts as [t|]; [destruct (t =? 0)|]; lia. Qed.

Lemma widen_hi_ge ts l : l ≤ widen_hi ts l.
Proof. unfold widen_hi. destruct ts as [t|]; [destruct (t =? 0)|]; lia. Qed.



(** X1. An entry without [appId] or without [title], missing or empty, is
    skipped without a word in the log: the state stays as it was, and the
    loop still counts the entry as processed, adding nothing to the games
    added or updated. *)
Theorem skipped_entry_is_counted timestamp (counts : Counts) entry_data st :
  entry_appId entry_data = None ∨ entry_appId entry_data = Some EmptyString ∨
  entry_title entry_data = None ∨ entry_title entry_data = Some EmptyString →
  count_entry timestamp counts entry_data st =
  ((counts.1.1 + 1, counts.1.2, counts.2), st, []).
Proof.
  intros Hskip. destruct counts as [[e a] u]. unfold count_entry.
  rewrite bind_eq. unfold process_json_entry, process_json_entry_try.
  destruct (entry_appId entry_data) as [app_id|],
           (entry_title entry_data) as [title|]; try done.
  destruct (String.eqb_spec app_id "") as [|Hid]; [done|].
  destruct (String.eqb_spec title "") as [|Ht]; [done|].
  destruct Hskip as [?|[?|[?|?]]]; congruence.
Qed.

Lemma skipped_entry_is_counted_witness :
  (entry_appId (mkEntry (Some "") (Some "Foo") None) = None ∨
   entry_appId (mkEntry (Some "") (Some "Foo") None) = Some EmptyString ∨
   entry_title (mkEntry (Some "") (Some "Foo") None) = None ∨
   entry_title (mkEntry (Some "") (Some "Foo") None) = Some EmptyString) ∧
  count_entry (Some 7) (3, 1, 2) (mkEntry (Some "") (Some "Foo") None)
              (init ∅) = ((4, 1, 2), init ∅, []).
Proof.
  assert (H : entry_appId (mkEntry (Some "") (Some "Foo") None) = None ∨
              entry_appId (mkEntry (Some "") (Some "Foo") None)
              = Some EmptyString ∨
              entry_title (mkEntry (Some "") (Some "Foo") None) = None ∨
              entry_title (mkEntry (Some "") (Some "Foo") None)
              = Some EmptyString).
  { right. left. reflexivity. }
  split; [exact H|].
  exact (skipped_entry_is_counted (Some 7) (3, 1, 2) _ (init ∅) H).
Defined.

(** X2. The timestamp of the file name is only a fallback.  An entry that
    has a [timestamp] member is processed the same way under every fallback,
    even when the member is [null]; an entry that has none is processed as if
    it carried the fallback itself. *)
Theorem own_timestamp_overrides_fallback entry_data st :
  (∀ v timestamp1 timestamp2,
     entry_timestamp entry_data = Some v →
     process_json_entry entry_data timestamp1 st =
     process_json_entry entry_data timestamp2 st) ∧
  (∀ timestamp1 timestamp2,
     entry_timestamp entry_data = None →
     process_json_entry entry_data timestamp1 st =
     process_json_entry
       (mkEntry (entry_appId entry_data) (entry_title entry_data)
                (Some timestamp1)) timestamp2 st).
Proof.
  split.
  - intros v t1 t2 Hv. unfold process_json_entry, process_json_entry_try.
    by rewrite Hv.
  - intros t1 t2 Hv. unfold process_json_entry, process_json_entry_try.
    by rewrite Hv.
Qed.

Lemma own_timestamp_overrides_fallback_witness :
  entry_timestamp (mkEntry (Some "1") (Some "T") (Some None)) = Some None ∧
  process_json_entry (mkEntry (Some "1") (Some "T") (Some None)) (Some 5)
                     (init ∅) =
  process_json_entry (mkEntry (Some "1") (Some "T") (Some None)) (Some 9)
                     (init ∅).
Proof.
  split; [reflexivity|].
  exact (proj1 (own_timestamp_overrides_fallback
                  (mkEntry (Some "1") (Some "T") (Some None)) (init ∅))
               None (Some 5) (Some 9) eq_refl).
Defined.

(** X3. A step never touches the statistics, and it leaves every row but
    the one of the entry's own [appId] exactly as it was. *)
Theorem step_touches_one_row st (obs : Entry * option Z) :
  stats (step st obs) = stats st ∧
  (∀ app_id, entry_appId obs.1 ≠ Some app_id →
             games (step st obs) !! app_id = games st !! app_id).
Proof.
  destruct obs as [entry_data timestamp]. unfold step; simpl.
  destruct (process_json_entry_cases entry_data timestamp st)
    as [[log ->] | [(id & title & Hn & _ & _ & ->) |
                    (id & title & row & older & newer & Hn & _ & _ & _ & ->)]];
    simpl; (split; [done|]); try done.
  - intros app_id Hne. destruct Hn as (Hid & _).
    rewrite lookup_insert_ne; [done | congruence].
  - intros app_id Hne. destruct Hn as (Hid & _).
    rewrite lookup_insert_ne; [done | congruence].
Qed.

Lemma step_touches_one_row_witness :
  entry_appId (mkEntry (Some "2") (Some "U") None, Some 7).1 ≠ Some "1" ∧
  games (step (init {["1" := mkGame "T" None None 1]})
              (mkEntry (Some "2") (Some "U") None, Some 7)) !! "1" =
  games (init {["1" := mkGame "T" None None 1]}) !! "1".
Proof.
  assert (Hne : entry_appId (mkEntry (Some "2") (Some "U") None, Some 7).1
                ≠ Some "1") by discriminate.
  split; [exact Hne|].
  exact (proj2 (step_touches_one_row
                  (init {["1" := mkGame "T" None None 1]})
                  (mkEntry (Some "2") (Some "U") None, Some 7)) "1" Hne).
Defined.

(** One step on a row that has both bounds. *)
Lemma step_widens st (obs : Entry * option Z) app_id row f l :
  games st !! app_id = Some row →
  first_seen row = Some f → last_seen row = Some l →
  ∃ row' f' l',
    games (step st obs) !! app_id = Some row' ∧
    first_seen row' = Some f' ∧ last_seen row' = Some l' ∧
    f' ≤ f ∧ l ≤ l' ∧
    report_count row ≤ report_count row' ≤ report_count row + 1.
Proof.
  intros Hrow Hf Hl. destruct obs as [entry_data timestamp].
  unfold step; simpl.
  destruct (process_json_entry_cases entry_data timestamp st)
    as [[log ->] | [(id & title & Hn & Hnone & _ & ->) |
                    (id & title & row0 & older & newer & Hn & Hrow0 & Ho & Hw
                     & ->)]]; simpl.
  - exists row, f, l. repeat split; (done || lia).
  - assert (id ≠ app_id) by congruence. rewrite lookup_insert_ne by done.
    exists row, f, l. repeat split; (done || lia).
  - destruct (decide (id = app_id)) as [->|Hne].
    + rewrite lookup_insert_eq. simplify_eq. rewrite Hf in Ho. rewrite Hl in Hw.
      destruct (widened_bounds _ _ _ _ _ Ho Hw) as [Hf' Hl'].
      pose proof (widen_lo_le (default timestamp (entry_timestamp entry_data))
                              f).
      pose proof (widen_hi_ge (default timestamp (entry_timestamp entry_data))
                              l).
      eexists _, _, _. split; [reflexivity|]. simpl.
      rewrite Hf, Hl. repeat split; (done || lia).
    + rewrite lookup_insert_ne by done.
      exists row, f, l. repeat split; (done || lia).
Qed.

(** X4. The bounds of a row only widen and its count only grows: through
    any sequence of steps, a row that has both bounds keeps having both, its
    [first_seen] never goes up, its [last_seen] never goes down, and its
    [report_count] goes up by at most one for each step. *)
Theorem bounds_only_widen st (later : list (Entry * option Z)) app_id row f l :
  games st !! app_id = Some row →
  first_seen row = Some f → last_seen row = Some l →
  ∃ row' f' l',
    games (foldl step st later) !! app_id = Some row' ∧
    first_seen row' = Some f' ∧ last_seen row' = Some l' ∧
    f' ≤ f ∧ l ≤ l' ∧
    report_count row ≤ report_count row'
      ≤ report_count row + Z.of_nat (length later).
Proof.
  revert st row f l.
  induction later as [|obs later IH]; intros st row f l Hrow Hf Hl; simpl.
  - exists row, f, l. repeat split; (done || lia).
  - destruct (step_widens st obs app_id row f l Hrow Hf Hl)
      as (row1 & f1 & l1 & Hrow1 & Hf1 & Hl1 & ? & ? & ?).
    destruct (IH _ _ _ _ Hrow1 Hf1 Hl1)
      as (row' & f' & l' & Hrow' & Hf' & Hl' & ? & ? & ?).
    exists row', f', l'. repeat split; (done || lia).
Qed.

Lemma bounds_only_widen_witness :
  games (init {["1" := mkGame "T" (Some 5) (Some 9) 1]}) !! "1" =
    Some (mkGame "T" (Some 5) (Some 9) 1) ∧
  ∃ row' f' l',
    games (foldl step (init {["1" := mkGame "T" (Some 5) (Some 9) 1]})
                 [(mkEntry (Some "1") (Some "T") (Some (Some 3)), None)])
      !! "1" = Some row' ∧
    first_seen row' = Some f' ∧ last_seen row' = Some l' ∧
    f' ≤ 5 ∧ 9 ≤ l' ∧ 1 ≤ report_count row' ≤ 1 + 1.
Proof.
  assert (Hrow : games (init {["1" := mkGame "T" (Some 5) (Some 9) 1]}) !! "1"
                 = Some (mkGame "T" (Some 5) (Some 9) 1))
    by apply lookup_singleton_eq.
  split; [exact Hrow|].
  exact (bounds_only_widen _
           [(mkEntry (Some "1") (Some "T") (Some (Some 3)), None)]
           "1" _ 5 9 Hrow eq_refl eq_refl).
Defined.



(** X9. After a valid observation the table has a row for its [app_id]
    exactly when it had one before, which the step updated or left as it
    was, or the timestamp is [null] or an integer SQLite stores, so that the
    step could insert the row. *)
Theorem observed_game_is_present st entry_data timestamp app_id title ts :
  normalized entry_data timestamp app_id title ts →
  is_Some (games (step st (entry_data, timestamp)) !! app_id) ↔
  is_Some (games st !! app_id) ∨ Sqlite.storable ts = true.
Proof.
  intros Hn. destruct (games st !! app_id) as [row|] eqn:Hrow.
  - destruct (step_keeps_title st (entry_data, timestamp) app_id row Hrow)
      as (row' & -> & _). split; [by left | by eexists].
  - unfold step; simpl. destruct (Sqlite.storable ts) eqn:Hts.
    + rewrite (process_absent _ _ _ _ _ _ Hn Hrow Hts). simpl.
      rewrite lookup_insert_eq. split; [by right | by eexists].
    + rewrite (process_absent_overflow _ _ _ _ _ _ Hn Hrow Hts). simpl.
      rewrite Hrow. split; [by intros [? ?] | by intros [[? ?]|?]].
Qed.

Lemma observed_game_is_present_witness :
  normalized (mkEntry (Some "123") (Some "Foo") None) (Some 7)
             "123" "Foo" (Some 7) ∧
  (is_Some (games (init ∅) !! "123") ∨ Sqlite.storable (Some 7) = true) ∧
  is_Some (games (step (init ∅)
                       (mkEntry (Some "123") (Some "Foo") None, Some 7))
             !! "123").
Proof.
  assert (Hn : normalized (mkEntry (Some "123") (Some "Foo") None) (Some 7)
                 "123" "Foo" (Some 7)).
  { unfold normalized; simpl. repeat split; discriminate. }
  assert (Hts : is_Some (games (init ∅) !! "123")
                ∨ Sqlite.storable (Some 7) = true) by (by right).
  split; [exact Hn|]. split; [exact Hts|].
  exact (proj2 (observed_game_is_present (init ∅) _ _ "123" "Foo" _ Hn) Hts).
Defined.

(** X23. An observation whose timestamp is an integer SQLite does not
    store is always dropped, whatever the table holds: the statement that
    would write it raises [OverflowError] when it binds its parameters, or
    the comparison against a [null] bound raises [TypeError] before; either
    way the error is logged, the state stays as it was, and the step answers
    [(False, False)]. *)
Theorem unstorable_observation_is_dropped st entry_data timestamp app_id
    title ts :
  normalized entry_data timestamp app_id title ts →
  Sqlite.storable ts = false →
  ∃ e, (e = Py.OverflowError ∨ e = Py.TypeError) ∧
       process_json_entry entry_data timestamp st =
       ((false, false), st, [ErrorProcessingEntry e]).
Proof.
  intros Hn Hts. destruct (games st !! app_id) as [row|] eqn:Hrow.
  - destruct ts as [t|]; [|done].
    assert (Ht : (t =? 0) = false).
    { unfold Sqlite.storable, Sqlite.fits in Hts. lia. }
    unfold process_json_entry.
    rewrite (try_normalized _ _ _ _ _ _ Hn), Hrow. simpl. rewrite Ht. simpl.
    destruct (first_seen row) as [f|]; simpl; [|eauto].
    destruct (last_seen row) as [l|]; simpl; [|eauto].
    exists Py.OverflowError. split; [by left|].
    unfold Sqlite.bind.
    destruct (forallb _ _) eqn:Hall; [|done]. exfalso.
    simpl in Hall. unfold Sqlite.storable, Sqlite.fits in Hts.
    destruct (Z.ltb_spec t f), (Z.ltb_spec l t);
      unfold Sqlite.storable, Sqlite.fits in Hall; lia.
  - exists Py.OverflowError. split; [by left|].
    by apply (process_absent_overflow _ _ _ app_id title ts).
Qed.

Lemma unstorable_observation_is_dropped_witness :
  normalized (mkEntry (Some "1") (Some "T") None) (Some 9223372036854775808)
             "1" "T" (Some 9223372036854775808) ∧
  Sqlite.storable (Some 9223372036854775808) = false ∧
  ∃ e, (e = Py.OverflowError ∨ e = Py.TypeError) ∧
       process_json_entry (mkEntry (Some "1") (Some "T") None)
                          (Some 9223372036854775808)
                          (init {["1" := mkGame "T" (Some 5) (Some 9) 1]}) =
       ((false, false), init {["1" := mkGame "T" (Some 5) (Some 9) 1]},
        [ErrorProcessingEntry e]).
Proof.
  assert (Hn : normalized (mkEntry (Some "1") (Some "T") None)
                 (Some 9223372036854775808) "1" "T"
                 (Some 9223372036854775808)).
  { unfold normalized; simpl. repeat split; discriminate. }
  assert (Hts : Sqlite.storable (Some 9223372036854775808) = false)
    by reflexivity.
  split; [exact Hn|]. split; [exact Hts|].
  exact (unstorable_observation_is_dropped
           (init {["1" := mkGame "T" (Some 5) (Some 9) 1]}) _ _ "1" "T" _
           Hn Hts).
Defined.

End Observations.

(** ** The accounts of a run *)

Section Accounts.

Import Extractor Querier Accounting.

Implicit Types (st : State) (counts : Counts) (timestamp : option Z).
Implicit Types (g db : gmap string GameRecord).

Lemma total_reports_insert_None g app_id row :
  g !! app_id = None →
  total_reports (<[app_id := row]> g) = report_count row + total_reports g.
Proof.
  intros Hnone. unfold total_reports.
  rewrite map_fold_insert_L; [done | intros; simpl; lia | done].
Qed.

Lemma total_reports_delete g app_id row :
  g !! app_id = Some row →
  total_reports g = report_count row + total_reports (delete app_id g).
Proof.
  intros Hrow. unfold total_reports.
  rewrite (map_fold_delete_L _ _ app_id row g); [done | intros; simpl; lia | done].
Qed.

Lemma total_reports_insert_Some g app_id row row' :
  g !! app_id = Some row →
  total_reports (<[app_id := row']> g) =
  total_reports g - report_count row + report_count row'.
Proof.
  intros Hrow. rewrite <- (insert_delete_eq g).
  rewrite total_reports_insert_None by apply lookup_delete_eq.
  rewrite (total_reports_delete g app_id row Hrow). lia.
Qed.

Lemma tallies_refl counts st log : tallies 0 counts st (counts, st, log).
Proof. unfold tallies. repeat split; (done || lia). Qed.

Lemma tallies_trans n m c0 st c1 st1 log1 c2 st2 log2 log :
  tallies n c0 st (c1, st1, log1) → tallies m c1 st1 (c2, st2, log2) →
  tallies (n + m) c0 st (c2, st2, log).
Proof.
  unfold tallies.
  intros (Hs1 & ? & ? & ? & ? & ? & ? & Hp1) (Hs2 & ? & ? & ? & ? & ? & ? & Hp2).
  repeat split; try lia; [congruence | auto].
Qed.

Lemma count_entry_tallies timestamp counts entry st :
  tallies 1 counts st (count_entry timestamp counts entry st).
Proof.
  destruct counts as [[e a] u]. unfold count_entry. rewrite bind_eq.
  destruct (process_json_entry_cases entry timestamp st)
    as [[log ->] | [(id & title & Hn & Hnone & _ & ->) |
                    (id & title & row & older & newer & Hn & Hrow & _ & _
                     & ->)]]; unfold tallies; simpl.
  - repeat split; (done || lia).
  - rewrite (map_size_insert_None _ _ _ Hnone).
    rewrite (total_reports_insert_None _ _ _ Hnone). simpl.
    repeat split; try (done || lia).
    intros Hsub. rewrite dom_insert_L. set_solver.
  - rewrite (map_size_insert_Some _ _ _ (mk_is_Some _ _ Hrow)).
    rewrite (total_reports_insert_Some _ _ _ _ Hrow). simpl.
    repeat split; try (done || lia).
    intros Hsub. rewrite dom_insert_L. set_solver.
Qed.

Lemma for_entries_tallies timestamp counts data st :
  tallies (Z.of_nat (length data)) counts st
          (for_entries timestamp counts data st).
Proof.
  revert counts st. induction data as [|entry data IH]; intros counts st.
  - apply tallies_refl.
  - cbn [for_entries]. rewrite bind_eq.
    pose proof (count_entry_tallies timestamp counts entry st) as H1.
    destruct (count_entry timestamp counts entry st) as [[c1 st1] log1].
    pose proof (IH c1 st1) as H2.
    destruct (for_entries timestamp c1 data st1) as [[c2 st2] log2].
    replace (Z.of_nat (length (entry :: data)))
      with (1 + Z.of_nat (length data)) by (simpl; lia).
    by eapply tallies_trans.
Qed.

Lemma process_member_tallies timestamp counts m st :
  tallies (entries_of (member_content m)) counts st
          (process_member timestamp counts m st).
Proof.
  unfold process_member. destruct (member_content m) as [| |[data|entry]].
  - apply tallies_refl.
  - apply tallies_refl.
  - apply for_entries_tallies.
  - apply count_entry_tallies.
Qed.

Lemma for_members_tallies timestamp counts json_files st :
  tallies (sum_of (fun m => entries_of (member_content m)) json_files)
          counts st (for_members timestamp counts json_files st).
Proof.
  revert counts st.
  induction json_files as [|m json_files IH]; intros counts st.
  - apply tallies_refl.
  - cbn [for_members sum_of foldr]. rewrite bind_eq.
    pose proof (process_member_tallies timestamp counts m st) as H1.
    destruct (process_member timestamp counts m st) as [[c1 st1] log1].
    pose proof (IH c1 st1) as H2.
    destruct (for_members timestamp c1 json_files st1) as [[c2 st2] log2].
    by eapply tallies_trans.
Qed.

(** The statistics after the counters of a file or an archive are added. *)
Lemma accounted_add db na nf ne n st c1 st1 log
    (finish : Extractor.Stats → Extractor.Stats) da df :
  accounted db na nf ne st →
  tallies n (0, 0, 0) st (c1, st1, log) →
  (∀ s, processed_archives (finish s) = processed_archives s + da ∧
        processed_json_files (finish s) = processed_json_files s + df ∧
        total_entries_processed (finish s) = total_entries_processed s ∧
        total_games_added (finish s) = total_games_added s ∧
        total_games_updated (finish s) = total_games_updated s) →
  accounted db (na + da) (nf + df) (ne + n)
    (mkState (games st1) (processed_games st1)
             (finish (add_counts c1 (stats st1)))).
Proof.
  intros Hacc Ht Hdone. destruct c1 as [[e a] u].
  destruct Hacc as (? & ? & ? & ? & ? & ? & ? & ? & ?).
  unfold tallies in Ht. simpl in Ht.
  destruct Ht as (Hs & ? & ? & ? & ? & ? & ? & ?).
  destruct (Hdone (add_counts (e, a, u) (stats st1)))
    as (Hd1 & Hd2 & Hd3 & Hd4 & Hd5).
  unfold accounted. cbn [games processed_games stats].
  rewrite Hd1, Hd2, Hd3, Hd4, Hd5, Hs. simpl. repeat split; (lia || auto).
Qed.

Lemma process_archive_accounted utcoffset db na nf ne a st :
  accounted db na nf ne st →
  accounted db (na + opened a) nf (ne + archive_entries a)
            (process_archive utcoffset a st).1.2.
Proof.
  intros Hacc. unfold process_archive, opened, archive_entries.
  rewrite bind_eq. cbn [logging].
  destruct (archive_members a) as [json_files|].
  - rewrite bind_eq.
    pose proof (for_members_tallies
                  (archive_timestamp utcoffset (archive_now a)
                                     (archive_name a)).1
                  (0, 0, 0) json_files st) as Ht.
    destruct (for_members _ _ json_files st) as [[c1 st1] log1]. simpl.
    replace nf with (nf + 0) by lia.
    apply (accounted_add db na nf ne _ st c1 st1 log1 archive_done 1 0 Hacc Ht).
    intros s. simpl. repeat split; lia.
  - simpl. by rewrite !Z.add_0_r.
Qed.

Lemma process_json_file_accounted utcoffset db na nf ne f st :
  accounted db na nf ne st →
  accounted db na (nf + loaded f) (ne + entries_of (json_content f))
            (process_json_file utcoffset f st).1.2.
Proof.
  intros Hacc. unfold process_json_file, loaded.
  rewrite bind_eq. cbn [logging].
  destruct (json_content f) as [| |data] eqn:Hc.
  - simpl. by rewrite !Z.add_0_r.
  - simpl. by rewrite !Z.add_0_r.
  - rewrite bind_eq.
    assert (Ht : tallies (entries_of (Data data)) (0, 0, 0) st
                   (process_data
                      (file_timestamp utcoffset (json_now f) (json_name f)).1
                      (0, 0, 0) data st)).
    { destruct data; [apply for_entries_tallies | apply count_entry_tallies]. }
    destruct (process_data _ _ data st) as [[c1 st1] log1]. simpl.
    replace na with (na + 0) by lia.
    apply (accounted_add db na nf ne _ st c1 st1 log1 json_file_done 0 1
                         Hacc Ht).
    intros s. simpl. repeat split; lia.
Qed.

Lemma for_archives_accounted utcoffset db na nf ne archives st :
  accounted db na nf ne st →
  accounted db (na + sum_of opened archives) nf
            (ne + sum_of archive_entries archives)
            (for_archives utcoffset archives st).1.2.
Proof.
  revert na ne st. induction archives as [|a archives IH]; intros na ne st Hacc.
  - simpl. by rewrite !Z.add_0_r.
  - cbn [for_archives sum_of foldr]. rewrite bind_eq.
    pose proof (process_archive_accounted utcoffset db na nf ne a st Hacc) as H1.
    destruct (process_archive utcoffset a st) as [[c1 st1] log1].
    pose proof (IH _ _ st1 H1) as H2.
    destruct (for_archives utcoffset archives st1) as [[[] st2] log2].
    simpl in *. by rewrite !Z.add_assoc.
Qed.

Lemma for_json_files_accounted utcoffset db na nf ne json_files st :
  accounted db na nf ne st →
  accounted db na (nf + sum_of loaded json_files)
            (ne + sum_of (fun f => entries_of (json_content f)) json_files)
            (for_json_files utcoffset json_files st).1.2.
Proof.
  revert nf ne st.
  induction json_files as [|f json_files IH]; intros nf ne st Hacc.
  - simpl. by rewrite !Z.add_0_r.
  - cbn [for_json_files sum_of foldr]. rewrite bind_eq.
    pose proof (process_json_file_accounted utcoffset db na nf ne f st Hacc)
      as H1.
    destruct (process_json_file utcoffset f st) as [[c1 st1] log1].
    pose proof (IH _ _ st1 H1) as H2.
    destruct (for_json_files utcoffset json_files st1) as [[[] st2] log2].
    simpl in *. by rewrite !Z.add_assoc.
Qed.

(** The accounts of a whole run on a fresh extractor. *)
Lemma run_accounted utcoffset db archives json_files :
  let st := (run utcoffset archives json_files (init db)).1.2 in
  total_archives (stats st) = Z.of_nat (length archives) ∧
  total_json_files (stats st) = Z.of_nat (length json_files) ∧
  accounted db (sum_of opened archives) (sum_of loaded json_files)
            (sum_of archive_entries archives +
             sum_of (fun f => entries_of (json_content f)) json_files)
            st.
Proof.
  intros st. subst st. rewrite run_eq, bind_eq.
  assert (H0 : accounted db 0 0 0 (init db)).
  { unfold accounted, init; simpl. repeat split; (lia || set_solver). }
  pose proof (for_archives_accounted utcoffset db 0 0 0 archives _ H0) as H1.
  destruct (for_archives utcoffset archives (init db)) as [[[] st1] log1].
  cbn [fst snd] in H1. rewrite !Z.add_0_l in H1.
  pose proof (for_json_files_accounted utcoffset db _ _ _ json_files _ H1)
    as H2.
  rewrite !Z.add_0_l in H2.
  destruct (for_json_files utcoffset json_files st1) as [[[] st2] log2] eqn:Hfj.
  cbn [fst snd] in H2 |- *. split; [done|]. split; [done|]. exact H2.
Qed.

(** X6. The set of processed games never runs ahead of the table: after a
    run on a fresh extractor, every [app_id] in [processed_games] has a row
    in [games]. *)
Theorem processed_games_have_rows utcoffset db archives json_files :
  let st := (run utcoffset archives json_files (init db)).1.2 in
  processed_games st ⊆ dom (games st).
Proof.
  intros st. subst st.
  by destruct (run_accounted utcoffset db archives json_files)
    as (_ & _ & (_ & _ & _ & _ & _ & _ & _ & _ & Hsub)).
Qed.

(** X7. The statistics of a run agree with the table.  After a run on a
    fresh extractor over a table [db], the games added are the rows the
    table gained, the games added and updated together are the reports the
    table gained, summed over its rows, and they are at most the entries
    processed. *)
Theorem statistics_match_table utcoffset db archives json_files :
  let st := (run utcoffset archives json_files (init db)).1.2 in
  Z.of_nat (size (games st)) =
    Z.of_nat (size db) + total_games_added (stats st) ∧
  total_reports (games st) =
    total_reports db + total_games_added (stats st)
    + total_games_updated (stats st) ∧
  0 ≤ total_games_added (stats st) ∧ 0 ≤ total_games_updated (stats st) ∧
  total_games_added (stats st) + total_games_updated (stats st)
    ≤ total_entries_processed (stats st).
Proof.
  intros st. subst st.
  destruct (run_accounted utcoffset db archives json_files)
    as (_ & _ & (_ & _ & He & ? & ? & ? & ? & ? & _)).
  repeat split; (done || lia).
Qed.

(** X8. The counters of a run count what was read.  After a run on a fresh
    extractor, the totals are the numbers of archives and of loose files
    found; the archives processed are those that opened and the loose files
    processed those that loaded, a failed one being left out; and the
    entries processed are the entries of every payload that loaded, skipped
    entries included. *)
Theorem statistics_count_inputs utcoffset db archives json_files :
  let st := (run utcoffset archives json_files (init db)).1.2 in
  total_archives (stats st) = Z.of_nat (length archives) ∧
  total_json_files (stats st) = Z.of_nat (length json_files) ∧
  processed_archives (stats st) = sum_of opened archives ∧
  processed_json_files (stats st) = sum_of loaded json_files ∧
  total_entries_processed (stats st) =
    sum_of archive_entries archives +
    sum_of (fun f => entries_of (json_content f)) json_files.
Proof.
  intros st. subst st.
  destruct (run_accounted utcoffset db archives json_files)
    as (? & ? & (? & ? & ? & _)).
  by repeat split.
Qed.

(** *** The failure policy *)

Lemma sum_of_app {A} (f : A → Z) (l1 l2 : list A) :
  sum_of f (l1 ++ l2) = sum_of f l1 + sum_of f l2.
Proof. induction l1 as [|x l1 IH]; simpl; lia. Qed.

Lemma length_observations_of timestamp content :
  Z.of_nat (length (observations_of timestamp content)) = entries_of content.
Proof.
  destruct content as [| |[data|entry]]; simpl; try done.
  by rewrite length_fmap.
Qed.

Lemma length_archive_observations utcoffset a :
  Z.of_nat (length (archive_observations utcoffset a)) = archive_entries a.
Proof.
  unfold archive_observations, archive_entries.
  destruct (archive_members a) as [json_files|]; [|done].
  induction json_files as [|m json_files IH]; [done|].
  rewrite fmap_cons. cbn [concat sum_of foldr].
  rewrite length_app, Nat2Z.inj_add, length_observations_of.
  unfold sum_of in IH. by rewrite IH.
Qed.

(** The entries counted are the observations of the directory. *)
Lemma length_observations utcoffset archives json_files :
  Z.of_nat (length (observations utcoffset archives json_files)) =
  sum_of archive_entries archives +
  sum_of (fun f => entries_of (json_content f)) json_files.
Proof.
  unfold observations. rewrite length_app, Nat2Z.inj_add. f_equal.
  - induction archives as [|a archives IH]; [done|].
    rewrite fmap_cons. cbn [concat sum_of foldr].
    rewrite length_app, Nat2Z.inj_add, length_archive_observations.
    unfold sum_of in IH. by rewrite IH.
  - induction json_files as [|f json_files IH]; [done|].
    rewrite fmap_cons. cbn [concat sum_of foldr].
    rewrite length_app, Nat2Z.inj_add. unfold file_observations at 1.
    rewrite length_observations_of. unfold sum_of in IH. by rewrite IH.
Qed.

Lemma sum_of_loaded (json_files : list JsonFile) :
  Forall (fun f => ∃ data, json_content f = Data data) json_files →
  sum_of loaded json_files = Z.of_nat (length json_files).
Proof.
  induction 1 as [|f json_files [data Hf] _ IH]; [done|].
  cbn [sum_of foldr length]. unfold loaded at 1. rewrite Hf.
  unfold sum_of in IH. rewrite IH. lia.
Qed.

(** A loose file that does not load holds no observation. *)
Lemma observations_skip utcoffset archives fs1 name now fs2 :
  observations utcoffset archives
    (fs1 ++ mkJsonFile name now Malformed :: fs2) =
  observations utcoffset archives (fs1 ++ fs2).
Proof.
  unfold observations. f_equal.
  by rewrite !fmap_app, fmap_cons, !concat_app.
Qed.

(** C9. A bad input is logged and skipped, and the run goes on with the
    others.  A loose file with malformed JSON gives no entry and leaves the
    state as it was; the run over the files with it ends in the state of the
    run over the files without it, the total of files one more, and its log
    is the log of that run with the error of the bad file put in.  The same
    holds for a malformed file inside an archive, which leaves the counters
    of its archive as they were, and for an archive that fails to open or
    extract.  And every input that is not bad is processed: after a run over
    any archives and loose files, the table is the one that reconciling
    every entry of every member that loads of every archive that opens, then
    every entry of every loose file that loads, gives, each entry once, in
    the order of the directory and with the timestamp of its file name; the
    archives counted as processed are those that open, the loose files
    counted as processed those that load, and the entries counted are those
    entries.  So of N loose files of which one is malformed and the others
    load, N - 1 are counted as processed, and the table is the one the entries
    of those N - 1 files, after those of the archives, give. *)
Theorem bad_input_is_skipped utcoffset db :
  (∀ name now st,
     process_json_file utcoffset (mkJsonFile name now Malformed) st =
     ((0, 0, 0), st,
      (file_timestamp utcoffset now name).2 ++
      [ErrorProcessingJSONFile name Py.JSONDecodeError])) ∧
  (∀ archives fs1 name now fs2,
     let '(_, st', log') :=
       run utcoffset archives (fs1 ++ fs2) (init db) in
     ∃ log,
       run utcoffset archives
           (fs1 ++ mkJsonFile name now Malformed :: fs2) (init db) =
       (tt,
        retotal (total_archives (stats st'))
                (total_json_files (stats st') + 1) st',
        log) ∧
       inserted ((file_timestamp utcoffset now name).2 ++
                 [ErrorProcessingJSONFile name Py.JSONDecodeError])
                log' log) ∧
  (∀ as1 an anow ms1 name ms2 as2 json_files,
     let '(_, st', log') :=
       run utcoffset
           (as1 ++ mkArchive an anow (Some (ms1 ++ ms2)) :: as2)
           json_files (init db) in
     ∃ log,
       run utcoffset
           (as1 ++ mkArchive an anow
                     (Some (ms1 ++ mkMember name Malformed :: ms2)) :: as2)
           json_files (init db) = (tt, st', log) ∧
       inserted [InvalidJSON name] log' log) ∧
  (∀ as1 name now as2 json_files,
     let '(_, st', log') :=
       run utcoffset (as1 ++ as2) json_files (init db) in
     ∃ log,
       run utcoffset (as1 ++ mkArchive name now None :: as2)
           json_files (init db) =
       (tt,
        retotal (total_archives (stats st') + 1)
                (total_json_files (stats st')) st',
        log) ∧
       inserted ((archive_timestamp utcoffset now name).2 ++
                 [ErrorProcessingArchive name Py.TarError])
                log' log) ∧
  (∀ archives json_files,
     let st := (run utcoffset archives json_files (init db)).1.2 in
     same_table st (foldl step (init db)
                      (observations utcoffset archives json_files)) ∧
     processed_archives (stats st) = sum_of opened archives ∧
     processed_json_files (stats st) = sum_of loaded json_files ∧
     total_entries_processed (stats st) =
       Z.of_nat (length (observations utcoffset archives json_files))) ∧
  (∀ archives fs1 name now fs2,
     Forall (fun f => ∃ data, json_content f = Data data) (fs1 ++ fs2) →
     let json_files := fs1 ++ mkJsonFile name now Malformed :: fs2 in
     let st := (run utcoffset archives json_files (init db)).1.2 in
     processed_json_files (stats st) = Z.of_nat (length json_files) - 1 ∧
     total_entries_processed (stats st) =
       Z.of_nat (length (observations utcoffset archives (fs1 ++ fs2))) ∧
     same_table st (foldl step (init db)
                      (observations utcoffset archives (fs1 ++ fs2)))).
Proof.
  split; [intros; apply process_json_file_malformed|].
  split; [|split; [|split; [|split]]].
  - intros archives fs1 name now fs2. rewrite !run_eq, !bind_eq.
    destruct (for_archives utcoffset archives (init db)) as [[[] st1] log1].
    pose proof (for_json_files_skip utcoffset fs1 name now fs2 st1) as Hskip.
    destruct (for_json_files utcoffset (fs1 ++ fs2) st1) as [[[] st2] log2].
    destruct Hskip as (log & -> & Hins).
    eexists. split; [|by apply inserted_pre].
    unfold retotal; simpl. repeat f_equal.
    rewrite !length_app. simpl. lia.
  - intros as1 an anow ms1 name ms2 as2 json_files. rewrite !run_eq, !bind_eq.
    pose proof (for_archives_member_skip utcoffset as1 an anow ms1 name ms2
                  as2 (init db)) as Hskip.
    destruct (for_archives utcoffset
                (as1 ++ mkArchive an anow (Some (ms1 ++ ms2)) :: as2)
                (init db)) as [[[] st1] log1].
    destruct Hskip as (log & -> & Hins).
    destruct (for_json_files utcoffset json_files st1) as [[[] st2] log2].
    eexists. split; [|by apply inserted_post].
    by rewrite !length_app.
  - intros as1 name now as2 json_files. rewrite !run_eq, !bind_eq.
    pose proof (for_archives_skip utcoffset as1 name now as2 (init db))
      as Hskip.
    destruct (for_archives utcoffset (as1 ++ as2) (init db))
      as [[[] st1] log1].
    destruct Hskip as (log & -> & Hins).
    destruct (for_json_files utcoffset json_files st1) as [[[] st2] log2].
    eexists. split; [|by apply inserted_post].
    unfold retotal; simpl. repeat f_equal.
    rewrite !length_app. simpl. lia.
  - intros archives json_files st. subst st.
    split; [apply plays_run|].
    destruct (run_accounted utcoffset db archives json_files)
      as (_ & _ & (Ha & Hf & He & _)).
    rewrite length_observations. by repeat split.
  - intros archives fs1 name now fs2 Hload json_files st.
    subst st json_files.
    destruct (run_accounted utcoffset db archives
                (fs1 ++ mkJsonFile name now Malformed :: fs2))
      as (_ & _ & (_ & Hf & He & _)).
    rewrite Hf, He, length_observations. split; [|split].
    + rewrite sum_of_app. cbn [sum_of foldr]. unfold loaded at 2.
      cbn [json_content]. fold (sum_of loaded fs2).
      apply Forall_app in Hload as [H1 H2].
      rewrite (sum_of_loaded _ H1), (sum_of_loaded _ H2), length_app.
      simpl length. lia.
    + f_equal. rewrite !sum_of_app. cbn [sum_of foldr].
      by cbn [json_content entries_of].
    + rewrite <- (observations_skip utcoffset archives fs1 name now fs2).
      apply plays_run.
Qed.

Lemma bad_input_is_skipped_witness :
  Forall (fun f => ∃ data, json_content f = Data data)
         ([mkJsonFile "a.json" 0
             (Data (JObject (mkEntry (Some "123") (Some "Foo") None)))]
          ++ []) ∧
  processed_json_files
    (stats (run (fun _ => 0) []
              ([mkJsonFile "a.json" 0
                  (Data (JObject (mkEntry (Some "123") (Some "Foo") None)))]
               ++ mkJsonFile "b.json" 0 Malformed :: [])
              (init ∅)).1.2) =
  Z.of_nat (length ([mkJsonFile "a.json" 0
                       (Data (JObject (mkEntry (Some "123") (Some "Foo")
                                               None)))]
                    ++ mkJsonFile "b.json" 0 Malformed :: [])) - 1.
Proof.
  assert (H : Forall (fun f => ∃ data, json_content f = Data data)
                ([mkJsonFile "a.json" 0
                    (Data (JObject (mkEntry (Some "123") (Some "Foo") None)))]
                 ++ [])).
  { repeat constructor. by eexists. }
  split; [exact H|].
  exact (proj1 (proj2 (proj2 (proj2 (proj2 (proj2
           (bad_input_is_skipped (fun _ => 0) ∅)))))
           [] _ "b.json" 0 [] H)).
Defined.

End Accounts.

(** ** From the file name to the row *)

Section Dating.

Import Text Extractor.

Local Open Scope string_scope.
Local Open Scope Z_scope.

(** X10. The timestamp of a matching name depends on its month part and its
    year only: two names with the same month part and year get the same
    timestamp, whatever digits follow the month, whatever follows the
    extension, whether the name is that of an archive or of a loose file, and
    whatever the clock says. *)
Theorem timestamp_of_month_and_year (utcoffset : Z → Z)
    (ext1 ext2 : string) (now1 now2 : Z)
    (filename1 filename2 mon digits1 digits2 y : string) :
  matches ext1 filename1 mon digits1 y →
  matches ext2 filename2 mon digits2 y →
  (filename_timestamp utcoffset ext1 now1 filename1).1 =
  (filename_timestamp utcoffset ext2 now2 filename2).1.
Proof.
  intros Hm1 Hm2.
  destruct (lookup_month mon month_map) as [month_num|] eqn:Hmon.
  - destruct (decide (1 ≤ int y)) as [Hy|Hy].
    + by rewrite (timestamp_known_month utcoffset ext1 now1 _ _ _ _ _
                    Hm1 Hmon Hy),
                 (timestamp_known_month utcoffset ext2 now2 _ _ _ _ _
                    Hm2 Hmon Hy).
    + assert (int y = 0) as Hz.
      { destruct Hm1 as (_ & _ & _ & _ & _ & Hdig & Hlen).
        pose proof (int_four_digits y Hdig Hlen). lia. }
      by rewrite (timestamp_unknown utcoffset ext1 now1 _ _ _ _ Hm1
                    (or_intror Hz)),
                 (timestamp_unknown utcoffset ext2 now2 _ _ _ _ Hm2
                    (or_intror Hz)).
  - by rewrite (timestamp_unknown utcoffset ext1 now1 _ _ _ _ Hm1
                  (or_introl Hmon)),
               (timestamp_unknown utcoffset ext2 now2 _ _ _ _ Hm2
                  (or_introl Hmon)).
Qed.

Lemma matches_feb12_2020_json :
  matches ".json" "reports_feb12_2020.json" "feb" "12" "2020".
Proof. exists "". by repeat split. Qed.

Lemma timestamp_of_month_and_year_witness :
  matches ".tar.gz" "reports_feb_2020.tar.gz" "feb" "" "2020" ∧
  matches ".json" "reports_feb12_2020.json" "feb" "12" "2020" ∧
  (archive_timestamp (fun _ => 0) 5 "reports_feb_2020.tar.gz").1 =
  (file_timestamp (fun _ => 0) 9 "reports_feb12_2020.json").1.
Proof.
  split; [exact matches_feb_2020|]. split; [exact matches_feb12_2020_json|].
  exact (timestamp_of_month_and_year (fun _ => 0) ".tar.gz" ".json" 5 9
           _ _ "feb" "" "12" "2020" matches_feb_2020 matches_feb12_2020_json).
Defined.

Lemma days_before_month_bounds year month :
  1 ≤ month ≤ 12 → 0 ≤ Datetime.days_before_month year month ≤ 335.
Proof.
  intros Hm. unfold Datetime.days_before_month.
  assert (Hcases : month = 1 ∨ month = 2 ∨ month = 3 ∨ month = 4 ∨ month = 5
                   ∨ month = 6 ∨ month = 7 ∨ month = 8 ∨ month = 9
                   ∨ month = 10 ∨ month = 11 ∨ month = 12) by lia.
  destruct (Datetime.is_leap year);
    repeat (destruct Hcases as [-> | Hcases]; [simpl; lia|]);
    subst; simpl; lia.
Qed.

Lemma days_before_year_bounds year :
  1 ≤ year ≤ 9999 → 0 ≤ Datetime.days_before_year year ≤ 3700000.
Proof.
  intros Hy. unfold Datetime.days_before_year. cbv zeta.
  assert (0 ≤ (year - 1) / 4 ≤ year - 1)
    by (split; [apply Z.div_pos | apply Z.div_le_upper_bound]; lia).
  assert (0 ≤ (year - 1) / 100 ≤ (year - 1) / 4).
  { split; [apply Z.div_pos; lia|].
    apply Z.div_le_lower_bound; [lia|].
    pose proof (Z.mul_div_le (year - 1) 100). lia. }
  assert (0 ≤ (year - 1) / 400 ≤ year - 1)
    by (split; [apply Z.div_pos | apply Z.div_le_upper_bound]; lia).
  lia.
Qed.

(** The timestamp of the 15th of a month of a year of [datetime] is an
    integer SQLite stores, the local time zone being less than a day away
    from UTC. *)
Lemma mid_month_fits (utcoffset : Z → Z) year month_num :
  (∀ t, -86400 < utcoffset t < 86400) →
  1 ≤ year ≤ 9999 → 1 ≤ month_num ≤ 12 →
  Sqlite.fits (Datetime.timestamp utcoffset
                 (Datetime.mkDatetime year month_num 15)) = true.
Proof.
  intros Hoff Hy Hm.
  unfold Datetime.timestamp, Datetime.naive_seconds, Datetime.ymd2ord.
  cbn [Datetime.year Datetime.month Datetime.day].
  pose proof (days_before_year_bounds year Hy).
  pose proof (days_before_month_bounds year month_num Hm).
  pose proof (Hoff ((Datetime.days_before_year year
                     + Datetime.days_before_month year month_num + 15
                     - 719163) * 86400)).
  unfold Sqlite.fits. lia.
Qed.

(** X11. A dated archive dates its entries.  When the name of an archive
    matches the pattern with a month of the table and a year from 0001, and
    the local time zone is less than a day away from UTC, an entry of it
    that is valid, carries no timestamp of its own and whose [app_id] has no
    row yet is inserted with the 15th of that month as both bounds and the
    count 1; with a single such entry in a single member, the archive counts
    one entry processed and one game added, and logs nothing. *)
Theorem archive_dates_new_row (utcoffset : Z → Z) (name : string) (now : Z)
    (json_file : string) entry_data st mon digits y month_num app_id title :
  (∀ t, -86400 < utcoffset t < 86400) →
  matches ".tar.gz" name mon digits y →
  lookup_month mon month_map = Some month_num →
  1 ≤ int y →
  entry_timestamp entry_data = None →
  entry_appId entry_data = Some app_id → app_id ≠ "" →
  entry_title entry_data = Some title → title ≠ "" →
  games st !! app_id = None →
  let date := Datetime.timestamp utcoffset
                (Datetime.mkDatetime (int y) month_num 15) in
  process_archive utcoffset
    (mkArchive name now (Some [mkMember json_file (Data (JObject entry_data))]))
    st =
  ((1, 1, 0),
   mkState (<[app_id := mkGame title (Some date) (Some date) 1]> (games st))
           ({[app_id]} ∪ processed_games st)
           (archive_done (add_counts (1, 1, 0) (stats st))),
   []).
Proof.
  intros Hoff Hm Hmon Hy Hts Hid Hid' Ht Ht' Hnone date.
  assert (Hn : normalized entry_data (Some date) app_id title (Some date)).
  { unfold normalized. rewrite Hts. by repeat split. }
  assert (Hfits : Sqlite.storable (Some date) = true).
  { destruct Hm as (_ & _ & _ & _ & _ & Hdig & Hlen).
    pose proof (int_four_digits y Hdig Hlen).
    pose proof (lookup_month_Some _ _ Hmon) as (_ & _ & Hk).
    apply mid_month_fits; [done | lia | done]. }
  unfold process_archive. cbn [archive_members archive_name archive_now].
  rewrite bind_eq. unfold archive_timestamp.
  rewrite (timestamp_known_month utcoffset ".tar.gz" now _ _ _ _ _ Hm Hmon Hy).
  cbn [logging fst snd]. rewrite bind_eq.
  cbn [for_members]. rewrite bind_eq.
  unfold process_member. cbn [member_content process_data].
  unfold count_entry. rewrite bind_eq.
  fold date. rewrite (process_absent _ _ _ _ _ _ Hn Hnone Hfits).
  reflexivity.
Qed.

Lemma archive_dates_new_row_witness :
  process_archive (fun _ => 0)
    (mkArchive "reports_feb_2020.tar.gz" 0
       (Some [mkMember "a.json"
                (Data (JObject (mkEntry (Some "123") (Some "Foo") None)))]))
    (init ∅) =
  ((1, 1, 0),
   mkState (<["123" := mkGame "Foo" (Some 1581724800) (Some 1581724800) 1]> ∅)
           ({["123"]} ∪ ∅)
           (archive_done (add_counts (1, 1, 0) (stats (init ∅)))),
   []).
Proof.
  exact (archive_dates_new_row (fun _ => 0) "reports_feb_2020.tar.gz" 0
           "a.json" (mkEntry (Some "123") (Some "Foo") None) (init ∅)
           "feb" "" "2020" 2 "123" "Foo"
           ltac:(intros t; cbv beta; lia)
           matches_feb_2020 eq_refl ltac:(vm_compute; discriminate)
           eq_refl eq_refl ltac:(discriminate) eq_refl ltac:(discriminate)
           eq_refl).
Defined.

End Dating.

(** ** More on the catalog importer *)

Section Importer.

Import SteamDb.

Implicit Types (db : gmap Z CatalogEntry) (apps : list App) (now : Z).

Lemma last_name_is_Some i apps :
  is_Some (last_name i apps) ↔ i ∈ appid <$> apps.
Proof.
  split.
  - intros [nm Hnm]. destruct (decide (i ∈ appid <$> apps)) as [|Hnot]; [done|].
    by rewrite (last_name_None _ _ Hnot) in Hnm.
  - intros Hin. apply list_elem_of_fmap in Hin as (app & -> & Hin).
    apply list_elem_of_split in Hin as (apps1 & apps2 & ->).
    induction apps1 as [|a apps1 IH]; simpl.
    + destruct (last_name (appid app) apps2); [by eexists|].
      rewrite decide_True by done. by eexists.
    + destruct IH as [nm ->]. by eexists.
Qed.

Lemma size_list_to_set_le (l : list Z) :
  (size (list_to_set l : gset Z) ≤ length l)%nat.
Proof.
  induction l as [|x l IH]; [done|].
  rewrite list_to_set_cons, size_union_alt, size_singleton. simpl length.
  - assert (size (list_to_set l ∖ {[x]} : gset Z)
            ≤ size (list_to_set l : gset Z))%nat
      by (apply subseteq_size; set_solver).
    lia.
Qed.

Lemma size_list_to_set_NoDup (l : list Z) :
  size (list_to_set l : gset Z) = length l ↔ NoDup l.
Proof.
  split; [|apply size_list_to_set].
  induction l as [|x l IH]; [constructor|].
  rewrite list_to_set_cons, size_union_alt, size_singleton. simpl length.
  intros Hs. pose proof (size_list_to_set_le l).
  assert (size (list_to_set l ∖ {[x]} : gset Z)
          ≤ size (list_to_set l : gset Z))%nat
    by (apply subseteq_size; set_solver).
  assert (Heq : size (list_to_set l ∖ {[x]} : gset Z)
                = size (list_to_set l : gset Z)) by lia.
  constructor; [|apply IH; lia].
  intros Hx.
  assert (Hsub : ({[x]} : gset Z) ⊆ list_to_set l) by set_solver.
  rewrite (size_difference _ _ Hsub), size_singleton in Heq.
  apply subseteq_size in Hsub. rewrite size_singleton in Hsub. lia.
Qed.

(** X12. When every fetched id is an integer SQLite stores, the upsert adds
    a row for each distinct fetched id the table did not have, and only
    those: the ids of the table after it are the ids it had and the fetched
    ids.  So the rows gained are at most the count the function returns, and
    they equal it exactly when the fetched ids are pairwise distinct and none
    of them was in the table: with a repeated id or a known id the table
    gains strictly fewer rows than the count printed. *)
Theorem upsert_adds_new_ids now db apps :
  ids_fit apps →
  let ids : gset Z := list_to_set (appid <$> apps) in
  ∃ after,
    populate_database now None db apps =
      inr (after, Z.of_nat (length apps), []) ∧
    dom after = dom db ∪ ids ∧
    size after = (size db + size (ids ∖ dom db))%nat ∧
    Z.of_nat (size after) - Z.of_nat (size db) ≤ Z.of_nat (length apps) ∧
    (Z.of_nat (size after) - Z.of_nat (size db) = Z.of_nat (length apps) ↔
     NoDup (appid <$> apps) ∧ ∀ i, i ∈ appid <$> apps → db !! i = None).
Proof.
  intros Hfit ids. exists (upserted now db apps).
  split; [by apply populate_database_fits|].
  assert (Hdom : dom (upserted now db apps) = dom db ∪ ids).
  { apply set_eq. intros i. unfold ids.
    rewrite elem_of_union, !elem_of_dom, elem_of_list_to_set.
    rewrite upserted_lookup, <- last_name_is_Some.
    destruct (last_name i apps) as [nm|].
    - split; [right|]; by eexists.
    - split; [by left|]. intros [?|[? ?]]; done. }
  assert (Hsize : size (upserted now db apps)
                  = (size db + size (ids ∖ dom db))%nat).
  { rewrite <- !size_dom, Hdom. apply size_union_alt. }
  split; [done|]. split; [done|]. rewrite Hsize.
  assert (Hle1 : (size (ids ∖ dom db) ≤ size ids)%nat)
    by (apply subseteq_size; set_solver).
  pose proof (size_list_to_set_le (appid <$> apps)) as Hle2.
  rewrite length_fmap in Hle2. fold ids in Hle2.
  split; [lia|]. split.
  - intros Heq.
    assert (Hids : size ids = length (appid <$> apps))
      by (rewrite length_fmap; lia).
    split; [by apply size_list_to_set_NoDup|].
    intros i Hi. apply not_elem_of_dom. intros Hdb.
    assert (Hcap : size (ids ∩ dom db) = 0%nat).
    { pose proof (size_difference_alt ids (dom db)).
      assert (size (ids ∩ dom db) ≤ size ids)%nat
        by (apply subseteq_size; set_solver).
      lia. }
    apply size_empty_inv in Hcap.
    assert (i ∈ ids ∩ dom db) by (unfold ids; set_solver).
    set_solver.
  - intros [Hnodup Hnew].
    apply size_list_to_set_NoDup in Hnodup. rewrite length_fmap in Hnodup.
    fold ids in Hnodup.
    assert (ids ∖ dom db = ids) as ->; [|lia].
    apply set_eq. intros i. rewrite elem_of_difference. split; [tauto|].
    intros Hi. split; [done|]. apply not_elem_of_dom, Hnew.
    unfold ids in Hi. by apply elem_of_list_to_set in Hi.
Qed.

Lemma upsert_adds_new_ids_witness :
  ids_fit [mkApp 10 "A"; mkApp 10 "B"] ∧
  ∃ after,
    populate_database 0 None ∅ [mkApp 10 "A"; mkApp 10 "B"] =
      inr (after, 2, []) ∧
    size after = 1%nat.
Proof.
  assert (Hfit : ids_fit [mkApp 10 "A"; mkApp 10 "B"])
    by (repeat constructor).
  split; [exact Hfit|].
  destruct (upsert_adds_new_ids 0 ∅ [mkApp 10 "A"; mkApp 10 "B"] Hfit)
    as (after & Heq & _ & Hsize & _).
  exists after. split; [exact Heq|]. rewrite Hsize. by vm_compute.
Defined.

(** X13. Importing the same list again changes nothing but the clock of the
    rows: the import of a list, then the import of the same list, gives what
    the second import alone gives, the table, the count and the exception
    when an id is outside the range of SQLite; so with the same clock the
    import is idempotent. *)
Theorem upsert_twice now1 now2 db apps :
  (let? first := populate_database now1 None db apps in
   populate_database now2 None first.1.1 apps) =
  populate_database now2 None db apps.
Proof.
  destruct (decide (Forall (fun app => Sqlite.fits (appid app) = true) apps))
    as [Hfit|Hfit].
  - rewrite !(populate_database_fits _ _ _ Hfit). simpl.
    rewrite (populate_database_fits _ _ _ Hfit). do 3 f_equal.
    apply map_eq. intros i. rewrite !upserted_lookup.
    by destruct (last_name i apps).
  - by rewrite !(populate_database_overflow _ _ _ Hfit).
Qed.

(** *** Relations between the three reports of the analysis *)

Lemma occurrences_app_le apps i nm :
  occurrences (mkApp i nm) apps ≤ occurrences i (appid <$> apps).
Proof.
  induction apps as [|[i' nm'] apps IH]; [done|].
  rewrite fmap_cons. cbn [occurrences appid].
  destruct (decide (mkApp i' nm' = mkApp i nm)), (decide (i' = i));
    simplify_eq; lia.
Qed.

Lemma occurrences_two_names apps i n1 n2 :
  n1 ≠ n2 →
  occurrences (mkApp i n1) apps + occurrences (mkApp i n2) apps
    ≤ occurrences i (appid <$> apps).
Proof.
  intros Hne. induction apps as [|[i' nm'] apps IH]; [done|].
  rewrite fmap_cons. cbn [occurrences appid].
  destruct (decide (mkApp i' nm' = mkApp i n1)),
           (decide (mkApp i' nm' = mkApp i n2)), (decide (i' = i));
    simplify_eq; lia.
Qed.

Lemma NoDup_occurrences `{Countable K} (l : list K) :
  NoDup l ↔ ∀ x, occurrences x l ≤ 1.
Proof.
  induction l as [|y l IH]; simpl.
  - split; [intros _ x; lia | intros _; constructor].
  - rewrite NoDup_cons, IH. split.
    + intros [Hy Hl] x. specialize (Hl x).
      destruct (decide (y = x)) as [->|]; [|lia].
      pose proof (occurrences_pos x l). pose proof (occurrences_nonneg x l).
      assert (¬ 0 < occurrences x l) by tauto. lia.
    + intros Hall. split.
      * intros Hy%occurrences_pos. specialize (Hall y).
        rewrite decide_True in Hall by done. lia.
      * intros x. specialize (Hall x). destruct (decide (y = x)); lia.
Qed.

(** X14. The three reports of the analysis agree with one another.  An id
    reported with different names is reported as a duplicated id, and so is
    the id of every exact duplicate, with a count at least that of the pair.
    The fetched ids are all distinct exactly when no id is reported as
    duplicated, and then the other two reports are empty too. *)
Theorem analysis_reports_agree apps :
  let analysis := analyze_duplicates apps in
  (∀ i, is_Some (different_names analysis !! i) →
        is_Some (duplicate_ids analysis !! i)) ∧
  (∀ i nm n, exact_duplicates analysis !! (i, nm) = Some n →
             ∃ m, duplicate_ids analysis !! i = Some m ∧ n ≤ m) ∧
  (NoDup (appid <$> apps) ↔ duplicate_ids analysis = ∅) ∧
  (duplicate_ids analysis = ∅ →
   exact_duplicates analysis = ∅ ∧ different_names analysis = ∅).
Proof.
  intros analysis. subst analysis. unfold analyze_duplicates; simpl.
  assert (Hdiff : ∀ i, is_Some (filter (fun kv => 1 < Z.of_nat (size kv.2))
                                  (app_id_to_names apps) !! i) →
                       1 < occurrences i (appid <$> apps)).
  { intros i [names Hi]. apply map_lookup_filter_Some in Hi as [Hi Hsz].
    apply app_id_to_names_lookup in Hi as [_ ->]. simpl in Hsz.
    apply size_gt_1 in Hsz as (n1 & n2 & Hne & H1 & H2).
    apply elem_of_names_of, occurrences_pos in H1, H2.
    pose proof (occurrences_two_names apps i n1 n2 Hne). lia. }
  assert (Hexact : ∀ i nm n,
            filter (fun kv => 1 < kv.2)
              (Counter ((fun app => (appid app, name app)) <$> apps))
              !! (i, nm) = Some n →
            n ≤ occurrences i (appid <$> apps) ∧ 1 < n).
  { intros i nm n Hi. apply map_lookup_filter_Some in Hi as [Hi Hn].
    apply Counter_lookup in Hi as [-> _]. rewrite occurrences_pairs in *.
    split; [apply occurrences_app_le | done]. }
  assert (Hdup : ∀ i, 1 < occurrences i (appid <$> apps) →
            filter (fun kv => 1 < kv.2) (Counter (appid <$> apps)) !! i
            = Some (occurrences i (appid <$> apps))).
  { intros i Hi. apply map_lookup_filter_Some. split; [|done].
    apply Counter_lookup. split; [done | lia]. }
  assert (Hnodup : NoDup (appid <$> apps) ↔
                   filter (fun kv => 1 < kv.2) (Counter (appid <$> apps)) = ∅).
  { rewrite NoDup_occurrences. split.
    - intros Hall. apply map_eq. intros i. rewrite lookup_empty.
      apply eq_None_not_Some. intros [n Hn].
      apply map_lookup_filter_Some in Hn as [Hn Hgt].
      apply Counter_lookup in Hn as [-> _]. specialize (Hall i).
      simpl in Hgt. lia.
    - intros Hempty i. destruct (decide (1 < occurrences i (appid <$> apps)))
        as [Hgt|]; [|lia].
      apply Hdup in Hgt. by rewrite Hempty, lookup_empty in Hgt. }
  split; [|split; [|split]].
  - intros i Hi. rewrite (Hdup i (Hdiff i Hi)). by eexists.
  - intros i nm n Hi. destruct (Hexact i nm n Hi) as [Hle Hgt].
    eexists. split; [apply Hdup; lia | done].
  - exact Hnodup.
  - intros Hempty. apply Hnodup in Hempty.
    pose proof (proj1 (NoDup_occurrences (appid <$> apps)) Hempty) as Hall.
    clear Hempty. rename Hall into Hempty. split.
    + apply map_eq. intros [i nm]. rewrite lookup_empty.
      apply eq_None_not_Some. intros [n Hn].
      destruct (Hexact i nm n Hn). specialize (Hempty i). lia.
    + apply map_eq. intros i. rewrite lookup_empty.
      apply eq_None_not_Some. intros Hi%Hdiff. specialize (Hempty i). lia.
Qed.

Lemma analysis_reports_agree_witness :
  is_Some (different_names
             (analyze_duplicates [mkApp 10 "A"; mkApp 10 "B"]) !! 10) ∧
  is_Some (duplicate_ids
             (analyze_duplicates [mkApp 10 "A"; mkApp 10 "B"]) !! 10).
Proof.
  assert (H : is_Some (different_names
                         (analyze_duplicates [mkApp 10 "A"; mkApp 10 "B"])
                       !! 10)).
  { exists {["A"; "B"]}. by vm_compute. }
  split; [exact H|].
  exact (proj1 (analysis_reports_agree [mkApp 10 "A"; mkApp 10 "B"]) 10 H).
Defined.

(** *** The order of the fetched list *)

Lemma occurrences_Permutation `{Countable K} (l l' : list K) x :
  l ≡ₚ l' → occurrences x l = occurrences x l'.
Proof.
  induction 1 as [|y l l' _ IH|y z l|l l' l'' _ IH1 _ IH2]; simpl;
    [done | by rewrite IH | lia | congruence].
Qed.

Lemma names_of_Permutation i apps apps' :
  apps ≡ₚ apps' → names_of i apps = names_of i apps'.
Proof.
  intros Hp. apply set_eq. intros nm. rewrite !elem_of_names_of.
  by rewrite Hp.
Qed.

(** X15. The analysis does not depend on the order of the fetched list: two
    lists with the same items, in any order, get the same three reports. *)
Theorem analysis_ignores_order apps apps' :
  apps ≡ₚ apps' → analyze_duplicates apps = analyze_duplicates apps'.
Proof.
  intros Hp. unfold analyze_duplicates.
  assert (Hids : appid <$> apps ≡ₚ appid <$> apps') by by rewrite Hp.
  assert (Hpairs : (fun app => (appid app, name app)) <$> apps
                   ≡ₚ (fun app => (appid app, name app)) <$> apps')
    by by rewrite Hp.
  f_equal.
  - f_equal. apply map_eq. intros i. apply option_eq. intros n.
    by rewrite !Counter_lookup, (occurrences_Permutation _ _ i Hids).
  - f_equal. apply map_eq. intros p. apply option_eq. intros n.
    by rewrite !Counter_lookup, (occurrences_Permutation _ _ p Hpairs).
  - f_equal. apply map_eq. intros i. apply option_eq. intros names.
    rewrite !app_id_to_names_lookup, (names_of_Permutation i _ _ Hp).
    by rewrite Hids.
Qed.

Lemma analysis_ignores_order_witness :
  [mkApp 10 "A"; mkApp 20 "C"] ≡ₚ [mkApp 20 "C"; mkApp 10 "A"] ∧
  analyze_duplicates [mkApp 10 "A"; mkApp 20 "C"] =
  analyze_duplicates [mkApp 20 "C"; mkApp 10 "A"].
Proof.
  assert (Hp : [mkApp 10 "A"; mkApp 20 "C"] ≡ₚ [mkApp 20 "C"; mkApp 10 "A"])
    by apply perm_swap.
  split; [exact Hp|].
  exact (analysis_ignores_order _ _ Hp).
Defined.

(** *** A successful fetch *)

(** [main] on a list that is not empty: the table the batch starts from is
    the table as it was, or the empty table after a reset, and the table
    [main] ends with is the one the upsert gives or, when the upsert raises,
    the one it started from. *)
Lemma main_fetched now engine db reset_choice apps :
  apps ≠ [] →
  ∃ (db1 : gmap Z CatalogEntry) out,
    (db = ∅ ∨ (reset_choice ≠ "y" ∧ reset_choice ≠ "Y") → db1 = db) ∧
    (db ≠ ∅ ∧ (reset_choice = "y" ∨ reset_choice = "Y") → db1 = ∅) ∧
    main now engine db reset_choice (AppList apps) =
    match populate_database now engine db1 apps with
    | inr (db', inserted_count, out4) =>
      (db', out ++ out4 ++
            [InsertedUpdated inserted_count;
             TotalInDatabase (check_database_state db');
             ConnectionClosed])
    | inl e => (db1, out ++ [Uncaught e])
    end.
Proof.
  intros Hne. destruct apps as [|app apps]; [done|].
  set (out3 := [TotalFetched (Z.of_nat (length (app :: apps)));
                Duplicates (analyze_duplicates (app :: apps))]).
  unfold main, check_database_state, fetch_steam_apps.
  destruct (0 <? Z.of_nat (size db)) eqn:Hsize;
    [destruct (String.eqb (lower reset_choice) "y") eqn:Hl|].
  - apply lower_is_y in Hl.
    exists ∅, ([RecordsBefore (Z.of_nat (size db)); DatabaseReset] ++ out3).
    split; [|split].
    + intros [-> | [? ?]]; [done | by destruct Hl].
    + done.
    + unfold reset_database.
      by destruct (populate_database now engine ∅ (app :: apps))
        as [e|[[db' n] out4]].
  - exists db, ([RecordsBefore (Z.of_nat (size db))] ++ out3).
    split; [done|]. split.
    + intros [_ Hyes]. apply lower_is_y in Hyes. congruence.
    + by destruct (populate_database now engine db (app :: apps))
        as [e|[[db' n] out4]].
  - exists db, ([RecordsBefore (Z.of_nat (size db))] ++ out3).
    split; [done|]. split.
    + intros [Hdb _]. apply map_size_non_empty_iff in Hdb. lia.
    + by destruct (populate_database now engine db (app :: apps))
        as [e|[[db' n] out4]].
Qed.

(** X16. When the request returns a list that is not empty, the importer
    upserts it into the table it has at that moment.  When every fetched id
    is an integer SQLite stores: without a reset, every fetched id gets the
    name of its last item and every other row of the old table stays, stale
    or not; after a reset (rows present, answer [y] or [Y]) the table holds
    the fetched ids and nothing else.  When a fetched id is outside the
    signed 64-bit range, the importer ends on [OverflowError] with nothing
    upserted: the table is as it was, or empty after a reset, which the
    failure does not undo. *)
Theorem successful_fetch now db reset_choice apps :
  apps ≠ [] →
  let result := main now None db reset_choice (AppList apps) in
  (ids_fit apps →
   (db = ∅ ∨ (reset_choice ≠ "y" ∧ reset_choice ≠ "Y") →
    ∀ i, result.1 !! i = match last_name i apps with
                         | Some nm => Some (mkRow nm now)
                         | None => db !! i
                         end) ∧
   (db ≠ ∅ ∧ (reset_choice = "y" ∨ reset_choice = "Y") →
    ∀ i, result.1 !! i = match last_name i apps with
                         | Some nm => Some (mkRow nm now)
                         | None => None
                         end)) ∧
  (¬ ids_fit apps →
   last result.2 = Some (Uncaught Py.OverflowError) ∧
   (db = ∅ ∨ (reset_choice ≠ "y" ∧ reset_choice ≠ "Y") → result.1 = db) ∧
   (db ≠ ∅ ∧ (reset_choice = "y" ∨ reset_choice = "Y") → result.1 = ∅)).
Proof.
  intros Hne result. subst result.
  destruct (main_fetched now None db reset_choice apps Hne)
    as (db1 & out & Hkeep & Hreset & ->).
  split.
  - intros Hfit. rewrite (populate_database_fits _ _ _ Hfit). simpl. split.
    + intros ->%Hkeep i. apply upserted_lookup.
    + intros ->%Hreset i. rewrite upserted_lookup, lookup_empty. done.
  - intros Hfit. rewrite (populate_database_overflow _ _ _ Hfit). simpl.
    split; [apply last_snoc|]. split; auto.
Qed.

Lemma successful_fetch_witness :
  [mkApp 10 "A"] ≠ [] ∧
  ids_fit [mkApp 10 "A"] ∧
  ((({[30 := mkRow "old" 0]} : gmap Z CatalogEntry) ≠ ∅
    ∧ ("y" = "y" ∨ "y" = "Y")) ∧
   (main 5 None {[30 := mkRow "old" 0]} "y" (AppList [mkApp 10 "A"])).1 !! 30
   = None).
Proof.
  assert (Hne : [mkApp 10 "A"] ≠ []) by discriminate.
  assert (Hfit : ids_fit [mkApp 10 "A"]) by (repeat constructor).
  assert (Hy : ({[30 := mkRow "old" 0]} : gmap Z CatalogEntry) ≠ ∅
               ∧ ("y" = "y" ∨ "y" = "Y")).
  { split; [|by left]. intros H. apply (f_equal (lookup 30)) in H.
    rewrite lookup_singleton_eq, lookup_empty in H. discriminate H. }
  split; [exact Hne|]. split; [exact Hfit|]. split; [exact Hy|].
  exact (proj2 (proj1 (successful_fetch 5 {[30 := mkRow "old" 0]} "y"
                         [mkApp 10 "A"] Hne) Hfit) Hy 30).
Defined.

End Importer.

(** ** The queries *)

Section Search.

Import Extractor Querier.

Local Open Scope string_scope.
Local Open Scope Z_scope.

Implicit Types (db : gmap string GameRecord) (p s t pattern text : string).

Lemma like_percent_nil p : like (String "%" p) "" = like p "" || false.
Proof. reflexivity. Qed.

Lemma like_percent_cons p c t :
  like (String "%" p) (String c t) = like p (String c t) || like (String "%" p) t.
Proof. reflexivity. Qed.

(** [%] stands for any prefix of the text. *)
Lemma like_percent p t :
  like (String "%" p) t = true ↔ ∃ t1 t2, t = t1 +:+ t2 ∧ like p t2 = true.
Proof.
  induction t as [|c t IH].
  - rewrite like_percent_nil, orb_false_r. split.
    + intros Hp. by exists "", "".
    + intros (t1 & t2 & Ht & Hp). by destruct t1, t2.
  - rewrite like_percent_cons, orb_true_iff, IH. split.
    + intros [Hp | (t1 & t2 & -> & Hp)].
      * by exists "", (String c t).
      * by exists (String c t1), t2.
    + intros (t1 & t2 & Ht & Hp). destruct t1 as [|c1 t1].
      * left. by rewrite Ht.
      * right. injection Ht as -> ->. by exists t1, t2.
Qed.

Lemma like_percent_only t : like "%" t = true.
Proof.
  apply like_percent. exists t, "". split; [|done].
  induction t as [|c t IH]; [done|]. by rewrite app_cons, <- IH.
Qed.

Lemma like_literal_cons a p c t :
  a ≠ "%"%char → a ≠ "_"%char →
  like (String a p) (String c t) =
  Ascii.eqb (fold_case a) (fold_case c) && like p t.
Proof.
  intros H1 H2. simpl.
  apply Ascii.eqb_neq in H1, H2. by rewrite H1, H2.
Qed.

Lemma like_literal_nil a p : a ≠ "%"%char → like (String a p) "" = false.
Proof. intros H1. simpl. apply Ascii.eqb_neq in H1. by rewrite H1. Qed.

(** A run of literal characters stands for a prefix of the text that
    equals it up to case. *)
Lemma like_literal s rest t :
  literal s →
  like (s +:+ rest) t = true ↔
  ∃ t1 t2, t = t1 +:+ t2 ∧ fold_cases t1 = fold_cases s ∧ like rest t2 = true.
Proof.
  revert t. induction s as [|a s IH]; intros t Hlit.
  - rewrite app_nil. split.
    + intros Hp. by exists "", t.
    + intros (t1 & t2 & -> & Hf & Hp). by destruct t1.
  - destruct Hlit as (H1 & H2 & _ & Hlit). rewrite app_cons.
    destruct t as [|c t].
    + rewrite like_literal_nil by done. split; [done|].
      intros (t1 & t2 & Ht & Hf & _). by destruct t1.
    + rewrite like_literal_cons, andb_true_iff, Ascii.eqb_eq, (IH t Hlit)
        by done.
      split.
      * intros (Hc & t1 & t2 & -> & Hf & Hp).
        exists (String c t1), t2. simpl. by rewrite Hc, Hf.
      * intros (t1 & t2 & Ht & Hf & Hp). destruct t1 as [|c1 t1]; [done|].
        injection Ht as -> ->. injection Hf as Hc Hf. eauto 6.
Qed.

(** The pattern of a search for a literal text. *)
Lemma like_search_literal s t :
  literal s → like (String "%" (s +:+ "%")) t = true ↔ contains_ci s t.
Proof.
  intros Hlit. rewrite like_percent. unfold contains_ci. split.
  - intros (t1 & t2 & -> & Hp).
    apply (like_literal s "%" t2 Hlit) in Hp as (t3 & t4 & -> & Hf & _).
    by exists t1, t3, t4.
  - intros (pre & mid & post & -> & Hf). exists pre, (mid +:+ post).
    split; [done|]. apply (like_literal s "%" _ Hlit).
    exists mid, post. split; [done|]. split; [done|]. apply like_percent_only.
Qed.

(** *** What the engine reads of the pattern *)

Lemma utf8_length_nonneg s : 0 ≤ utf8_length s.
Proof.
  induction s as [|c s IH]; simpl; [done|].
  destruct (Text.code c <? 128); lia.
Qed.

Lemma utf8_length_pattern s :
  utf8_length (String "%" (s +:+ "%")) = utf8_length s + 2.
Proof.
  change (utf8_length (String "%" (s +:+ "%")))
    with (1 + utf8_length (s +:+ "%")).
  induction s as [|c s IH]; [done|].
  rewrite app_cons. cbn [utf8_length]. lia.
Qed.

(** The query is refused exactly when the pattern is over the limit and the
    table has a row. *)
Lemma search_games_by_name_eq db name_pattern :
  search_games_by_name db name_pattern =
  if (49998 <? utf8_length name_pattern) && negb (bool_decide (db = ∅))
  then inl Py.Sqlite3Error
  else inr (filter (fun kv =>
                      like (c_str (String "%" (name_pattern +:+ "%")))
                           (c_str (Extractor.title kv.2)) = true) db).
Proof.
  unfold search_games_by_name, SQLITE_MAX_LIKE_PATTERN_LENGTH. cbv zeta.
  rewrite utf8_length_pattern.
  assert ((50000 <? utf8_length name_pattern + 2)
          = (49998 <? utf8_length name_pattern)) as -> by lia.
  reflexivity.
Qed.

Lemma c_str_literal s rest :
  literal s → c_str (s +:+ rest) = s +:+ c_str rest.
Proof.
  induction s as [|a s IH]; [done|]. intros (_ & _ & Ha & Hlit).
  rewrite !app_cons. cbn [c_str]. apply Ascii.eqb_neq in Ha.
  by rewrite Ha, (IH Hlit).
Qed.

Lemma c_str_percents s rest :
  Text.all (fun c => Ascii.eqb c "%") s = true →
  c_str (s +:+ rest) = s +:+ c_str rest.
Proof.
  induction s as [|a s IH]; [done|]. cbn [Text.all].
  intros [Ha Hs]%andb_true_iff. apply Ascii.eqb_eq in Ha as ->.
  rewrite !app_cons. cbn [c_str]. by rewrite (IH Hs).
Qed.

(** X17. A search for a text without [%], [_] and NUL, of at most 49998
    bytes, returns the rows whose title contains the text, up to the case of
    ASCII letters, and no other row; of a title the engine reads what comes
    before its first NUL.  A search for a longer text is refused by the
    engine as soon as the table has a row: the pattern, with its two [%], is
    over the limit of 50000 bytes. *)
Theorem search_finds_substrings db name_pattern :
  (literal name_pattern → utf8_length name_pattern ≤ 49998 →
   ∃ result,
     search_games_by_name db name_pattern = inr result ∧
     ∀ app_id row,
       result !! app_id = Some row ↔
       db !! app_id = Some row ∧
       contains_ci name_pattern (c_str (Extractor.title row))) ∧
  (49998 < utf8_length name_pattern → db ≠ ∅ →
   search_games_by_name db name_pattern = inl Py.Sqlite3Error).
Proof.
  rewrite search_games_by_name_eq. split.
  - intros Hlit Hlen.
    assert ((49998 <? utf8_length name_pattern) = false) as -> by lia.
    eexists. split; [reflexivity|]. intros app_id row.
    rewrite map_lookup_filter_Some. cbn [snd].
    change (String "%" (name_pattern +:+ "%"))
      with ("%" +:+ name_pattern +:+ "%").
    rewrite (c_str_percents "%" _ eq_refl), (c_str_literal _ "%" Hlit).
    change ("%" +:+ name_pattern +:+ c_str "%")
      with (String "%" (name_pattern +:+ "%")).
    by rewrite (like_search_literal _ _ Hlit).
  - intros Hlen Hne.
    assert ((49998 <? utf8_length name_pattern) = true) as -> by lia.
    by rewrite bool_decide_eq_false_2.
Qed.

Lemma search_finds_substrings_witness :
  literal "half" ∧ utf8_length "half" ≤ 49998 ∧
  ∃ result,
    search_games_by_name {["220" := mkGame "Half-Life 2" None None 1]} "half"
      = inr result ∧
    (result !! "220" = Some (mkGame "Half-Life 2" None None 1) ↔
     ({["220" := mkGame "Half-Life 2" None None 1]} : gmap string GameRecord)
       !! "220" = Some (mkGame "Half-Life 2" None None 1) ∧
     contains_ci "half"
       (c_str (Extractor.title (mkGame "Half-Life 2" None None 1)))).
Proof.
  assert (Hlit : literal "half") by (simpl; repeat split; discriminate).
  assert (Hlen : utf8_length "half" ≤ 49998) by (vm_compute; discriminate).
  split; [exact Hlit|]. split; [exact Hlen|].
  destruct (proj1 (search_finds_substrings
                     {["220" := mkGame "Half-Life 2" None None 1]} "half")
                  Hlit Hlen) as (result & Heq & Hiff).
  exists result. split; [exact Heq|]. exact (Hiff "220" _).
Defined.

Lemma like_percents s t :
  Text.all (fun c => Ascii.eqb c "%") s = true → like (s +:+ "%") t = true.
Proof.
  induction s as [|a s IH]; simpl Text.all.
  - intros _. apply like_percent_only.
  - intros [Ha Hs]%andb_true_iff. apply Ascii.eqb_eq in Ha as ->.
    rewrite app_cons. apply like_percent. exists "", t. split; [done|]. auto.
Qed.

Lemma like_any_one t : like "%_%" t = true ↔ t ≠ "".
Proof.
  rewrite like_percent. split.
  - intros (t1 & t2 & -> & Hp). destruct t2 as [|c t2]; [done|].
    by destruct t1.
  - intros Hne. destruct t as [|c t]; [done|]. exists "", (String c t).
    split; [done|]. change (like "_%" (String c t)) with (like "%" t).
    apply like_percent_only.
Qed.

(** X18. The wildcards of the pattern language are not escaped in the search
    text.  A search for the empty text or for a text made of at most 49998
    [%] returns every row, and a search for [_] returns every row whose
    title, read up to its first NUL, is not empty, whether or not the title
    holds an underscore. *)
Theorem search_wildcards_are_live db :
  (∀ name_pattern,
     Text.all (fun c => Ascii.eqb c "%") name_pattern = true →
     utf8_length name_pattern ≤ 49998 →
     search_games_by_name db name_pattern = inr db) ∧
  (∃ result,
     search_games_by_name db "_" = inr result ∧
     ∀ app_id row,
       result !! app_id = Some row ↔
       db !! app_id = Some row ∧ c_str (Extractor.title row) ≠ "").
Proof.
  split.
  - intros name_pattern Hall Hlen. rewrite search_games_by_name_eq.
    assert ((49998 <? utf8_length name_pattern) = false) as -> by lia.
    cbn [andb]. f_equal. apply map_filter_id. intros app_id row _. cbn [snd].
    change (String "%" (name_pattern +:+ "%"))
      with (String "%" name_pattern +:+ "%").
    rewrite (c_str_percents (String "%" name_pattern) "%")
      by (simpl; by rewrite Hall).
    apply like_percents. simpl. by rewrite Hall.
  - eexists. split; [reflexivity|]. intros app_id row.
    rewrite map_lookup_filter_Some, <- like_any_one. reflexivity.
Qed.

Lemma search_wildcards_are_live_witness :
  Text.all (fun c => Ascii.eqb c "%") "%%" = true ∧
  utf8_length "%%" ≤ 49998 ∧
  search_games_by_name {["220" := mkGame "Half-Life 2" None None 1]} "%%" =
  inr {["220" := mkGame "Half-Life 2" None None 1]}.
Proof.
  assert (Hlen : utf8_length "%%" ≤ 49998) by (vm_compute; discriminate).
  split; [reflexivity|]. split; [exact Hlen|].
  exact (proj1 (search_wildcards_are_live
                  {["220" := mkGame "Half-Life 2" None None 1]})
               "%%" eq_refl Hlen).
Defined.

End Search.

Section Ranking.

Import Extractor Querier.

Implicit Types (db : gmap string GameRecord) (key : GameRecord → option Z).

#[local] Instance sql_le_trans : Transitive sql_le.
Proof. intros [x|] [y|] [z|]; simpl; (done || lia). Qed.

#[local] Instance sql_le_total : Total sql_le.
Proof. intros [x|] [y|]; simpl; (auto || lia). Qed.

#[local] Instance desc_trans key : Transitive (desc key).
Proof. intros r1 r2 r3 H12 H23. unfold desc in *. by etrans. Qed.

#[local] Instance desc_total key : Total (desc key).
Proof. intros r1 r2. unfold desc. destruct (total sql_le (key r1.2) (key r2.2)); auto. Qed.

(** A prefix of the sorted rows. *)
Lemma take_sorted_rows key (n : nat) db :
  let sorted := merge_sort (desc key) (map_to_list db) in
  let result := take n sorted in
  (∀ r, r ∈ result → db !! r.1 = Some r.2) ∧
  NoDup result ∧
  length result = Nat.min n (size db) ∧
  StronglySorted (desc key) result ∧
  (∀ r r', r ∈ result → db !! r'.1 = Some r'.2 → r' ∉ result →
           desc key r r').
Proof.
  intros sorted result.
  assert (Hperm : sorted ≡ₚ map_to_list db) by apply merge_sort_Permutation.
  assert (Hsorted : StronglySorted (desc key) sorted)
    by (apply StronglySorted_merge_sort; apply _).
  assert (Hsplit : sorted = result ++ drop n sorted)
    by (symmetry; apply take_drop).
  assert (Hnodup : NoDup sorted)
    by (rewrite Hperm; apply NoDup_map_to_list).
  assert (Hmem : ∀ r, r ∈ sorted ↔ db !! r.1 = Some r.2).
  { intros [i x]. rewrite Hperm. apply elem_of_map_to_list. }
  rewrite Hsplit in Hsorted, Hnodup. split; [|split; [|split; [|split]]].
  - intros r Hr. apply Hmem. rewrite Hsplit. apply elem_of_app. by left.
  - by apply NoDup_app in Hnodup as (? & _ & _).
  - unfold result. by rewrite length_take, Hperm, length_map_to_list.
  - by apply StronglySorted_app_1_l in Hsorted.
  - intros r r' Hr Hr' Hnot. apply Hmem in Hr'. rewrite Hsplit in Hr'.
    apply elem_of_app in Hr' as [?|Hdrop]; [done|].
    by eapply StronglySorted_app_1_elem_of.
Qed.

(** X19. The top-N queries.  With a limit SQLite binds, an integer of the
    signed 64-bit range, the rows returned are rows of the table, each once;
    they are as many as the limit allows and the table has, all of them when
    the limit is negative; they come in descending order of the key, a
    [NULL] key last; and no row left out has a greater key than a row
    returned.  With a limit outside that range the query raises
    [OverflowError].  This holds for the most reported, the recently added
    and the recently updated games, whose keys are [report_count],
    [first_seen] and [last_seen]. *)
Theorem top_rows key (limit : Z) db :
  (Sqlite.fits limit = true →
   ∃ result,
     top_by key limit db = inr result ∧
     (∀ r, r ∈ result → db !! r.1 = Some r.2) ∧
     NoDup result ∧
     length result =
       (if limit <? 0 then size db else Nat.min (Z.to_nat limit) (size db)) ∧
     StronglySorted (desc key) result ∧
     (∀ r r', r ∈ result → db !! r'.1 = Some r'.2 → r' ∉ result →
              desc key r r')) ∧
  (Sqlite.fits limit = false → top_by key limit db = inl Py.OverflowError).
Proof.
  unfold top_by. rewrite bind_one. split; intros ->; [|done].
  eexists. split; [reflexivity|].
  destruct (limit <? 0).
  - pose proof (take_sorted_rows key (size db) db) as H. simpl in H.
    rewrite take_ge in H; [by rewrite Nat.min_id in H|].
    by rewrite merge_sort_Permutation, length_map_to_list.
  - apply take_sorted_rows.
Qed.

Lemma top_rows_witness :
  Sqlite.fits 1 = true ∧
  ∃ result,
    get_most_reported_games 1 {["1" := mkGame "T" None None 3]} = inr result ∧
    length result = 1%nat.
Proof.
  assert (Hfits : Sqlite.fits 1 = true) by reflexivity.
  split; [exact Hfits|].
  destruct (proj1 (top_rows (fun g => Some (report_count g)) 1
                     {["1" := mkGame "T" None None 3]}) Hfits)
    as (result & Heq & _ & _ & Hlen & _).
  exists result. split; [exact Heq|].
  rewrite Hlen, map_size_singleton. reflexivity.
Defined.

(** X20. The two timestamps of the statistics are both [NULL] or both
    present, and then the oldest is not after the newest. *)
Theorem stats_timestamps_ordered (float : Type) (fdiv : Z → Z → float)
    (round2 : float → float) db stats :
  get_database_stats fdiv round2 db = inr stats →
  match oldest_game_timestamp stats, newest_game_timestamp stats with
  | Some oldest, Some newest => oldest ≤ newest
  | None, None => True
  | _, _ => False
  end.
Proof.
  unfold get_database_stats.
  destruct (round float round2 _) as [e|avg]; [done|]. simpl.
  intros [= <-]. simpl.
  assert (Hmin : extreme_first_seen Z.le db
                   (sql_min (first_seen <$> rows db)))
    by (apply (sql_agg_first_seen Z.min Z.le); intros; lia).
  assert (Hmax : extreme_first_seen Z.ge db
                   (sql_max (first_seen <$> rows db)))
    by (apply (sql_agg_first_seen Z.max Z.ge); intros; lia).
  destruct (sql_min _) as [o|], (sql_max _) as [n|]; simpl in *.
  - destruct Hmin as [(app_id & row & Hrow & Hf) _].
    destruct Hmax as [_ Hall]. specialize (Hall _ _ _ Hrow Hf). lia.
  - destruct Hmin as [(app_id & row & Hrow & Hf) _].
    specialize (Hmax _ _ Hrow). congruence.
  - destruct Hmax as [(app_id & row & Hrow & Hf) _].
    specialize (Hmin _ _ Hrow). congruence.
  - done.
Qed.

Lemma stats_timestamps_ordered_witness :
  ∃ stats,
    get_database_stats (fun s n => (s, n)) (fun x => x)
                       {["1" := mkGame "T" (Some 5) (Some 9) 3]}
    = inr stats ∧
    match oldest_game_timestamp stats, newest_game_timestamp stats with
    | Some oldest, Some newest => oldest ≤ newest
    | None, None => True
    | _, _ => False
    end.
Proof.
  assert (H : get_database_stats (fun s n => (s, n)) (fun x => x)
                ({["1" := mkGame "T" (Some 5) (Some 9) 3]}
                 : gmap string GameRecord)
              = inr (Querier.mkStats 1 (Some 3) (3, 1) (Some 5) (Some 5))).
  { unfold get_database_stats, rows. rewrite map_to_list_singleton.
    reflexivity. }
  eexists. split; [exact H|].
  exact (stats_timestamps_ordered (Z * Z) (fun s n => (s, n)) (fun x => x)
           _ _ H).
Defined.

End Ranking.
